(** * LIL (Little Interpreted Language), U-Boot port: a shallow embedding

    The development follows [common/cli_lil.c].  Every C function that the
    verified properties depend on is transcribed as a Rocq function of the same
    name; [struct lil *lil], which the C code threads through every call, is
    an explicit state, and the recursion of the interpreter through
    [lil_parse] is tied with a fuel argument.

    Conventions of the transcription:
    - a [struct lil_value] is its byte string ([string]); a pointer that the
      code tests against [NULL] is an [option];
    - [malloc], [calloc], [realloc] and [strdup] always succeed;
    - an environment pointer is an address in the heap [lil_envs]; a variable
      pointer is the owning address together with the index in [env->var];
      a command pointer is the index in [lil->cmd];
    - [ssize_t] is a 64-bit two's-complement integer;
    - a [while] loop whose every iteration consumes input runs on a counter
      initialised with the remaining input. *)

From Stdlib Require Import ZArith String Ascii List Bool Lia.
From Stdlib Require Import DecimalString Decimal DecimalPos.
From stdpp Require Import gmap.

Open Scope string_scope.
Open Scope nat_scope.

(** Sequencing of computations that may run out of fuel. *)
Notation "'let*' p ':=' m 'in' k" :=
  (match m with
   | Some p => k
   | None => None
   end)
  (at level 10, p pattern, m at level 100, k at level 200,
   format "'[' 'let*'  p  ':='  m  'in'  '/' k ']'").

(** ** Characters and C strings *)

Definition NUL : ascii := "000"%char.

Definition is_char (c d : ascii) : bool := Ascii.eqb c d.

(** [s[i]]; a C buffer is followed by its terminating NUL. *)
Definition code_at (s : string) (i : nat) : ascii :=
  match String.get i s with
  | Some c => c
  | None => NUL
  end.

(** The C-string view of a buffer: the bytes before the first NUL. *)
Fixpoint cstr (s : string) : string :=
  match s with
  | EmptyString => EmptyString
  | String c r => if is_char c NUL then EmptyString else String c (cstr r)
  end.

Definition strlen (s : string) : nat := String.length (cstr s).

(** [strcmp(a, b) == 0] *)
Definition streq (a b : string) : bool := String.eqb (cstr a) (cstr b).

(** Modelled from the spec: the [<ctype.h>] predicates are not among the
    sources; the interpreter has "no Unicode awareness beyond byte-level
    ASCII classification", so they are the ASCII ones. *)
Definition isdigit (c : ascii) : bool :=
  let n := nat_of_ascii c in (48 <=? n) && (n <=? 57).

Definition isspace (c : ascii) : bool :=
  let n := nat_of_ascii c in (n =? 32) || ((9 <=? n) && (n <=? 13)).

Definition ispunct (c : ascii) : bool :=
  let n := nat_of_ascii c in
  ((33 <=? n) && (n <=? 47)) || ((58 <=? n) && (n <=? 64)) ||
  ((91 <=? n) && (n <=? 96)) || ((123 <=? n) && (n <=? 126)).

Definition iscntrl (c : ascii) : bool :=
  let n := nat_of_ascii c in (n <? 32) || (n =? 127).

(** ** Signed machine integers ([ssize_t]) *)

Definition ssize_bits : Z := 64.

Definition wrap (z : Z) : Z :=
  ((z + 2 ^ (ssize_bits - 1)) mod 2 ^ ssize_bits - 2 ^ (ssize_bits - 1))%Z.

(** [sprintf(buff, "%zd", num)] *)
Definition string_of_ssize (z : Z) : string :=
  NilZero.string_of_int (Z.to_int z).

(** ** The expression evaluator *)

Record expreval := mk_ee {
  ee_code : string;
  ee_len : nat;
  ee_head : nat;
  ee_ival : Z;
  ee_error : nat
}.

Definition EERR_NO_ERROR : nat := 0.
Definition EERR_SYNTAX_ERROR : nat := 1.
Definition EERR_DIVISION_BY_ZERO : nat := 3.
Definition EERR_INVALID_EXPRESSION : nat := 4.

Definition ee_set_head (h : nat) (ee : expreval) : expreval :=
  mk_ee (ee_code ee) (ee_len ee) h (ee_ival ee) (ee_error ee).

Definition ee_set_ival (v : Z) (ee : expreval) : expreval :=
  mk_ee (ee_code ee) (ee_len ee) (ee_head ee) v (ee_error ee).

Definition ee_set_error (e : nat) (ee : expreval) : expreval :=
  mk_ee (ee_code ee) (ee_len ee) (ee_head ee) (ee_ival ee) e.

(** [ee->head += k] *)
Definition ee_adv (k : nat) (ee : expreval) : expreval :=
  ee_set_head (ee_head ee + k) ee.

(** [ee->code[ee->head]] and [ee->code[ee->head + 1]] *)
Definition ee_cur (ee : expreval) : ascii := code_at (ee_code ee) (ee_head ee).
Definition ee_next (ee : expreval) : ascii :=
  code_at (ee_code ee) (ee_head ee + 1).

Definition ee_invalidpunct (ch : ascii) : bool :=
  ispunct ch && negb (is_char ch "!") && negb (is_char ch "~") &&
  negb (is_char ch "(") && negb (is_char ch ")") && negb (is_char ch "-") &&
  negb (is_char ch "+").

Fixpoint ee_skip_spaces_loop (n : nat) (ee : expreval) : expreval :=
  match n with
  | 0 => ee
  | S n' =>
      if (ee_head ee <? ee_len ee) && isspace (ee_cur ee)
      then ee_skip_spaces_loop n' (ee_adv 1 ee)
      else ee
  end.

Definition ee_skip_spaces (ee : expreval) : expreval :=
  ee_skip_spaces_loop (ee_len ee - ee_head ee) ee.

Fixpoint ee_numeric_loop (n : nat) (ee : expreval) : expreval :=
  match n with
  | 0 => ee
  | S n' =>
      if ee_head ee <? ee_len ee then
        if negb (isdigit (ee_cur ee)) then ee
        else
          let d := (Z.of_nat (nat_of_ascii (ee_cur ee)) - 48)%Z in
          ee_numeric_loop n'
            (ee_adv 1 (ee_set_ival (wrap (ee_ival ee * 10 + d)) ee))
      else ee
  end.

Definition ee_numeric_element (ee : expreval) : expreval :=
  let ee := ee_skip_spaces ee in
  let ee := ee_set_ival 0 ee in
  ee_numeric_loop (ee_len ee - ee_head ee) ee.

Definition ee_element (ee : expreval) : expreval :=
  if isdigit (ee_cur ee) then ee_numeric_element ee
  else ee_set_error EERR_INVALID_EXPRESSION (ee_set_ival 1 ee).

(** What one turn of a [while] body does: fall through to the next test of
    the condition, or [return] from the enclosing function. *)
Inductive loop_step : Type :=
| Continue (ee : expreval)
| Return (ee : expreval).

(** [while (cond) body]; [None] when the counter runs out or a callee has. *)
Fixpoint ee_while (n : nat) (cond : expreval -> bool)
    (body : expreval -> option loop_step) (ee : expreval) : option expreval :=
  match n with
  | 0 => if cond ee then None else Some ee
  | S n' =>
      if cond ee then
        match body ee with
        | None => None
        | Some (Return ee') => Some ee'
        | Some (Continue ee') => ee_while n' cond body ee'
        end
      else Some ee
  end.

Definition bool_to_Z (b : bool) : Z := if b then 1%Z else 0%Z.

(** The count of a 64-bit shift instruction. *)
Definition shift_count (z : Z) : Z := Z.land z (ssize_bits - 1).

Section ExprLevels.

(** [IS_ENABLED(CONFIG_LIL_FULL)] *)
Variable CONFIG_LIL_FULL : bool.

(** the call of [ee_expr] from [ee_paren], one unit of fuel below *)
Variable ee_expr_rec : expreval -> option expreval.

Definition ee_paren (ee : expreval) : option expreval :=
  let ee := ee_skip_spaces ee in
  if is_char (ee_cur ee) "(" then
    match ee_expr_rec (ee_adv 1 ee) with
    | None => None
    | Some ee =>
        let ee := ee_skip_spaces ee in
        if is_char (ee_cur ee) ")" then Some (ee_adv 1 ee)
        else Some (ee_set_error EERR_SYNTAX_ERROR ee)
    end
  else Some (ee_element ee).

Definition ee_unary_op (op : ascii) (ee : expreval) : expreval :=
  if is_char op "-" then ee_set_ival (wrap (- ee_ival ee)) ee
  else if is_char op "+" then ee
  else if is_char op "~" then ee_set_ival (Z.lnot (ee_ival ee)) ee
  else if is_char op "!" then ee_set_ival (bool_to_Z (ee_ival ee =? 0)%Z) ee
  else ee.

Fixpoint ee_unary (n : nat) (ee : expreval) : option expreval :=
  let ee := ee_skip_spaces ee in
  if (ee_head ee <? ee_len ee) && (ee_error ee =? 0) &&
     (is_char (ee_cur ee) "-" || is_char (ee_cur ee) "+" ||
      is_char (ee_cur ee) "~" || is_char (ee_cur ee) "!")
  then
    match n with
    | 0 => None
    | S n' =>
        let op := ee_cur ee in
        match ee_unary n' (ee_adv 1 ee) with
        | None => None
        | Some ee =>
            if negb (ee_error ee =? 0) then Some ee
            else Some (ee_unary_op op ee)
        end
    end
  else ee_paren ee.

(** The operand of a binary operator, then either [return] on error or the
    combination with the left operand followed by [ee_skip_spaces]. *)
Definition ee_operand (sub : expreval -> option expreval)
    (ee : expreval) (combine : expreval -> expreval) : option loop_step :=
  match sub ee with
  | None => None
  | Some ee =>
      if negb (ee_error ee =? 0) then Some (Return ee)
      else Some (Continue (ee_skip_spaces (combine ee)))
  end.

(** The condition and the body of the [while] loop of [ee_muldiv]. *)
Definition ee_muldiv_cond (ee : expreval) : bool :=
  (ee_head ee <? ee_len ee) && (ee_error ee =? 0) &&
  negb (ee_invalidpunct (ee_next ee)) &&
  (is_char (ee_cur ee) "*" || is_char (ee_cur ee) "/" ||
   is_char (ee_cur ee) "\" || is_char (ee_cur ee) "%").

Definition ee_muldiv_step (n : nat) (ee : expreval) : option loop_step :=
  let oival := ee_ival ee in
  if is_char (ee_cur ee) "*" then
    ee_operand (ee_unary n) (ee_adv 1 ee)
      (fun ee => ee_set_ival (wrap (ee_ival ee * oival)) ee)
  else if is_char (ee_cur ee) "%" then
    ee_operand (ee_unary n) (ee_adv 1 ee)
      (fun ee =>
         if (ee_ival ee =? 0)%Z
         then ee_set_error EERR_DIVISION_BY_ZERO ee
         else ee_set_ival (wrap (Z.rem oival (ee_ival ee))) ee)
  else if is_char (ee_cur ee) "/" then
    ee_operand (ee_unary n) (ee_adv 1 ee)
      (fun ee =>
         if (ee_ival ee =? 0)%Z
         then ee_set_error EERR_DIVISION_BY_ZERO ee
         else ee_set_ival (wrap (Z.quot oival (ee_ival ee))) ee)
  else if is_char (ee_cur ee) "\" then
    ee_operand (ee_unary n) (ee_adv 1 ee)
      (fun ee =>
         if (ee_ival ee =? 0)%Z
         then ee_set_error EERR_DIVISION_BY_ZERO ee
         else ee_set_ival (wrap (Z.quot oival (ee_ival ee))) ee)
  else Some (Continue (ee_skip_spaces ee)).

Definition ee_muldiv (n : nat) (ee : expreval) : option expreval :=
  match ee_unary n ee with
  | None => None
  | Some ee =>
      if negb (ee_error ee =? 0) || negb CONFIG_LIL_FULL then Some ee
      else ee_while n ee_muldiv_cond (ee_muldiv_step n) (ee_skip_spaces ee)
  end.

Definition ee_addsub (n : nat) (ee : expreval) : option expreval :=
  match ee_muldiv n ee with
  | None => None
  | Some ee =>
      if negb CONFIG_LIL_FULL then Some ee
      else
        ee_while n
          (fun ee =>
             (ee_head ee <? ee_len ee) && (ee_error ee =? 0) &&
             negb (ee_invalidpunct (ee_next ee)) &&
             (is_char (ee_cur ee) "+" || is_char (ee_cur ee) "-"))
          (fun ee =>
             let oival := ee_ival ee in
             if is_char (ee_cur ee) "+" then
               ee_operand (ee_muldiv n) (ee_adv 1 ee)
                 (fun ee => ee_set_ival (wrap (ee_ival ee + oival)) ee)
             else if is_char (ee_cur ee) "-" then
               ee_operand (ee_muldiv n) (ee_adv 1 ee)
                 (fun ee => ee_set_ival (wrap (oival - ee_ival ee)) ee)
             else Some (Continue (ee_skip_spaces ee)))
          (ee_skip_spaces ee)
  end.

(** [oival << ival] and [oival >> ival] on [ssize_t]: the machine takes the
    shift count modulo 64 (its low six bits), a left shift drops the bits
    that leave the word and a right shift of a negative number is
    arithmetic. *)
Definition ee_shift (n : nat) (ee : expreval) : option expreval :=
  match ee_addsub n ee with
  | None => None
  | Some ee =>
      if negb CONFIG_LIL_FULL then Some ee
      else
        ee_while n
          (fun ee =>
             (ee_head ee <? ee_len ee) && (ee_error ee =? 0) &&
             ((is_char (ee_cur ee) "<" && is_char (ee_next ee) "<") ||
              (is_char (ee_cur ee) ">" && is_char (ee_next ee) ">")))
          (fun ee =>
             let oival := ee_ival ee in
             let ee := ee_adv 1 ee in
             if is_char (ee_cur ee) "<" then
               ee_operand (ee_addsub n) (ee_adv 1 ee)
                 (fun ee =>
                    ee_set_ival (wrap (Z.shiftl oival (shift_count (ee_ival ee))))
                      ee)
             else if is_char (ee_cur ee) ">" then
               ee_operand (ee_addsub n) (ee_adv 1 ee)
                 (fun ee =>
                    ee_set_ival (wrap (Z.shiftr oival (shift_count (ee_ival ee))))
                      ee)
             else Some (Continue (ee_skip_spaces ee)))
          (ee_skip_spaces ee)
  end.

Definition ee_compare (n : nat) (ee : expreval) : option expreval :=
  match ee_shift n ee with
  | None => None
  | Some ee =>
      ee_while n
        (fun ee =>
           (ee_head ee <? ee_len ee) && (ee_error ee =? 0) &&
           ((is_char (ee_cur ee) "<" && negb (ee_invalidpunct (ee_next ee))) ||
            (is_char (ee_cur ee) ">" && negb (ee_invalidpunct (ee_next ee))) ||
            (is_char (ee_cur ee) "<" && is_char (ee_next ee) "=") ||
            (is_char (ee_cur ee) ">" && is_char (ee_next ee) "=")))
        (fun ee =>
           let oival := ee_ival ee in
           let op :=
             if is_char (ee_cur ee) "<" && negb (ee_invalidpunct (ee_next ee))
             then 1
             else if is_char (ee_cur ee) ">" &&
                     negb (ee_invalidpunct (ee_next ee))
             then 2
             else if is_char (ee_cur ee) "<" && is_char (ee_next ee) "="
             then 3
             else 4 in
           let ee := ee_adv (if 2 <? op then 2 else 1) ee in
           match op with
           | 1 =>
               ee_operand (ee_shift n) ee
                 (fun ee => ee_set_ival (bool_to_Z (oival <? ee_ival ee)%Z) ee)
           | 2 =>
               ee_operand (ee_shift n) ee
                 (fun ee => ee_set_ival (bool_to_Z (oival >? ee_ival ee)%Z) ee)
           | 3 =>
               ee_operand (ee_shift n) ee
                 (fun ee => ee_set_ival (bool_to_Z (oival <=? ee_ival ee)%Z) ee)
           | _ =>
               ee_operand (ee_shift n) ee
                 (fun ee => ee_set_ival (bool_to_Z (oival >=? ee_ival ee)%Z) ee)
           end)
        (ee_skip_spaces ee)
  end.

Definition ee_equals (n : nat) (ee : expreval) : option expreval :=
  match ee_compare n ee with
  | None => None
  | Some ee =>
      ee_while n
        (fun ee =>
           (ee_head ee <? ee_len ee) && (ee_error ee =? 0) &&
           ((is_char (ee_cur ee) "=" && is_char (ee_next ee) "=") ||
            (is_char (ee_cur ee) "!" && is_char (ee_next ee) "=")))
        (fun ee =>
           let oival := ee_ival ee in
           let op := if is_char (ee_cur ee) "=" then 1 else 2 in
           let ee := ee_adv 2 ee in
           match op with
           | 1 =>
               ee_operand (ee_compare n) ee
                 (fun ee => ee_set_ival (bool_to_Z (oival =? ee_ival ee)%Z) ee)
           | _ =>
               ee_operand (ee_compare n) ee
                 (fun ee =>
                    ee_set_ival (bool_to_Z (negb (oival =? ee_ival ee)%Z)) ee)
           end)
        (ee_skip_spaces ee)
  end.

Definition ee_bitand (n : nat) (ee : expreval) : option expreval :=
  match ee_equals n ee with
  | None => None
  | Some ee =>
      if negb CONFIG_LIL_FULL then Some ee
      else
        ee_while n
          (fun ee =>
             (ee_head ee <? ee_len ee) && (ee_error ee =? 0) &&
             (is_char (ee_cur ee) "&" && negb (ee_invalidpunct (ee_next ee))))
          (fun ee =>
             let oival := ee_ival ee in
             ee_operand (ee_equals n) (ee_adv 1 ee)
               (fun ee => ee_set_ival (Z.land oival (ee_ival ee)) ee))
          (ee_skip_spaces ee)
  end.

Definition ee_bitor (n : nat) (ee : expreval) : option expreval :=
  match ee_bitand n ee with
  | None => None
  | Some ee =>
      if negb CONFIG_LIL_FULL then Some ee
      else
        ee_while n
          (fun ee =>
             (ee_head ee <? ee_len ee) && (ee_error ee =? 0) &&
             (is_char (ee_cur ee) "|" && negb (ee_invalidpunct (ee_next ee))))
          (fun ee =>
             let oival := ee_ival ee in
             ee_operand (ee_bitand n) (ee_adv 1 ee)
               (fun ee => ee_set_ival (Z.lor oival (ee_ival ee)) ee))
          (ee_skip_spaces ee)
  end.

Definition ee_logand (n : nat) (ee : expreval) : option expreval :=
  match ee_bitor n ee with
  | None => None
  | Some ee =>
      ee_while n
        (fun ee =>
           (ee_head ee <? ee_len ee) && (ee_error ee =? 0) &&
           (is_char (ee_cur ee) "&" && is_char (ee_next ee) "&"))
        (fun ee =>
           let oival := ee_ival ee in
           ee_operand (ee_bitor n) (ee_adv 2 ee)
             (fun ee =>
                ee_set_ival
                  (bool_to_Z (negb (oival =? 0)%Z && negb (ee_ival ee =? 0)%Z))
                  ee))
        (ee_skip_spaces ee)
  end.

Definition ee_logor (n : nat) (ee : expreval) : option expreval :=
  match ee_logand n ee with
  | None => None
  | Some ee =>
      ee_while n
        (fun ee =>
           (ee_head ee <? ee_len ee) && (ee_error ee =? 0) &&
           (is_char (ee_cur ee) "|" && is_char (ee_next ee) "|"))
        (fun ee =>
           let oival := ee_ival ee in
           ee_operand (ee_logand n) (ee_adv 2 ee)
             (fun ee =>
                ee_set_ival
                  (bool_to_Z (negb (oival =? 0)%Z || negb (ee_ival ee =? 0)%Z))
                  ee))
        (ee_skip_spaces ee)
  end.

(** The part of [ee_expr] after the call of [ee_logor]. *)
Definition ee_expr_fix (ee : expreval) : expreval :=
  if ee_error ee =? EERR_INVALID_EXPRESSION
  then ee_set_ival 1 (ee_set_error EERR_NO_ERROR ee)
  else ee.

End ExprLevels.

Fixpoint ee_expr (FULL : bool) (fuel : nat) (ee : expreval)
    : option expreval :=
  match fuel with
  | 0 => None
  | S f =>
      match ee_logor FULL (ee_expr FULL f) f ee with
      | None => None
      | Some ee => Some (ee_expr_fix ee)
      end
  end.

(** The evaluator state that [lil_eval_expr] builds for the text [code]. *)
Definition ee_init (code : string) : expreval :=
  mk_ee code (String.length code) 0 0 0.

(** Fuel that the evaluation of [ee] cannot exhaust: a call one level of
    parentheses or one unary operator down has consumed a character. *)
Definition ee_fuel (ee : expreval) : nat :=
  S (S (Nat.max (ee_len ee) (String.length (ee_code ee)) - ee_head ee)).

(** ** Values and lists *)

Definition lil_value : Type := string.

(** [lil_to_string]: the byte buffer of a value, the empty string for [NULL] (and for a
    value of length 0).  C-string readers of the buffer stop at its first
    NUL ([cstr]). *)
Definition lil_to_string (val : option lil_value) : string :=
  match val with
  | Some s => s
  | None => EmptyString
  end.

(** [alloc_value(str)] copies the C string [str]; [NULL] gives the empty
    value. *)
Definition alloc_value (str : option string) : lil_value :=
  match str with
  | Some s => cstr s
  | None => EmptyString
  end.

Definition lil_alloc_string (str : option string) : option lil_value :=
  Some (alloc_value str).

Definition lil_alloc_integer (num : Z) : option lil_value :=
  Some (alloc_value (Some (string_of_ssize num))).

Definition lil_clone_value (src : option lil_value) : option lil_value := src.

Definition lil_append_char (val : lil_value) (ch : ascii) : lil_value :=
  val ++ String ch EmptyString.

Definition lil_append_string (val : lil_value) (s : string) : lil_value :=
  val ++ cstr s.

Definition lil_append_val (val : lil_value) (v : option lil_value)
    : lil_value :=
  match v with
  | Some s => val ++ s
  | None => val
  end.

Definition lil_list : Type := list lil_value.

Definition lil_list_get (l : lil_list) (index : nat) : option lil_value :=
  nth_error l index.

Fixpoint needs_escape_loop (str : string) : bool :=
  match str with
  | EmptyString => false
  | String c r =>
      if is_char c NUL then false
      else if ispunct c || isspace c then true
      else needs_escape_loop r
  end.

Definition needs_escape (str : string) : bool :=
  if is_char (code_at str 0) NUL then true else needs_escape_loop str.

Definition DQUOTE : ascii := "034"%char.
Definition SQUOTE : ascii := "039"%char.

(** The six bytes [}], double quote, backslash, [o], double quote, [{] that
    [lil_list_to_value] writes for an opening brace, and the same with [c]
    for a closing brace. *)
Definition brace_open_escape : string :=
  String "}" (String DQUOTE (String "\" (String "o" (String DQUOTE "{")))).
Definition brace_close_escape : string :=
  String "}" (String DQUOTE (String "\" (String "c" (String DQUOTE "{")))).

(** The inner [for] of [lil_list_to_value]: the bytes of an entry, each
    brace leaving the braced literal for a quoted escape. *)
Fixpoint escape_bytes (val : lil_value) (d : string) : lil_value :=
  match d with
  | EmptyString => val
  | String c r =>
      if is_char c "{" then
        escape_bytes (lil_append_string val brace_open_escape) r
      else if is_char c "}" then
        escape_bytes (lil_append_string val brace_close_escape) r
      else escape_bytes (lil_append_char val c) r
  end.

Fixpoint lil_list_to_value_loop (do_escape : bool) (i : nat)
    (l : lil_list) (val : lil_value) : lil_value :=
  match l with
  | nil => val
  | v :: rest =>
      let escape :=
        if do_escape then needs_escape (lil_to_string (Some v)) else false in
      let val := if i =? 0 then val else lil_append_char val " " in
      let val :=
        if escape then
          lil_append_char (escape_bytes (lil_append_char val "{") v) "}"
        else lil_append_val val (Some v) in
      lil_list_to_value_loop do_escape (S i) rest val
  end.

Definition lil_list_to_value (l : lil_list) (do_escape : bool) : lil_value :=
  lil_list_to_value_loop do_escape 0 l (alloc_value None).

Fixpoint lil_to_boolean_loop (s : string) (dots : bool) : bool :=
  match s with
  | EmptyString => false
  | String c r =>
      if is_char c NUL then false
      else if negb (is_char c "0") && negb (is_char c ".") then true
      else if is_char c "." then
        if dots then true else lil_to_boolean_loop r true
      else lil_to_boolean_loop r dots
  end.

Definition lil_to_boolean (val : option lil_value) : bool :=
  lil_to_boolean_loop (lil_to_string val) false.

(** ** The string map *)

Definition HASHMAP_CELLS : nat := 256.
Definition HASHMAP_CELLMASK : Z := 255.

(** DJB2 over an [unsigned long]. *)
Fixpoint hm_hash_loop (hash : Z) (key : string) : Z :=
  match key with
  | EmptyString => hash
  | String c r =>
      if is_char c NUL then hash
      else
        hm_hash_loop
          ((Z.shiftl hash 5 + hash + Z.of_nat (nat_of_ascii c)) mod 2 ^ 64)%Z r
  end.

Definition hm_hash (key : string) : Z := hm_hash_loop 5381 key.

(** A cell is its array of entries [(k, v)]; the map is the array of the
    256 cells, all empty after [hm_init]. *)
Definition hashcell (V : Type) : Type := list (string * V).
Definition hashmap (V : Type) : Type := gmap nat (hashcell V).

Definition hm_init {V : Type} : hashmap V := ∅.

Definition hm_cell {V : Type} (hm : hashmap V) (key : string) : nat :=
  Z.to_nat (Z.land (hm_hash key) HASHMAP_CELLMASK).

Fixpoint cell_put {V : Type} (cell : hashcell V) (key : string) (value : V)
    : hashcell V :=
  match cell with
  | nil => (cstr key, value) :: nil
  | (k, v) :: rest =>
      if streq key k then (k, value) :: rest
      else (k, v) :: cell_put rest key value
  end.

Fixpoint cell_get {V : Type} (cell : hashcell V) (key : string) : option V :=
  match cell with
  | nil => None
  | (k, v) :: rest => if streq key k then Some v else cell_get rest key
  end.

Definition hm_put {V : Type} (hm : hashmap V) (key : string) (value : V)
    : hashmap V :=
  let i := hm_cell hm key in
  <[ i := cell_put (default nil (hm !! i)) key value ]> hm.

Definition hm_get {V : Type} (hm : hashmap V) (key : string) : option V :=
  cell_get (default nil (hm !! hm_cell hm key)) key.

Definition hm_has {V : Type} (hm : hashmap V) (key : string) : bool :=
  match hm_get hm key with
  | Some _ => true
  | None => false
  end.

(** ** The data model *)

(** [enum lil_setvar] *)
Inductive lil_setvar : Type :=
| LIL_SETVAR_GLOBAL
| LIL_SETVAR_LOCAL
| LIL_SETVAR_LOCAL_NEW
| LIL_SETVAR_LOCAL_ONLY.

Definition lil_setvar_eqb (a b : lil_setvar) : bool :=
  match a, b with
  | LIL_SETVAR_GLOBAL, LIL_SETVAR_GLOBAL
  | LIL_SETVAR_LOCAL, LIL_SETVAR_LOCAL
  | LIL_SETVAR_LOCAL_NEW, LIL_SETVAR_LOCAL_NEW
  | LIL_SETVAR_LOCAL_ONLY, LIL_SETVAR_LOCAL_ONLY => true
  | _, _ => false
  end.

(** The anonymous [enum] of [lil->error]. *)
Inductive lil_error_t : Type :=
| ERROR_NOERROR
| ERROR_DEFAULT
| ERROR_FIXHEAD
| ERROR_UNBALANCED.

(** [lil->error != 0] *)
Definition is_error (e : lil_error_t) : bool :=
  match e with
  | ERROR_NOERROR => false
  | _ => true
  end.

(** A [lil_func_proc_t]: one of the procedures that [register_stdcmds]
    installs, or a procedure of the host, known by a number. *)
Inductive lil_func_proc_t : Type :=
| proc_fnc_dec
| proc_fnc_eval
| proc_fnc_expr
| proc_fnc_for
| proc_fnc_foreach
| proc_fnc_func
| proc_fnc_if
| proc_fnc_inc
| proc_fnc_local
| proc_fnc_return
| proc_fnc_set
| proc_fnc_strcmp
| proc_fnc_try
| proc_fnc_while
| proc_fnc_append
| proc_fnc_catcher
| proc_fnc_char
| proc_fnc_charat
| proc_fnc_codeat
| proc_fnc_concat
| proc_fnc_count
| proc_fnc_downeval
| proc_fnc_enveval
| proc_fnc_error
| proc_fnc_filter
| proc_fnc_index
| proc_fnc_indexof
| proc_fnc_jaileval
| proc_fnc_length
| proc_fnc_list
| proc_fnc_lmap
| proc_fnc_ltrim
| proc_fnc_quote
| proc_fnc_reflect
| proc_fnc_rename
| proc_fnc_repstr
| proc_fnc_result
| proc_fnc_rtrim
| proc_fnc_slice
| proc_fnc_split
| proc_fnc_streq
| proc_fnc_strpos
| proc_fnc_subst
| proc_fnc_substr
| proc_fnc_topeval
| proc_fnc_trim
| proc_fnc_unusedname
| proc_fnc_upeval
| proc_fnc_watch
| proc_host (id : nat).

(** A [struct lil_var *]: the address of the owning environment and the
    index in its [var] array. *)
Definition var_ptr : Type := (nat * nat)%type.

Record lil_var := mk_var {
  var_n : string;
  var_w : option string;
  var_env : nat;
  var_v : option lil_value
}.

Definition set_var_w (x : option string) (s : lil_var) : lil_var :=
  mk_var (var_n s) x (var_env s) (var_v s).

Definition set_var_v (x : option lil_value) (s : lil_var) : lil_var :=
  mk_var (var_n s) (var_w s) (var_env s) x.

Record lil_env := mk_env {
  env_parent : option nat;
  env_func : option nat;
  env_catcher_for : option lil_value;
  env_var : list lil_var;
  env_varmap : hashmap var_ptr;
  env_retval : option lil_value;
  env_retval_set : bool;
  env_breakrun : bool
}.

Definition set_env_func (x : option nat) (s : lil_env) : lil_env :=
  mk_env (env_parent s) x (env_catcher_for s) (env_var s) (env_varmap s) (env_retval s) (env_retval_set s) (env_breakrun s).

Definition set_env_catcher_for (x : option lil_value) (s : lil_env) : lil_env :=
  mk_env (env_parent s) (env_func s) x (env_var s) (env_varmap s) (env_retval s) (env_retval_set s) (env_breakrun s).

Definition set_env_var (x : list lil_var) (s : lil_env) : lil_env :=
  mk_env (env_parent s) (env_func s) (env_catcher_for s) x (env_varmap s) (env_retval s) (env_retval_set s) (env_breakrun s).

Definition set_env_varmap (x : hashmap var_ptr) (s : lil_env) : lil_env :=
  mk_env (env_parent s) (env_func s) (env_catcher_for s) (env_var s) x (env_retval s) (env_retval_set s) (env_breakrun s).

Definition set_env_retval (x : option lil_value) (s : lil_env) : lil_env :=
  mk_env (env_parent s) (env_func s) (env_catcher_for s) (env_var s) (env_varmap s) x (env_retval_set s) (env_breakrun s).

Definition set_env_retval_set (x : bool) (s : lil_env) : lil_env :=
  mk_env (env_parent s) (env_func s) (env_catcher_for s) (env_var s) (env_varmap s) (env_retval s) x (env_breakrun s).

Definition set_env_breakrun (x : bool) (s : lil_env) : lil_env :=
  mk_env (env_parent s) (env_func s) (env_catcher_for s) (env_var s) (env_varmap s) (env_retval s) (env_retval_set s) x.

Record lil_func := mk_func {
  func_name : string;
  func_code : option lil_value;
  func_argnames : option lil_list;
  func_proc : option lil_func_proc_t
}.

Definition set_func_name (x : string) (s : lil_func) : lil_func :=
  mk_func x (func_code s) (func_argnames s) (func_proc s).

Definition set_func_code (x : option lil_value) (s : lil_func) : lil_func :=
  mk_func (func_name s) x (func_argnames s) (func_proc s).

Definition set_func_argnames (x : option lil_list) (s : lil_func) : lil_func :=
  mk_func (func_name s) (func_code s) x (func_proc s).

Definition set_func_proc (x : option lil_func_proc_t) (s : lil_func) : lil_func :=
  mk_func (func_name s) (func_code s) (func_argnames s) x.

(** [calloc(1, sizeof(struct lil_env))] with [env->parent = parent] *)
Definition lil_alloc_env_init (parent : option nat) : lil_env :=
  mk_env parent None None nil hm_init None false false.

Definition null_var : lil_var := mk_var EmptyString None 0 None.
Definition null_func : lil_func := mk_func EmptyString None None None.

(** [CONFIG_SYS_PBSIZE], the size of the console print buffer, is a constant
    of the board configuration; the interpreter formats its error messages
    into a buffer of that size. *)
Class print_buffer := CONFIG_SYS_PBSIZE : nat.

(** [vsnprintf(msg, size, fmt, ...)], applied to the text that the format
    and its arguments spell: the buffer keeps at most [size - 1] bytes of it
    in front of the terminating NUL.  (The configurations declare a buffer
    of at least one byte; an array of size 0 would be left unwritten.) *)
Definition vsnprintf (size : nat) (text : string) : string :=
  substring 0 (size - 1) text.

Section Interpreter.

(** The host outside the interpreter: the console that [ctrlc] polls and
    the U-Boot environment behind [env_set] and [env_get]. *)
Context {W : Type}.
Context {PB : print_buffer}.
Variable ctrlc : W -> bool * W.
Variable env_set : string -> string -> W -> Z * W.
Variable env_get : string -> W -> option string.

(** [IS_ENABLED(CONFIG_LIL_FULL)] *)
Variable CONFIG_LIL_FULL : bool.

(** [struct lil]; [cmds] is the length of [lil_cmd].  [lil_envs] is the
    heap of the environments, [lil_next_env] the next address that
    [calloc] hands out, [lil_host] the state of the host. *)
Record lil := mk_lil {
  lil_code : option string;
  lil_rootcode : option string;
  lil_clen : nat;
  lil_head : nat;
  lil_ignoreeol : bool;
  lil_cmd : list lil_func;
  lil_syscmds : nat;
  lil_cmdmap : hashmap nat;
  lil_catcher : option string;
  lil_in_catcher : nat;
  lil_dollarprefix : string;
  lil_envp : nat;
  lil_rootenv : nat;
  lil_downenv : option nat;
  lil_empty : lil_value;
  lil_err : lil_error_t;
  lil_err_head : nat;
  lil_err_msg : option string;
  lil_parse_depth : nat;
  lil_envs : gmap nat lil_env;
  lil_next_env : nat;
  lil_host : W
}.

Definition set_lil_code (x : option string) (s : lil) : lil :=
  mk_lil x (lil_rootcode s) (lil_clen s) (lil_head s) (lil_ignoreeol s) (lil_cmd s) (lil_syscmds s) (lil_cmdmap s) (lil_catcher s) (lil_in_catcher s) (lil_dollarprefix s) (lil_envp s) (lil_rootenv s) (lil_downenv s) (lil_empty s) (lil_err s) (lil_err_head s) (lil_err_msg s) (lil_parse_depth s) (lil_envs s) (lil_next_env s) (lil_host s).

Definition set_lil_rootcode (x : option string) (s : lil) : lil :=
  mk_lil (lil_code s) x (lil_clen s) (lil_head s) (lil_ignoreeol s) (lil_cmd s) (lil_syscmds s) (lil_cmdmap s) (lil_catcher s) (lil_in_catcher s) (lil_dollarprefix s) (lil_envp s) (lil_rootenv s) (lil_downenv s) (lil_empty s) (lil_err s) (lil_err_head s) (lil_err_msg s) (lil_parse_depth s) (lil_envs s) (lil_next_env s) (lil_host s).

Definition set_lil_clen (x : nat) (s : lil) : lil :=
  mk_lil (lil_code s) (lil_rootcode s) x (lil_head s) (lil_ignoreeol s) (lil_cmd s) (lil_syscmds s) (lil_cmdmap s) (lil_catcher s) (lil_in_catcher s) (lil_dollarprefix s) (lil_envp s) (lil_rootenv s) (lil_downenv s) (lil_empty s) (lil_err s) (lil_err_head s) (lil_err_msg s) (lil_parse_depth s) (lil_envs s) (lil_next_env s) (lil_host s).

Definition set_lil_head (x : nat) (s : lil) : lil :=
  mk_lil (lil_code s) (lil_rootcode s) (lil_clen s) x (lil_ignoreeol s) (lil_cmd s) (lil_syscmds s) (lil_cmdmap s) (lil_catcher s) (lil_in_catcher s) (lil_dollarprefix s) (lil_envp s) (lil_rootenv s) (lil_downenv s) (lil_empty s) (lil_err s) (lil_err_head s) (lil_err_msg s) (lil_parse_depth s) (lil_envs s) (lil_next_env s) (lil_host s).

Definition set_lil_ignoreeol (x : bool) (s : lil) : lil :=
  mk_lil (lil_code s) (lil_rootcode s) (lil_clen s) (lil_head s) x (lil_cmd s) (lil_syscmds s) (lil_cmdmap s) (lil_catcher s) (lil_in_catcher s) (lil_dollarprefix s) (lil_envp s) (lil_rootenv s) (lil_downenv s) (lil_empty s) (lil_err s) (lil_err_head s) (lil_err_msg s) (lil_parse_depth s) (lil_envs s) (lil_next_env s) (lil_host s).

Definition set_lil_cmd (x : list lil_func) (s : lil) : lil :=
  mk_lil (lil_code s) (lil_rootcode s) (lil_clen s) (lil_head s) (lil_ignoreeol s) x (lil_syscmds s) (lil_cmdmap s) (lil_catcher s) (lil_in_catcher s) (lil_dollarprefix s) (lil_envp s) (lil_rootenv s) (lil_downenv s) (lil_empty s) (lil_err s) (lil_err_head s) (lil_err_msg s) (lil_parse_depth s) (lil_envs s) (lil_next_env s) (lil_host s).

Definition set_lil_syscmds (x : nat) (s : lil) : lil :=
  mk_lil (lil_code s) (lil_rootcode s) (lil_clen s) (lil_head s) (lil_ignoreeol s) (lil_cmd s) x (lil_cmdmap s) (lil_catcher s) (lil_in_catcher s) (lil_dollarprefix s) (lil_envp s) (lil_rootenv s) (lil_downenv s) (lil_empty s) (lil_err s) (lil_err_head s) (lil_err_msg s) (lil_parse_depth s) (lil_envs s) (lil_next_env s) (lil_host s).

Definition set_lil_cmdmap (x : hashmap nat) (s : lil) : lil :=
  mk_lil (lil_code s) (lil_rootcode s) (lil_clen s) (lil_head s) (lil_ignoreeol s) (lil_cmd s) (lil_syscmds s) x (lil_catcher s) (lil_in_catcher s) (lil_dollarprefix s) (lil_envp s) (lil_rootenv s) (lil_downenv s) (lil_empty s) (lil_err s) (lil_err_head s) (lil_err_msg s) (lil_parse_depth s) (lil_envs s) (lil_next_env s) (lil_host s).

Definition set_lil_catcher (x : option string) (s : lil) : lil :=
  mk_lil (lil_code s) (lil_rootcode s) (lil_clen s) (lil_head s) (lil_ignoreeol s) (lil_cmd s) (lil_syscmds s) (lil_cmdmap s) x (lil_in_catcher s) (lil_dollarprefix s) (lil_envp s) (lil_rootenv s) (lil_downenv s) (lil_empty s) (lil_err s) (lil_err_head s) (lil_err_msg s) (lil_parse_depth s) (lil_envs s) (lil_next_env s) (lil_host s).

Definition set_lil_in_catcher (x : nat) (s : lil) : lil :=
  mk_lil (lil_code s) (lil_rootcode s) (lil_clen s) (lil_head s) (lil_ignoreeol s) (lil_cmd s) (lil_syscmds s) (lil_cmdmap s) (lil_catcher s) x (lil_dollarprefix s) (lil_envp s) (lil_rootenv s) (lil_downenv s) (lil_empty s) (lil_err s) (lil_err_head s) (lil_err_msg s) (lil_parse_depth s) (lil_envs s) (lil_next_env s) (lil_host s).

Definition set_lil_dollarprefix (x : string) (s : lil) : lil :=
  mk_lil (lil_code s) (lil_rootcode s) (lil_clen s) (lil_head s) (lil_ignoreeol s) (lil_cmd s) (lil_syscmds s) (lil_cmdmap s) (lil_catcher s) (lil_in_catcher s) x (lil_envp s) (lil_rootenv s) (lil_downenv s) (lil_empty s) (lil_err s) (lil_err_head s) (lil_err_msg s) (lil_parse_depth s) (lil_envs s) (lil_next_env s) (lil_host s).

Definition set_lil_envp (x : nat) (s : lil) : lil :=
  mk_lil (lil_code s) (lil_rootcode s) (lil_clen s) (lil_head s) (lil_ignoreeol s) (lil_cmd s) (lil_syscmds s) (lil_cmdmap s) (lil_catcher s) (lil_in_catcher s) (lil_dollarprefix s) x (lil_rootenv s) (lil_downenv s) (lil_empty s) (lil_err s) (lil_err_head s) (lil_err_msg s) (lil_parse_depth s) (lil_envs s) (lil_next_env s) (lil_host s).

Definition set_lil_downenv (x : option nat) (s : lil) : lil :=
  mk_lil (lil_code s) (lil_rootcode s) (lil_clen s) (lil_head s) (lil_ignoreeol s) (lil_cmd s) (lil_syscmds s) (lil_cmdmap s) (lil_catcher s) (lil_in_catcher s) (lil_dollarprefix s) (lil_envp s) (lil_rootenv s) x (lil_empty s) (lil_err s) (lil_err_head s) (lil_err_msg s) (lil_parse_depth s) (lil_envs s) (lil_next_env s) (lil_host s).

Definition set_lil_err (x : lil_error_t) (s : lil) : lil :=
  mk_lil (lil_code s) (lil_rootcode s) (lil_clen s) (lil_head s) (lil_ignoreeol s) (lil_cmd s) (lil_syscmds s) (lil_cmdmap s) (lil_catcher s) (lil_in_catcher s) (lil_dollarprefix s) (lil_envp s) (lil_rootenv s) (lil_downenv s) (lil_empty s) x (lil_err_head s) (lil_err_msg s) (lil_parse_depth s) (lil_envs s) (lil_next_env s) (lil_host s).

Definition set_lil_err_head (x : nat) (s : lil) : lil :=
  mk_lil (lil_code s) (lil_rootcode s) (lil_clen s) (lil_head s) (lil_ignoreeol s) (lil_cmd s) (lil_syscmds s) (lil_cmdmap s) (lil_catcher s) (lil_in_catcher s) (lil_dollarprefix s) (lil_envp s) (lil_rootenv s) (lil_downenv s) (lil_empty s) (lil_err s) x (lil_err_msg s) (lil_parse_depth s) (lil_envs s) (lil_next_env s) (lil_host s).

Definition set_lil_err_msg (x : option string) (s : lil) : lil :=
  mk_lil (lil_code s) (lil_rootcode s) (lil_clen s) (lil_head s) (lil_ignoreeol s) (lil_cmd s) (lil_syscmds s) (lil_cmdmap s) (lil_catcher s) (lil_in_catcher s) (lil_dollarprefix s) (lil_envp s) (lil_rootenv s) (lil_downenv s) (lil_empty s) (lil_err s) (lil_err_head s) x (lil_parse_depth s) (lil_envs s) (lil_next_env s) (lil_host s).

Definition set_lil_parse_depth (x : nat) (s : lil) : lil :=
  mk_lil (lil_code s) (lil_rootcode s) (lil_clen s) (lil_head s) (lil_ignoreeol s) (lil_cmd s) (lil_syscmds s) (lil_cmdmap s) (lil_catcher s) (lil_in_catcher s) (lil_dollarprefix s) (lil_envp s) (lil_rootenv s) (lil_downenv s) (lil_empty s) (lil_err s) (lil_err_head s) (lil_err_msg s) x (lil_envs s) (lil_next_env s) (lil_host s).

Definition set_lil_envs (x : gmap nat lil_env) (s : lil) : lil :=
  mk_lil (lil_code s) (lil_rootcode s) (lil_clen s) (lil_head s) (lil_ignoreeol s) (lil_cmd s) (lil_syscmds s) (lil_cmdmap s) (lil_catcher s) (lil_in_catcher s) (lil_dollarprefix s) (lil_envp s) (lil_rootenv s) (lil_downenv s) (lil_empty s) (lil_err s) (lil_err_head s) (lil_err_msg s) (lil_parse_depth s) x (lil_next_env s) (lil_host s).

Definition set_lil_next_env (x : nat) (s : lil) : lil :=
  mk_lil (lil_code s) (lil_rootcode s) (lil_clen s) (lil_head s) (lil_ignoreeol s) (lil_cmd s) (lil_syscmds s) (lil_cmdmap s) (lil_catcher s) (lil_in_catcher s) (lil_dollarprefix s) (lil_envp s) (lil_rootenv s) (lil_downenv s) (lil_empty s) (lil_err s) (lil_err_head s) (lil_err_msg s) (lil_parse_depth s) (lil_envs s) x (lil_host s).

Definition set_lil_host (x : W) (s : lil) : lil :=
  mk_lil (lil_code s) (lil_rootcode s) (lil_clen s) (lil_head s) (lil_ignoreeol s) (lil_cmd s) (lil_syscmds s) (lil_cmdmap s) (lil_catcher s) (lil_in_catcher s) (lil_dollarprefix s) (lil_envp s) (lil_rootenv s) (lil_downenv s) (lil_empty s) (lil_err s) (lil_err_head s) (lil_err_msg s) (lil_parse_depth s) (lil_envs s) (lil_next_env s) x.

Definition set_lil_rootenv (x : nat) (s : lil) : lil :=
  mk_lil (lil_code s) (lil_rootcode s) (lil_clen s) (lil_head s) (lil_ignoreeol s) (lil_cmd s) (lil_syscmds s) (lil_cmdmap s) (lil_catcher s) (lil_in_catcher s) (lil_dollarprefix s) (lil_envp s) x (lil_downenv s) (lil_empty s) (lil_err s) (lil_err_head s) (lil_err_msg s) (lil_parse_depth s) (lil_envs s) (lil_next_env s) (lil_host s).

Definition set_lil_empty (x : lil_value) (s : lil) : lil :=
  mk_lil (lil_code s) (lil_rootcode s) (lil_clen s) (lil_head s) (lil_ignoreeol s) (lil_cmd s) (lil_syscmds s) (lil_cmdmap s) (lil_catcher s) (lil_in_catcher s) (lil_dollarprefix s) (lil_envp s) (lil_rootenv s) (lil_downenv s) x (lil_err s) (lil_err_head s) (lil_err_msg s) (lil_parse_depth s) (lil_envs s) (lil_next_env s) (lil_host s).

(** *** The cursor *)

(** [lil->code] as a buffer, and [lil->code[i]] *)
Definition lil_buf (st : lil) : string := lil_to_string (lil_code st).
Definition lil_at (st : lil) (i : nat) : ascii := code_at (lil_buf st) i.
Definition lil_cur (st : lil) : ascii := lil_at st (lil_head st).

(** [lil->head += k] *)
Definition lil_adv (k : nat) (st : lil) : lil :=
  set_lil_head (lil_head st + k) st.

(** *** The heap of environments, variables and commands *)

(** [*env], [*var] and [*cmd] for the pointers of the model. *)
Definition deref_env (st : lil) (a : nat) : lil_env :=
  default (lil_alloc_env_init None) (lil_envs st !! a).

Definition update_env (a : nat) (f : lil_env -> lil_env) (st : lil) : lil :=
  set_lil_envs (<[ a := f (deref_env st a) ]> (lil_envs st)) st.

Definition cur_env (st : lil) : lil_env := deref_env st (lil_envp st).

Definition deref_var (st : lil) (p : var_ptr) : lil_var :=
  nth (snd p) (env_var (deref_env st (fst p))) null_var.

Definition update_var (p : var_ptr) (f : lil_var -> lil_var) (st : lil)
    : lil :=
  update_env (fst p)
    (fun e =>
       set_env_var
         (<[ snd p := f (nth (snd p) (env_var e) null_var) ]> (env_var e)) e)
    st.

Definition deref_func (st : lil) (i : nat) : lil_func :=
  nth i (lil_cmd st) null_func.

Definition update_func (i : nat) (f : lil_func -> lil_func) (st : lil)
    : lil :=
  set_lil_cmd (<[ i := f (deref_func st i) ]> (lil_cmd st)) st.

Definition lil_alloc_env (parent : option nat) (st : lil) : nat * lil :=
  let a := lil_next_env st in
  (a, set_lil_next_env (S a)
        (set_lil_envs (<[ a := lil_alloc_env_init parent ]> (lil_envs st)) st)).

Definition lil_free_env (a : nat) (st : lil) : lil :=
  set_lil_envs (delete a (lil_envs st)) st.

Definition lil_find_local_var (st : lil) (env : nat) (name : string)
    : option var_ptr :=
  hm_get (env_varmap (deref_env st env)) name.

(** [lil_find_var] calls itself once, on [lil->rootenv], where the test
    [env == lil->rootenv] ends the recursion. *)
Fixpoint lil_find_var_rec (depth : nat) (st : lil) (env : nat)
    (name : string) : option var_ptr :=
  match lil_find_local_var st env name with
  | Some r => Some r
  | None =>
      if env =? lil_rootenv st then None
      else
        match depth with
        | 0 => None
        | S d => lil_find_var_rec d st (lil_rootenv st) name
        end
  end.

Definition lil_find_var (st : lil) (env : nat) (name : string)
    : option var_ptr :=
  lil_find_var_rec 1 st env name.

(** [strchr(s, c)] for a [c] other than NUL: the index of the first [c]. *)
Fixpoint strchr (s : string) (c : ascii) : option nat :=
  match s with
  | EmptyString => None
  | String a r =>
      if is_char a NUL then None
      else if is_char a c then Some 0
      else option_map S (strchr r c)
  end.

(** [s[i] = c] *)
Fixpoint poke (s : string) (i : nat) (c : ascii) : string :=
  match s, i with
  | EmptyString, _ => EmptyString
  | String _ r, 0 => String c r
  | String a r, S i' => String a (poke r i' c)
  end.

(** [lil_find_cmd] writes into the buffer of [name]; the result is the
    command together with the buffer as the function leaves it. *)
Definition lil_find_cmd (st : lil) (name : string) : option nat * string :=
  let dot := strchr name "." in
  let name :=
    match dot with
    | Some i => poke name i NUL
    | None => name
    end in
  let r := hm_get (lil_cmdmap st) name in
  let name :=
    match dot with
    | Some i => poke name i "."
    | None => name
    end in
  (r, name).

Definition add_func (name : string) (st : lil) : option nat * lil :=
  match fst (lil_find_cmd st name) with
  | Some cmd =>
      (Some cmd,
       update_func cmd
         (fun f =>
            set_func_proc None (set_func_code None (set_func_argnames None f)))
         st)
  | None =>
      let cmd := mk_func (cstr name) None None None in
      let p := length (lil_cmd st) in
      (Some p,
       set_lil_cmdmap (hm_put (lil_cmdmap st) name p)
         (set_lil_cmd (lil_cmd st ++ cmd :: nil) st))
  end.

Definition lil_register (name : string) (proc : lil_func_proc_t) (st : lil)
    : nat * lil :=
  match add_func name st with
  | (None, st) => (0, st)
  | (Some cmd, st) => (1, update_func cmd (set_func_proc (Some proc)) st)
  end.

Definition lil_get_var_or (st : lil) (name : string)
    (defvalue : option lil_value) : option lil_value :=
  let var := lil_find_var st (lil_envp st) name in
  let retval :=
    match var with
    | Some p => var_v (deref_var st p)
    | None => defvalue
    end in
  let rooted :=
    match var with
    | None => true
    | Some p => var_env (deref_var st p) =? lil_rootenv st
    end in
  if rooted then
    match lil_alloc_string (env_get (cstr name) (lil_host st)) with
    | Some newretval => Some newretval
    | None => retval
    end
  else retval.

Definition lil_get_var (st : lil) (name : string) : option lil_value :=
  lil_get_var_or st name (Some (lil_empty st)).

Definition lil_push_env (st : lil) : nat * lil :=
  let (env, st) := lil_alloc_env (Some (lil_envp st)) st in
  (env, set_lil_envp env st).

Definition lil_pop_env (st : lil) : lil :=
  match env_parent (cur_env st) with
  | Some next => set_lil_envp next (lil_free_env (lil_envp st) st)
  | None => st
  end.

(** *** The error slot *)

Definition lil_set_error (msg : option string) (st : lil) : lil :=
  if is_error (lil_err st) then st
  else
    set_lil_err_msg (Some (cstr (lil_to_string msg)))
      (set_lil_err_head 0 (set_lil_err ERROR_FIXHEAD st)).

Definition lil_set_error_at (pos : nat) (msg : option string) (st : lil)
    : lil :=
  if is_error (lil_err st) then st
  else
    set_lil_err_msg (Some (cstr (lil_to_string msg)))
      (set_lil_err_head pos (set_lil_err ERROR_DEFAULT st)).

(** [lil_set_errorf] and [lil_set_errorf_at] take the text that the format
    and its arguments spell; [vsnprintf] cuts it to the buffer
    [char msg[CONFIG_SYS_PBSIZE]]. *)
Definition lil_set_errorf (text : string) (st : lil) : lil :=
  let msg := vsnprintf CONFIG_SYS_PBSIZE text in
  lil_set_error (Some msg) st.

Definition lil_set_errorf_at (pos : nat) (text : string) (st : lil) : lil :=
  let msg := vsnprintf CONFIG_SYS_PBSIZE text in
  lil_set_error_at pos (Some msg) st.

Definition lil_set_error_unbalanced (expected : ascii) (st : lil) : lil :=
  if is_error (lil_err st) then st
  else
    set_lil_err ERROR_UNBALANCED
      (lil_set_errorf_at (lil_head st)
         ("expected " ++ String expected EmptyString) st).

(** [lil_error]: [None] for the return value 0, which leaves [*msg] and
    [*pos] alone, and the two outputs for the return value 1. *)
Definition lil_error (st : lil) : option (option string * nat) * lil :=
  if negb (is_error (lil_err st)) then (None, st)
  else
    (Some (lil_err_msg st, lil_err_head st), set_lil_err ERROR_NOERROR st).

(** *** Skipping blanks and comments *)

Definition islilspecial (ch : ascii) : bool :=
  is_char ch "$" || is_char ch "{" || is_char ch "}" || is_char ch "[" ||
  is_char ch "]" || is_char ch DQUOTE || is_char ch SQUOTE || is_char ch ";".

Definition eolchar (ch : ascii) : bool :=
  is_char ch "010" || is_char ch "013" || is_char ch ";".

Definition ateol (st : lil) : bool :=
  negb (lil_ignoreeol st) && eolchar (lil_cur st).

(** The inner loop of a [##] comment. *)
Fixpoint skip_multiline_comment (n : nat) (st : lil) : lil :=
  match n with
  | 0 => st
  | S n' =>
      if lil_head st <? lil_clen st then
        if is_char (lil_cur st) "#" &&
           is_char (lil_at st (lil_head st + 1)) "#" &&
           negb (is_char (lil_at st (lil_head st + 2)) "#")
        then lil_adv 2 st
        else skip_multiline_comment n' (lil_adv 1 st)
      else st
  end.

(** [while (lil->head < lil->clen && p(lil->code[lil->head])) lil->head++] *)
Fixpoint skip_while (p : ascii -> bool) (n : nat) (st : lil) : lil :=
  match n with
  | 0 => st
  | S n' =>
      if (lil_head st <? lil_clen st) && p (lil_cur st)
      then skip_while p n' (lil_adv 1 st)
      else st
  end.

Fixpoint lil_skip_spaces_loop (n : nat) (st : lil) : lil :=
  match n with
  | 0 => st
  | S n' =>
      if lil_head st <? lil_clen st then
        if is_char (lil_cur st) "#" then
          if is_char (lil_at st (lil_head st + 1)) "#" &&
             negb (is_char (lil_at st (lil_head st + 2)) "#")
          then
            let st := lil_adv 2 st in
            lil_skip_spaces_loop n'
              (skip_multiline_comment (lil_clen st - lil_head st) st)
          else
            lil_skip_spaces_loop n'
              (skip_while (fun c => negb (eolchar c))
                 (lil_clen st - lil_head st) st)
        else if is_char (lil_cur st) "\" &&
                eolchar (lil_at st (lil_head st + 1))
        then
          let st := lil_adv 1 st in
          lil_skip_spaces_loop n'
            (skip_while eolchar (lil_clen st - lil_head st) st)
        else if eolchar (lil_cur st) then
          if lil_ignoreeol st then lil_skip_spaces_loop n' (lil_adv 1 st)
          else st
        else if isspace (lil_cur st) then lil_skip_spaces_loop n' (lil_adv 1 st)
        else st
      else st
  end.

Definition lil_skip_spaces (st : lil) : lil :=
  lil_skip_spaces_loop (lil_clen st - lil_head st) st.

(** *** The parser and the evaluator *)

(** A computation on the interpreter: [None] when the fuel, or the counter
    of a loop, is exhausted. *)
Definition M (A : Type) : Type := lil -> option (A * lil).

(** A procedure of the host, or one of the built-in commands that is not
    transcribed below; it may call [lil_parse] through its first argument. *)
Variable extern_proc :
  (string -> nat -> bool -> M (option lil_value)) ->
  lil_func_proc_t -> list lil_value -> M (option lil_value).

Definition MAX_CATCHER_DEPTH : nat := 128 * 128.

Section Evaluator.

(** [lil_parse], one unit of fuel below *)
Variable parse_rec : string -> nat -> bool -> M (option lil_value).

Definition lil_parse_value (val : option lil_value) (funclevel : bool)
    : M (option lil_value) :=
  fun st =>
    match val with
    | None => Some (Some (alloc_value None), st)
    | Some v =>
        if String.length v =? 0 then Some (Some (alloc_value None), st)
        else parse_rec v (String.length v) funclevel st
    end.

(** The [while] loops of [get_bracketpart] and of the braced literal in
    [next_word]: copy up to the delimiter that balances [cnt]. *)
Fixpoint balanced_scan (op cl : ascii) (n cnt : nat) (val : lil_value)
    (st : lil) : nat * lil_value * lil :=
  match n with
  | 0 => (cnt, val, st)
  | S n' =>
      if lil_head st <? lil_clen st then
        if is_char (lil_cur st) op then
          balanced_scan op cl n' (cnt + 1) (lil_append_char val op)
            (lil_adv 1 st)
        else if is_char (lil_cur st) cl then
          let st := lil_adv 1 st in
          let cnt := cnt - 1 in
          if cnt =? 0 then (cnt, val, st)
          else balanced_scan op cl n' cnt (lil_append_char val cl) st
        else
          balanced_scan op cl n' cnt (lil_append_char val (lil_cur st))
            (lil_adv 1 st)
      else (cnt, val, st)
  end.

Definition get_bracketpart : M (option lil_value) :=
  fun st =>
    let save_eol := lil_ignoreeol st in
    let st := set_lil_ignoreeol false st in
    let st := lil_adv 1 st in
    let '(cnt, cmd, st) :=
      balanced_scan "[" "]" (lil_clen st - lil_head st) 1 (alloc_value None)
        st in
    let* (val, st) :=
      if negb (cnt =? 0) then Some (None, lil_set_error_unbalanced "]" st)
      else lil_parse_value (Some cmd) false st in
    Some (val, set_lil_ignoreeol save_eol st).

Definition get_dollarpart (next_word_rec : M lil_value)
    : M (option lil_value) :=
  fun st =>
    let st := lil_adv 1 st in
    let* (name, st) := next_word_rec st in
    let tmp := alloc_value (Some (lil_dollarprefix st)) in
    let tmp := lil_append_val tmp (Some name) in
    lil_parse_value (Some tmp) false st.

(** The [switch] on the character after a backslash. *)
Definition unescape (c : ascii) : ascii :=
  if is_char c "b" then "008"%char
  else if is_char c "t" then "009"%char
  else if is_char c "n" then "010"%char
  else if is_char c "v" then "011"%char
  else if is_char c "f" then "012"%char
  else if is_char c "r" then "013"%char
  else if is_char c "0" then NUL
  else if is_char c "a" then "007"%char
  else if is_char c "c" then "}"%char
  else if is_char c "o" then "{"%char
  else c.

(** The [while] loop of a quoted string: the flag [matched] and the value. *)
Fixpoint quoted_scan (dollar bracket : M (option lil_value)) (sc : ascii)
    (n : nat) (val : lil_value) : M (bool * lil_value) :=
  fun st =>
    match n with
    | 0 => if lil_head st <? lil_clen st then None else Some ((false, val), st)
    | S n' =>
        if lil_head st <? lil_clen st then
          if is_char (lil_cur st) "[" || is_char (lil_cur st) "$" then
            let* (tmp, st) :=
              if is_char (lil_cur st) "$" then dollar st else bracket st in
            let val := lil_append_val val tmp in
            let st := set_lil_head (lil_head st - 1) st in
            quoted_scan dollar bracket sc n' val (lil_adv 1 st)
          else if is_char (lil_cur st) "\" then
            let st := lil_adv 1 st in
            let val := lil_append_char val (unescape (lil_cur st)) in
            quoted_scan dollar bracket sc n' val (lil_adv 1 st)
          else if is_char (lil_cur st) sc then
            Some ((true, val), lil_adv 1 st)
          else
            quoted_scan dollar bracket sc n' (lil_append_char val (lil_cur st))
              (lil_adv 1 st)
        else Some ((false, val), st)
    end.

(** [alloc_value_len(lil->code + start, len)] *)
Definition alloc_value_len (st : lil) (start len : nat) : lil_value :=
  substring start len (lil_buf st).

(** [next_word]; [n] bounds the chain of calls through [get_dollarpart],
    each of which has consumed a [$]. *)
Fixpoint next_word_n (n : nat) : M lil_value :=
  fun st =>
    match n with
    | 0 => None
    | S n' =>
        let st := lil_skip_spaces st in
        let* (val, st) :=
          if is_char (lil_cur st) "$" then
            get_dollarpart (next_word_n n') st
          else if is_char (lil_cur st) "{" then
            let st := lil_adv 1 st in
            let '(cnt, val, st) :=
              balanced_scan "{" "}" (lil_clen st - lil_head st) 1
                (alloc_value None) st in
            if negb (cnt =? 0)
            then Some (None, lil_set_error_unbalanced "}" st)
            else Some (Some val, st)
          else if is_char (lil_cur st) "[" then get_bracketpart st
          else if is_char (lil_cur st) DQUOTE || is_char (lil_cur st) SQUOTE
          then
            let sc := lil_cur st in
            let st := lil_adv 1 st in
            let* (mv, st) :=
              quoted_scan (get_dollarpart (next_word_n n')) get_bracketpart sc
                (lil_clen st - lil_head st) (alloc_value None) st in
            if negb (fst mv)
            then Some (None, lil_set_error_unbalanced sc st)
            else Some (Some (snd mv), st)
          else
            let start := lil_head st in
            let st :=
              skip_while (fun c => negb (isspace c) && negb (islilspecial c))
                (lil_clen st - lil_head st) st in
            Some (Some (alloc_value_len st start (lil_head st - start)), st) in
        Some (match val with
              | Some v => v
              | None => alloc_value None
              end, st)
    end.

Definition next_word : M lil_value :=
  fun st => next_word_n (S (String.length (lil_buf st) - lil_head st)) st.

(** The [do ... while] of [substitute] that concatenates the parts of one
    word; [None] for the [return NULL] of a parser that cannot proceed. *)
Fixpoint substitute_word (n : nat) (w : lil_value) : M (option lil_value) :=
  fun st =>
    match n with
    | 0 => None
    | S n' =>
        let head := lil_head st in
        let* (wp, st) := next_word st in
        if head =? lil_head st then Some (None, st)
        else
          let w := lil_append_val w (Some wp) in
          if (lil_head st <? lil_clen st) && negb (eolchar (lil_cur st)) &&
             negb (isspace (lil_cur st)) && negb (is_error (lil_err st))
          then substitute_word n' w st
          else Some (Some w, st)
    end.

Fixpoint substitute_loop (n : nat) (words : lil_list)
    : M (option lil_list) :=
  fun st =>
    if (lil_head st <? lil_clen st) && negb (ateol st) &&
       negb (is_error (lil_err st))
    then
      match n with
      | 0 => None
      | S n' =>
          let* (w, st) :=
            substitute_word (lil_clen st - lil_head st) (alloc_value None) st in
          match w with
          | None => Some (None, st)
          | Some w =>
              let st := lil_skip_spaces st in
              substitute_loop n' (words ++ w :: nil)%list st
          end
      end
    else Some (Some words, st).

Definition substitute : M (option lil_list) :=
  fun st =>
    let st := lil_skip_spaces st in
    substitute_loop (lil_clen st - lil_head st) nil st.

Definition lil_subst_to_list (code : option lil_value) : M lil_list :=
  fun st =>
    let save_code := lil_code st in
    let save_clen := lil_clen st in
    let save_head := lil_head st in
    let save_igeol := lil_ignoreeol st in
    let st := set_lil_code (Some (lil_to_string code)) st in
    let st := set_lil_clen (String.length (lil_to_string code)) st in
    let st := set_lil_head 0 st in
    let st := set_lil_ignoreeol true st in
    let* (words, st) := substitute st in
    let words :=
      match words with
      | Some ws => ws
      | None => nil
      end in
    let st := set_lil_code save_code st in
    let st := set_lil_clen save_clen st in
    let st := set_lil_head save_head st in
    let st := set_lil_ignoreeol save_igeol st in
    Some (words, st).

Definition lil_subst_to_value (code : option lil_value) : M lil_value :=
  fun st =>
    let* (words, st) := lil_subst_to_list code st in
    Some (lil_list_to_value words false, st).

Definition lil_set_var (name : string) (val : option lil_value)
    (local : lil_setvar) : M (option var_ptr) :=
  fun st =>
    let env :=
      if lil_setvar_eqb local LIL_SETVAR_GLOBAL then lil_rootenv st
      else lil_envp st in
    (* the tail of the function, which creates the variable in [env] *)
    let create (st : lil) : option (option var_ptr * lil) :=
      let p := (env, length (env_var (deref_env st env))) in
      let nvar := mk_var (cstr name) None env (lil_clone_value val) in
      Some (Some p,
            update_env env
              (fun e =>
                 set_env_varmap (hm_put (env_varmap e) name p)
                   (set_env_var (env_var e ++ nvar :: nil)%list e))
              st) in
    if is_char (code_at name 0) NUL then Some (None, st)
    else if negb (lil_setvar_eqb local LIL_SETVAR_LOCAL_NEW) then
      let var := lil_find_var st env name in
      let var :=
        match var with
        | Some p =>
            if lil_setvar_eqb local LIL_SETVAR_LOCAL_ONLY &&
               (var_env (deref_var st p) =? lil_rootenv st) &&
               negb (var_env (deref_var st p) =? env)
            then None
            else Some p
        | None => None
        end in
      let rooted :=
        match var with
        | None => env =? lil_rootenv st
        | Some p => var_env (deref_var st p) =? lil_rootenv st
        end in
      let '(rc, st) :=
        if rooted then
          let (rc, w) :=
            env_set (cstr name) (cstr (lil_to_string val)) (lil_host st) in
          (rc, set_lil_host w st)
        else (0%Z, st) in
      if negb (rc =? 0)%Z then Some (None, st)
      else
        match var with
        | Some p =>
            let st := update_var p (set_var_v (lil_clone_value val)) st in
            match var_w (deref_var st p) with
            | Some w =>
                let save_env := lil_envp st in
                let st := set_lil_envp (var_env (deref_var st p)) st in
                let* (_, st) := parse_rec w 0 true st in
                Some (Some p, set_lil_envp save_env st)
            | None => Some (Some p, st)
            end
        | None => create st
        end
    else create st.

Definition unknown_cmd (words : lil_list) : M (option lil_value) :=
  fun st =>
    let w0 := nth 0 words EmptyString in
    match (if CONFIG_LIL_FULL then lil_catcher st else None) with
    | Some catcher =>
        if lil_in_catcher st <? MAX_CATCHER_DEPTH then
          let st := set_lil_in_catcher (lil_in_catcher st + 1) st in
          let (_, st) := lil_push_env st in
          let st :=
            update_env (lil_envp st) (set_env_catcher_for (Some w0)) st in
          let args := lil_list_to_value words true in
          let* (_, st) :=
            lil_set_var "args" (Some args) LIL_SETVAR_LOCAL_NEW st in
          let* (r, st) := parse_rec catcher 0 true st in
          let st := lil_pop_env st in
          Some (r, set_lil_in_catcher (lil_in_catcher st - 1) st)
        else
          Some (None,
                lil_set_errorf_at (lil_head st)
                  ("catcher limit reached while trying to call unknown function "
                   ++ cstr w0) st)
    | None =>
        Some (None,
              lil_set_errorf_at (lil_head st) ("unknown function " ++ cstr w0)
                st)
    end.

(** *** Built-in commands *)

Definition lil_arg (argv : list lil_value) (index : nat)
    : option lil_value :=
  nth_error argv index.

(** The loop that [fnc_quote], [fnc_eval] and [fnc_expr] share: the
    arguments joined by single spaces. *)
Fixpoint join_args (i : nat) (argv : list lil_value) (r : lil_value)
    : lil_value :=
  match argv with
  | nil => r
  | a :: rest =>
      let r := if i =? 0 then r else lil_append_char r " " in
      join_args (S i) rest (lil_append_val r (Some a))
  end.

(** [sprintf(buff, "%u", n)] *)
Definition string_of_unsigned (n : nat) : string :=
  NilZero.string_of_uint (Nat.to_uint n).

(** [sprintf] with ["%09u"] *)
Definition string_of_unsigned9 (n : nat) : string :=
  let s := string_of_unsigned n in
  substring 0 (9 - String.length s) "000000000" ++ s.

Fixpoint lil_unused_name_loop (n i : nat) (part : string) (st : lil)
    : option (option lil_value) :=
  match n with
  | 0 => None
  | S n' =>
      let name :=
        "!!un!" ++ cstr part ++ "!" ++ string_of_unsigned9 i ++ "!nu!!" in
      match fst (lil_find_cmd st name) with
      | Some _ => lil_unused_name_loop n' (S i) part st
      | None =>
          match lil_find_var st (lil_envp st) name with
          | Some _ => lil_unused_name_loop n' (S i) part st
          | None => Some (lil_alloc_string (Some name))
          end
      end
  end.

(** The loop ends at the first unused name; there are at most as many used
    ones as commands and visible variables. *)
Definition lil_unused_name (part : string) : M (option lil_value) :=
  fun st =>
    let n :=
      S (length (lil_cmd st) + length (env_var (cur_env st)) +
         length (env_var (deref_env st (lil_rootenv st)))) in
    let* r := lil_unused_name_loop n 0 part st in
    Some (r, st).

Definition lil_eval_expr_result (code : lil_value) (st : lil)
    : option (option lil_value * lil) :=
  if is_char (code_at code 0) NUL then Some (lil_alloc_integer 0, st)
  else
    let ee := ee_init code in
    let* ee := ee_expr CONFIG_LIL_FULL (ee_fuel ee) ee in
    if negb (ee_error ee =? 0) then
      if ee_error ee =? EERR_DIVISION_BY_ZERO then
        Some (None, lil_set_error (Some "division by zero in expression") st)
      else if ee_error ee =? EERR_SYNTAX_ERROR then
        Some (None, lil_set_error (Some "expression syntax error") st)
      else Some (None, st)
    else Some (lil_alloc_integer (ee_ival ee), st).

Definition lil_eval_expr (code : option lil_value) : M (option lil_value) :=
  fun st =>
    let (c, w) := ctrlc (lil_host st) in
    let st := set_lil_host w st in
    if c then Some (None, lil_set_error (Some "interrupted") st)
    else
      let* (code, st) := lil_subst_to_value code st in
      if is_error (lil_err st) then Some (None, st)
      else lil_eval_expr_result code st.

Definition fnc_func (argv : list lil_value) : M (option lil_value) :=
  fun st =>
    let argc := length argv in
    let define (name : string) (fargs : lil_list) (code : option lil_value)
        (st : lil) : lil :=
      match add_func name st with
      | (Some cmd, st) =>
          update_func cmd
            (fun f =>
               set_func_code (lil_clone_value code)
                 (set_func_argnames (Some fargs) f))
            st
      | (None, st) => st
      end in
    if argc <? 1 then Some (None, st)
    else if 3 <=? argc then
      let name := lil_clone_value (lil_arg argv 0) in
      let* (fargs, st) := lil_subst_to_list (lil_arg argv 1) st in
      Some (name, define (lil_to_string (lil_arg argv 0)) fargs
                    (lil_arg argv 2) st)
    else
      let* (name, st) := lil_unused_name "anonymous-function" st in
      if argc <? 2 then
        let tmp := lil_alloc_string (Some "args") in
        let* (fargs, st) := lil_subst_to_list tmp st in
        Some (name, define (lil_to_string name) fargs (lil_arg argv 0) st)
      else
        let* (fargs, st) := lil_subst_to_list (lil_arg argv 0) st in
        Some (name, define (lil_to_string name) fargs (lil_arg argv 1) st).

Definition fnc_quote (argv : list lil_value) : M (option lil_value) :=
  fun st =>
    if length argv <? 1 then Some (None, st)
    else Some (Some (join_args 0 argv (alloc_value None)), st).

Fixpoint fnc_set_loop (access : lil_setvar) (argv : list lil_value)
    (var : option var_ptr) : M (option lil_value) :=
  fun st =>
    match argv with
    | nil =>
        Some (match var with
              | Some p => lil_clone_value (var_v (deref_var st p))
              | None => None
              end, st)
    | a :: nil =>
        Some (lil_clone_value (lil_get_var st (lil_to_string (Some a))), st)
    | a :: b :: rest =>
        let* (var, st) :=
          lil_set_var (lil_to_string (Some a)) (Some b) access st in
        fnc_set_loop access rest var st
    end.

Definition fnc_set (argv : list lil_value) : M (option lil_value) :=
  fun st =>
    match argv with
    | nil => Some (None, st)
    | a :: rest =>
        if streq (lil_to_string (Some a)) "global"
        then fnc_set_loop LIL_SETVAR_GLOBAL rest None st
        else fnc_set_loop LIL_SETVAR_LOCAL argv None st
    end.

Fixpoint fnc_local (argv : list lil_value) : M (option lil_value) :=
  fun st =>
    match argv with
    | nil => Some (None, st)
    | a :: rest =>
        let varname := lil_to_string (Some a) in
        let* (_, st) :=
          match lil_find_local_var st (lil_envp st) varname with
          | None =>
              lil_set_var varname (Some (lil_empty st)) LIL_SETVAR_LOCAL_NEW st
          | Some p => Some (Some p, st)
          end in
        fnc_local rest st
    end.

Definition fnc_eval (argv : list lil_value) : M (option lil_value) :=
  fun st =>
    let argc := length argv in
    if argc =? 1 then lil_parse_value (lil_arg argv 0) false st
    else if 1 <? argc then
      lil_parse_value (Some (join_args 0 argv (alloc_value None))) false st
    else Some (None, st).

Definition fnc_count (argv : list lil_value) : M (option lil_value) :=
  fun st =>
    if length argv =? 0 then Some (Some (alloc_value (Some "0")), st)
    else
      let* (list, st) := lil_subst_to_list (lil_arg argv 0) st in
      Some (Some (alloc_value (Some (string_of_unsigned (length list)))), st).

Definition fnc_list (argv : list lil_value) : M (option lil_value) :=
  fun st => Some (Some (lil_list_to_value argv true), st).

Definition fnc_subst (argv : list lil_value) : M (option lil_value) :=
  fun st =>
    if length argv <? 1 then Some (None, st)
    else
      let* (r, st) := lil_subst_to_value (lil_arg argv 0) st in
      Some (Some r, st).

Definition fnc_return (argv : list lil_value) : M (option lil_value) :=
  fun st =>
    let argc := length argv in
    let st := update_env (lil_envp st) (set_env_breakrun true) st in
    let st :=
      update_env (lil_envp st)
        (set_env_retval
           (if argc <? 1 then None else lil_clone_value (lil_arg argv 0)))
        st in
    let st := update_env (lil_envp st) (set_env_retval_set true) st in
    Some (if argc <? 1 then None else lil_clone_value (lil_arg argv 0), st).

Definition fnc_result (argv : list lil_value) : M (option lil_value) :=
  fun st =>
    let st :=
      if 0 <? length argv then
        update_env (lil_envp st) (set_env_retval_set true)
          (update_env (lil_envp st)
             (set_env_retval (lil_clone_value (lil_arg argv 0))) st)
      else st in
    Some (if env_retval_set (cur_env st)
          then lil_clone_value (env_retval (cur_env st))
          else None, st).

Definition fnc_expr (argv : list lil_value) : M (option lil_value) :=
  fun st =>
    let argc := length argv in
    if argc =? 1 then lil_eval_expr (lil_arg argv 0) st
    else if 1 <? argc then
      lil_eval_expr (Some (join_args 0 argv (alloc_value None))) st
    else Some (None, st).

Definition fnc_if (argv : list lil_value) : M (option lil_value) :=
  fun st =>
    let argc := length argv in
    if argc <? 1 then Some (None, st)
    else
      let isnot := streq (lil_to_string (lil_arg argv 0)) "not" in
      let base := if isnot then 1 else 0 in
      if argc <? base + 2 then Some (None, st)
      else
        let* (val, st) := lil_eval_expr (lil_arg argv base) st in
        match val with
        | None => Some (None, st)
        | Some _ =>
            if is_error (lil_err st) then Some (None, st)
            else
              let v := lil_to_boolean val in
              let v := if isnot then negb v else v in
              if v then lil_parse_value (lil_arg argv (base + 1)) false st
              else if base + 2 <? argc then
                lil_parse_value (lil_arg argv (base + 2)) false st
              else Some (None, st)
        end.

Definition fnc_try (argv : list lil_value) : M (option lil_value) :=
  fun st =>
    let argc := length argv in
    if argc <? 1 then Some (None, st)
    else if is_error (lil_err st) then Some (None, st)
    else
      let* (r, st) := lil_parse_value (lil_arg argv 0) false st in
      if is_error (lil_err st) then
        let st := set_lil_err ERROR_NOERROR st in
        if 1 <? argc then lil_parse_value (lil_arg argv 1) false st
        else Some (None, st)
      else Some (r, st).

Definition fnc_error (argv : list lil_value) : M (option lil_value) :=
  fun st =>
    Some (None,
          lil_set_error
            (if 0 <? length argv then Some (lil_to_string (lil_arg argv 0))
             else None) st).

Definition fnc_catcher (argv : list lil_value) : M (option lil_value) :=
  fun st =>
    if length argv =? 0 then Some (lil_alloc_string (lil_catcher st), st)
    else
      let catcher := lil_to_string (lil_arg argv 0) in
      Some (None,
            set_lil_catcher
              (if is_char (code_at catcher 0) NUL then None
               else Some (cstr catcher)) st).

Fixpoint fnc_watch_loop (wcode : string) (n i : nat) (argv : list lil_value)
    : M unit :=
  fun st =>
    match n with
    | 0 => Some (tt, st)
    | S n' =>
        let vname := lil_to_string (lil_arg argv i) in
        if is_char (code_at vname 0) NUL
        then fnc_watch_loop wcode n' (S i) argv st
        else
          let* (v, st) :=
            match lil_find_var st (lil_envp st) vname with
            | Some p => Some (Some p, st)
            | None => lil_set_var vname None LIL_SETVAR_LOCAL_NEW st
            end in
          let st :=
            match v with
            | Some p =>
                update_var p
                  (set_var_w
                     (if is_char (code_at wcode 0) NUL then None
                      else Some (cstr wcode))) st
            | None => st
            end in
          fnc_watch_loop wcode n' (S i) argv st
    end.

Definition fnc_watch (argv : list lil_value) : M (option lil_value) :=
  fun st =>
    let argc := length argv in
    if argc <? 2 then Some (None, st)
    else
      let wcode := lil_to_string (lil_arg argv (argc - 1)) in
      let* (_, st) := fnc_watch_loop wcode (argc - 1) 0 argv st in
      Some (None, st).

(** [cmd->proc(lil, argc, argv)] *)
Definition call_proc (proc : lil_func_proc_t) (argv : list lil_value)
    : M (option lil_value) :=
  match proc with
  | proc_fnc_func => fnc_func argv
  | proc_fnc_quote => fnc_quote argv
  | proc_fnc_set => fnc_set argv
  | proc_fnc_local => fnc_local argv
  | proc_fnc_eval => fnc_eval argv
  | proc_fnc_count => fnc_count argv
  | proc_fnc_list => fnc_list argv
  | proc_fnc_subst => fnc_subst argv
  | proc_fnc_return => fnc_return argv
  | proc_fnc_result => fnc_result argv
  | proc_fnc_expr => fnc_expr argv
  | proc_fnc_if => fnc_if argv
  | proc_fnc_try => fnc_try argv
  | proc_fnc_error => fnc_error argv
  | proc_fnc_catcher => fnc_catcher argv
  | proc_fnc_watch => fnc_watch argv
  | _ => extern_proc parse_rec proc argv
  end.

(** *** Command dispatch *)

(** The [for] loop of [run_cmd] that binds the declared names one by one. *)
Fixpoint run_cmd_bind_loop (argnames : lil_list) (i : nat)
    (words : lil_list) : M unit :=
  fun st =>
    match argnames with
    | nil => Some (tt, st)
    | a :: rest =>
        let val :=
          if i <? length words - 1 then lil_list_get words (i + 1)
          else Some (lil_empty st) in
        let* (_, st) :=
          lil_set_var (lil_to_string (Some a)) val LIL_SETVAR_LOCAL_NEW st in
        run_cmd_bind_loop rest (S i) words st
    end.

(** The [if ... else] of [run_cmd] that fills the frame of a script
    function. *)
Definition run_cmd_bind (cmd : nat) (words : lil_list) : M unit :=
  fun st =>
    let argnames := default nil (func_argnames (deref_func st cmd)) in
    if (length argnames =? 1) &&
       streq (lil_to_string (lil_list_get argnames 0)) "args"
    then
      let args := lil_list_to_value words true in
      let* (_, st) :=
        lil_set_var "args" (Some args) LIL_SETVAR_LOCAL_NEW st in
      Some (tt, st)
    else run_cmd_bind_loop argnames 0 words st.

Definition run_cmd (cmd : nat) (words : lil_list) : M (option lil_value) :=
  fun st =>
    match func_proc (deref_func st cmd) with
    | Some proc =>
        let shead := lil_head st in
        let* (r, st) := call_proc proc (tl words) st in
        let st :=
          match lil_err st with
          | ERROR_FIXHEAD =>
              set_lil_err_head shead (set_lil_err ERROR_DEFAULT st)
          | _ => st
          end in
        Some (r, st)
    | None =>
        let (_, st) := lil_push_env st in
        let st := update_env (lil_envp st) (set_env_func (Some cmd)) st in
        let* (_, st) := run_cmd_bind cmd words st in
        let* (r, st) :=
          lil_parse_value (func_code (deref_func st cmd)) true st in
        Some (r, lil_pop_env st)
    end.

(** [while (ateol(lil)) lil->head++] *)
Fixpoint skip_eols (n : nat) (st : lil) : lil :=
  match n with
  | 0 => st
  | S n' => if ateol st then skip_eols n' (lil_adv 1 st) else st
  end.

(** The outcome of the [while] loop of [lil_parse]: the value in [val] at
    the label [cleanup]. *)
Fixpoint lil_parse_loop (n : nat) (val : option lil_value)
    : M (option lil_value) :=
  fun st =>
    if (lil_head st <? lil_clen st) && negb (is_error (lil_err st)) then
      match n with
      | 0 => None
      | S n' =>
          let (c, w) := ctrlc (lil_host st) in
          let st := set_lil_host w st in
          if c then
            Some (None, lil_set_error_at (lil_head st) (Some "interrupted") st)
          else
            let* (words, st) := substitute st in
            match words with
            | None => Some (None, st)
            | Some words =>
                if is_error (lil_err st) then Some (None, st)
                else
                  let next (val : option lil_value) (st : lil) :=
                    let st := lil_skip_spaces st in
                    let st :=
                      skip_eols (String.length (lil_buf st) - lil_head st) st in
                    let st := lil_skip_spaces st in
                    lil_parse_loop n' val st in
                  match words with
                  | nil => next None st
                  | w0 :: rest =>
                      let (cmd, name) :=
                        lil_find_cmd st (lil_to_string (Some w0)) in
                      let words := name :: rest in
                      match cmd with
                      | None =>
                          if negb (String.length w0 =? 0) then
                            let* (val, st) := unknown_cmd words st in
                            match val with
                            | None => Some (None, st)
                            | Some _ =>
                                if env_breakrun (cur_env st)
                                then Some (val, st)
                                else next val st
                            end
                          else
                            if env_breakrun (cur_env st) then Some (None, st)
                            else next None st
                      | Some cmd =>
                          let* (val, st) := run_cmd cmd words st in
                          if env_breakrun (cur_env st) then Some (val, st)
                          else next val st
                      end
                  end
            end
      end
    else Some (val, st).

(** [lil_parse] from the label [cleanup] on. *)
Definition lil_parse_cleanup (save_code : option string)
    (save_clen save_head : nat) (funclevel : bool) (val : option lil_value)
    (st : lil) : option lil_value * lil :=
  let st := set_lil_code save_code st in
  let st := set_lil_clen save_clen st in
  let st := set_lil_head save_head st in
  let '(val, st) :=
    if funclevel && env_retval_set (cur_env st) then
      (env_retval (cur_env st),
       update_env (lil_envp st)
         (fun e =>
            set_env_breakrun false
              (set_env_retval_set false (set_env_retval None e)))
         st)
    else (val, st) in
  let st := set_lil_parse_depth (lil_parse_depth st - 1) st in
  (Some (match val with
         | Some v => v
         | None => alloc_value None
         end), st).

(** [lil_parse] up to its [while] loop. *)
Definition lil_parse_prologue (code : string) (codelen : nat)
    (funclevel : bool) (st : lil) : lil :=
  let st :=
    match lil_code st with
    | None => set_lil_rootcode (Some code) st
    | Some _ => st
    end in
  let st := set_lil_code (Some code) st in
  let st :=
    set_lil_clen (if negb (codelen =? 0) then codelen else strlen code) st in
  let st := set_lil_head 0 st in
  let st := lil_skip_spaces st in
  let st := set_lil_parse_depth (lil_parse_depth st + 1) st in
  let st :=
    if lil_parse_depth st =? 1 then set_lil_err ERROR_NOERROR st else st in
  if funclevel
  then update_env (lil_envp st) (set_env_breakrun false) st
  else st.

(** [lil_parse], with its recursive calls going to [parse_rec]. *)
Definition lil_parse_body (code : string) (codelen : nat) (funclevel : bool)
    : M (option lil_value) :=
  fun st =>
    let save_code := lil_code st in
    let save_clen := lil_clen st in
    let save_head := lil_head st in
    let st := lil_parse_prologue code codelen funclevel st in
    let* (val, st) := lil_parse_loop (lil_clen st - lil_head st) None st in
    Some (lil_parse_cleanup save_code save_clen save_head funclevel val st).

End Evaluator.

(** [lil_parse]: [fuel] bounds the depth of the nested calls. *)
Fixpoint lil_parse (fuel : nat) (code : string) (codelen : nat)
    (funclevel : bool) : M (option lil_value) :=
  match fuel with
  | 0 => fun _ => None
  | S f => lil_parse_body (lil_parse f) code codelen funclevel
  end.

(** The commands of [register_stdcmds], in the order of their registration:
    the always present ones, and those under [CONFIG_LIL_FULL]. *)
Definition stdcmds_base : list (string * lil_func_proc_t) :=
  ("dec", proc_fnc_dec) :: ("eval", proc_fnc_eval) ::
  ("expr", proc_fnc_expr) :: ("for", proc_fnc_for) ::
  ("foreach", proc_fnc_foreach) :: ("func", proc_fnc_func) ::
  ("if", proc_fnc_if) :: ("inc", proc_fnc_inc) ::
  ("local", proc_fnc_local) :: ("return", proc_fnc_return) ::
  ("set", proc_fnc_set) :: ("strcmp", proc_fnc_strcmp) ::
  ("try", proc_fnc_try) :: ("while", proc_fnc_while) :: nil.

Definition stdcmds_full : list (string * lil_func_proc_t) :=
  ("append", proc_fnc_append) :: ("catcher", proc_fnc_catcher) ::
  ("char", proc_fnc_char) :: ("charat", proc_fnc_charat) ::
  ("codeat", proc_fnc_codeat) :: ("concat", proc_fnc_concat) ::
  ("count", proc_fnc_count) :: ("downeval", proc_fnc_downeval) ::
  ("enveval", proc_fnc_enveval) :: ("error", proc_fnc_error) ::
  ("filter", proc_fnc_filter) :: ("index", proc_fnc_index) ::
  ("indexof", proc_fnc_indexof) :: ("jaileval", proc_fnc_jaileval) ::
  ("length", proc_fnc_length) :: ("list", proc_fnc_list) ::
  ("lmap", proc_fnc_lmap) :: ("ltrim", proc_fnc_ltrim) ::
  ("quote", proc_fnc_quote) :: ("reflect", proc_fnc_reflect) ::
  ("rename", proc_fnc_rename) :: ("repstr", proc_fnc_repstr) ::
  ("result", proc_fnc_result) :: ("rtrim", proc_fnc_rtrim) ::
  ("slice", proc_fnc_slice) :: ("split", proc_fnc_split) ::
  ("streq", proc_fnc_streq) :: ("strpos", proc_fnc_strpos) ::
  ("subst", proc_fnc_subst) :: ("substr", proc_fnc_substr) ::
  ("topeval", proc_fnc_topeval) :: ("trim", proc_fnc_trim) ::
  ("unusedname", proc_fnc_unusedname) :: ("upeval", proc_fnc_upeval) ::
  ("watch", proc_fnc_watch) :: nil.

Definition register_all (cmds : list (string * lil_func_proc_t)) (st : lil)
    : lil :=
  fold_left (fun st c => snd (lil_register (fst c) (snd c) st)) cmds st.

Definition register_stdcmds (st : lil) : lil :=
  let st := register_all stdcmds_base st in
  let st := if CONFIG_LIL_FULL then register_all stdcmds_full st else st in
  set_lil_syscmds (length (lil_cmd st)) st.

(** [lil_new] in a host whose state is [w]; the root environment gets the
    first address. *)
Definition lil_new (w : W) : lil :=
  let st :=
    mk_lil None None 0 0 false nil 0 hm_init None 0 EmptyString 0 0 None
      EmptyString ERROR_NOERROR 0 None 0 ∅ 1 w in
  let (env, st) := lil_alloc_env None st in
  let st := set_lil_envp env (set_lil_rootenv env st) in
  let st := set_lil_empty (alloc_value None) st in
  let st := set_lil_dollarprefix "set " st in
  let st := set_lil_cmdmap hm_init st in
  register_stdcmds st.

End Interpreter.

(** *** Built-in commands that the host table dispatches *)

Section MoreBuiltins.

Context {W : Type}.
Context {PB : print_buffer}.
Variable ctrlc : W -> bool * W.
Variable CONFIG_LIL_FULL : bool.
Variable parse_rec : string -> nat -> bool -> @M W (option lil_value).

(** The [for] loop of [fnc_length]. *)
Fixpoint fnc_length_loop (i : nat) (argv : list lil_value) (total : nat)
    : nat :=
  match argv with
  | nil => total
  | a :: rest =>
      let total := if i =? 0 then total else total + 1 in
      fnc_length_loop (S i) rest (total + strlen (lil_to_string (Some a)))
  end.

Definition fnc_length (argv : list lil_value) : @M W (option lil_value) :=
  fun st =>
    Some (lil_alloc_integer (wrap (Z.of_nat (fnc_length_loop 0 argv 0))), st).

(** The [for] loop of [fnc_indexof]. *)
Fixpoint fnc_indexof_loop (index : nat) (list : lil_list) (x : string)
    : option lil_value :=
  match list with
  | nil => None
  | v :: rest =>
      if streq (lil_to_string (Some v)) x
      then lil_alloc_integer (wrap (Z.of_nat index))
      else fnc_indexof_loop (S index) rest x
  end.

Definition fnc_indexof (argv : list lil_value) : @M W (option lil_value) :=
  fun st =>
    if length argv <? 2 then Some (None, st)
    else
      let* (list, st) := lil_subst_to_list parse_rec (lil_arg argv 0) st in
      Some (fnc_indexof_loop 0 list (lil_to_string (lil_arg argv 1)), st).

(** The [while] loop of [fnc_while]; [n] bounds the number of its turns. *)
Fixpoint fnc_while_loop (n : nat) (isnot : bool)
    (cond body r : option lil_value) : @M W (option lil_value) :=
  fun st =>
    if negb (is_error (lil_err st)) && negb (env_breakrun (cur_env st)) then
      match n with
      | 0 => None
      | S n' =>
          let* (val, st) :=
            lil_eval_expr ctrlc CONFIG_LIL_FULL parse_rec cond st in
          match val with
          | None => Some (None, st)
          | Some _ =>
              if is_error (lil_err st) then Some (None, st)
              else
                let v := lil_to_boolean val in
                let v := if isnot then negb v else v in
                if negb v then Some (r, st)
                else
                  let* (r, st) := lil_parse_value parse_rec body false st in
                  fnc_while_loop n' isnot cond body r st
          end
      end
    else Some (r, st).

Definition fnc_while (fuel : nat) (argv : list lil_value)
    : @M W (option lil_value) :=
  fun st =>
    let argc := length argv in
    if argc <? 1 then Some (None, st)
    else
      let isnot := streq (lil_to_string (lil_arg argv 0)) "not" in
      let base := if isnot then 1 else 0 in
      if argc <? base + 2 then Some (None, st)
      else
        fnc_while_loop fuel isnot (lil_arg argv base) (lil_arg argv (base + 1))
          None st.

End MoreBuiltins.

(** A table for [extern_proc] with the commands above; the other commands
    return [NULL]. *)
Definition lil_extern {W : Type} {PB : print_buffer} (ctrlc : W -> bool * W) (FULL : bool)
    (fuel : nat)
    (parse : string -> nat -> bool -> @M W (option lil_value))
    (proc : lil_func_proc_t) (argv : list lil_value)
    : @M W (option lil_value) :=
  match proc with
  | proc_fnc_while => fnc_while ctrlc FULL parse fuel argv
  | proc_fnc_length => fnc_length argv
  | proc_fnc_indexof => fnc_indexof parse argv
  | _ => fun st => Some (None, st)
  end.

(** ** A host for the worked examples

    The U-Boot environment is an association list, [env_set] prepends and
    always succeeds, nobody presses Ctrl-C, and the commands that are not
    transcribed return [NULL]. *)

Definition test_host : Type := list (string * string).

Definition test_ctrlc (w : test_host) : bool * test_host := (false, w).

Definition test_env_set (name value : string) (w : test_host)
    : Z * test_host :=
  (0%Z, (name, value) :: w).

Fixpoint test_env_get (name : string) (w : test_host) : option string :=
  match w with
  | nil => None
  | (k, v) :: r => if String.eqb k name then Some v else test_env_get name r
  end.

(** The test configuration prints through a buffer of 1044 bytes. *)
#[global] Instance test_print_buffer : print_buffer := 1044.

Definition test_extern
    (parse : string -> nat -> bool -> @M test_host (option lil_value))
    (proc : lil_func_proc_t) (argv : list lil_value)
    : @M test_host (option lil_value) :=
  fun st => Some (None, st).

(** [lil_parse] in the test host, with [CONFIG_LIL_FULL] enabled. *)
Abbreviation test_parse_rec :=
  (lil_parse test_ctrlc test_env_set test_env_get true test_extern).

Abbreviation test_parse fuel code funclevel :=
  (lil_parse test_ctrlc test_env_set test_env_get true test_extern fuel code 0
     funclevel) (only parsing).

(** A fresh interpreter of the test host. *)
Definition test_lil : @lil test_host :=
  Eval vm_compute in lil_new true nil.

(** The state after running the script [code] in a fresh interpreter. *)
Definition test_state_after (code : string) : @lil test_host :=
  match test_parse 40 code false test_lil with
  | Some (_, st) => st
  | None => test_lil
  end.

(** ** Measures, predicates and states that the properties use *)

(** The input that is left, and what every function of the evaluator does
    to its state: the text stays, the cursor does not go back. *)
Definition ee_mu (ee : expreval) : nat :=
  Nat.max (ee_len ee) (String.length (ee_code ee)) - ee_head ee.

Definition ee_grows (a b : expreval) : Prop :=
  ee_code b = ee_code a /\ ee_len b = ee_len a /\ ee_head a <= ee_head b.

Definition ee_advances (a b : expreval) : Prop :=
  ee_code b = ee_code a /\ ee_len b = ee_len a /\ ee_head a < ee_head b.

Definition step_state (s : loop_step) : expreval :=
  match s with
  | Continue ee => ee
  | Return ee => ee
  end.

(** [g] returns on every state with at most [b] characters left. *)
Definition ee_total_at (b : nat) (g : expreval -> option expreval) : Prop :=
  forall ee, ee_mu ee <= b ->
    exists ee', g ee = Some ee' /\ ee_grows ee ee'.

(** Three frames: the root, a frame that owns [x], and a frame below it. *)
Definition test_nested : @lil test_host :=
  Eval vm_compute in
    let (_, st) := lil_push_env test_lil in
    match
      lil_set_var test_env_set (test_parse_rec 0) "x" (Some "1")
        LIL_SETVAR_LOCAL_NEW st
    with
    | Some (_, st) => snd (lil_push_env st)
    | None => st
    end.

(** The state that the script [error boom], run at the top, leaves behind:
    the slot is set, the parse depth is back to 0. *)
Definition test_after_error : @lil test_host :=
  Eval vm_compute in test_state_after "error boom".

(** The cursor at the start of the body [return 5; set a 2], and after the
    words of its first line have been read. *)
Definition test_body : @lil test_host :=
  Eval vm_compute in
    set_lil_clen 17 (set_lil_code (Some "return 5; set a 2") test_lil).

Definition test_body_words : @lil test_host :=
  Eval vm_compute in
    match substitute (test_parse_rec 0) test_body with
    | Some (_, st) => st
    | None => test_body
    end.

(** The evaluation of a watch in the words of the specification: switch to
    the environment that owns the variable, evaluate the watch as a
    non-function fragment, discard the result, switch back. *)
Definition watch_as_fragment {W : Type}
    (parse : string -> nat -> bool -> @M W (option lil_value))
    (w : string) (p : var_ptr) (st : @lil W) : option (@lil W) :=
  let save_env := lil_envp st in
  let* (_, st') :=
    parse w 0 false (set_lil_envp (var_env (deref_var st p)) st) in
  Some (set_lil_envp save_env st').

(** The root variable [x] carries the watch [return 5]. *)
Definition test_watched : @lil test_host :=
  Eval vm_compute in test_state_after "set x 1; watch x {return 5}".

(** The interpreter after [func f args {quote}], and the frame that
    [run_cmd] pushes for a call of [f]. *)
Definition test_with_f : @lil test_host :=
  Eval vm_compute in test_state_after "func f args {quote}".

Definition test_frame_f : @lil test_host :=
  Eval vm_compute in
    let (_, st) := lil_push_env test_with_f in
    update_env (lil_envp st) (set_env_func (Some 49)) st.

(** The value that the [for] loop of [run_cmd] binds to the declared name
    number [i]. *)
Definition bound_value (words : lil_list) (empty : lil_value) (i : nat)
    : option lil_value :=
  if i <? length words - 1 then lil_list_get words (i + 1) else Some empty.

Fixpoint string_forallb (p : ascii -> bool) (s : string) : bool :=
  match s with
  | EmptyString => true
  | String c r => p c && string_forallb p r
  end.

(** The text that [lil_list_to_value] writes for one entry. *)
Definition elem_text (v : lil_value) : string :=
  if needs_escape v then String "{" (escape_bytes EmptyString v ++ "}")
  else v.

(** The text for the entries after the first. *)
Fixpoint list_tail_text (l : lil_list) : string :=
  match l with
  | nil => EmptyString
  | v :: r => String " " (elem_text v ++ list_tail_text r)
  end.

(** An entry cut at its braces: the text before the first brace, then
    each brace with the text that follows it. *)
Fixpoint chunks (d : string) : string * list (ascii * string) :=
  match d with
  | EmptyString => (EmptyString, nil)
  | String c r =>
      let (c0, l) := chunks r in
      if is_char c "{" || is_char c "}" then (EmptyString, (c, c0) :: l)
      else (String c c0, l)
  end.

Fixpoint tail_ser (l : list (ascii * string)) : string :=
  match l with
  | nil => EmptyString
  | (b, c) :: r =>
      String DQUOTE (String "\" (String (if is_char b "{" then "o" else "c")
        (String DQUOTE (String "{" (c ++ String "}" (tail_ser r))))))
  end.

Fixpoint tail_raw (l : list (ascii * string)) : string :=
  match l with
  | nil => EmptyString
  | (b, c) :: r => String b (c ++ tail_raw r)
  end.

Definition nobrace (c : ascii) : bool :=
  negb (is_char c "{") && negb (is_char c "}").

Definition bare (c : ascii) : bool := negb (ispunct c || isspace c).

Definition nonul (c : ascii) : bool := negb (is_char c NUL).

(** A character at which [lil_skip_spaces] stops. *)
Definition word_start (c : ascii) : bool :=
  negb (is_char c "#") && negb (is_char c "\") && negb (eolchar c) &&
  negb (isspace c).

(** The text after an entry: the end of the buffer, or a blank. *)
Definition entry_end (suf : string) : Prop :=
  match suf with
  | EmptyString => True
  | String c _ => c = " "%char
  end.

(** The cursor stands in front of [suf], which runs to [lil->clen]. *)
Definition at_text {W : Type} (st : @lil W) (suf : string) : Prop :=
  exists pre,
    lil_buf st = pre ++ suf /\ lil_head st = String.length pre /\
    lil_clen st = String.length pre + String.length suf.

Definition brace_chunk (bc : ascii * string) : Prop :=
  (is_char (fst bc) "{" || is_char (fst bc) "}") = true /\
  string_forallb nobrace (snd bc) = true.

Definition nul_free (l : lil_list) : Prop :=
  Forall (fun v => string_forallb nonul v = true) l.

Definition no_control_chars (v : lil_value) : bool :=
  string_forallb (fun c => negb (iscntrl c)) v.

(** [n] characters ['0'] *)
Fixpoint zeros (n : nat) : string :=
  match n with
  | 0 => EmptyString
  | S n' => String "0" (zeros n')
  end.

(** The cursor of [st'] is that of [st] moved forward; nothing else differs. *)
Definition moved_forward {W : Type} (st st' : @lil W) : Prop :=
  exists h, st' = set_lil_head h st /\ lil_head st <= h.

(** A console on which Ctrl-C is pressed. *)
Definition test_ctrlc_pressed (w : test_host) : bool * test_host := (true, w).

(** The cursor at the start of the line [nosuch 1], and after its words
    have been read. *)
Definition test_unknown : @lil test_host :=
  Eval vm_compute in
    set_lil_clen 8 (set_lil_code (Some "nosuch 1") test_lil).

Definition test_unknown_words : @lil test_host :=
  Eval vm_compute in
    match substitute (test_parse_rec 0) test_unknown with
    | Some (_, st) => st
    | None => test_unknown
    end.

(** An interpreter with the catcher [quote], as deep in catchers as
    [MAX_CATCHER_DEPTH] allows. *)
Definition test_deep_catcher : @lil test_host :=
  Eval vm_compute in
    set_lil_in_catcher MAX_CATCHER_DEPTH
      (set_lil_catcher (Some "quote") test_lil).

(** A frame below the root. *)
Definition test_frame : @lil test_host :=
  Eval vm_compute in snd (lil_push_env test_lil).

(** The number that the digits of [d] continue from [acc]. *)
Fixpoint uint_value (d : Decimal.uint) (acc : Z) : Z :=
  match d with
  | Nil => acc
  | D0 l => uint_value l (acc * 10 + 0)
  | D1 l => uint_value l (acc * 10 + 1)
  | D2 l => uint_value l (acc * 10 + 2)
  | D3 l => uint_value l (acc * 10 + 3)
  | D4 l => uint_value l (acc * 10 + 4)
  | D5 l => uint_value l (acc * 10 + 5)
  | D6 l => uint_value l (acc * 10 + 6)
  | D7 l => uint_value l (acc * 10 + 7)
  | D8 l => uint_value l (acc * 10 + 8)
  | D9 l => uint_value l (acc * 10 + 9)
  end%Z.

(** [lil_parse] in the test host with that table. *)
Abbreviation test_parse_ext :=
  (lil_parse test_ctrlc test_env_set test_env_get true
     (lil_extern test_ctrlc true 100)).

(** The cursor at the start of the text [{abc]. *)
Definition test_open_brace : @lil test_host :=
  Eval vm_compute in set_lil_clen 4 (set_lil_code (Some "{abc") test_lil).

(** *** The levels of the evaluator and the path to a division by zero *)


Section Levels.

Variable rec : expreval -> option expreval.
Variable n : nat.






End Levels.







(** The variable named [name] that an environment owns: the index in
    [env->var] of the last one created under that name, which is the one
    that [hm_put] has left in the map. *)
Fixpoint last_named (vars : list lil_var) (name : string) (i : nat)
    : option nat :=
  match vars with
  | nil => None
  | v :: r =>
      match last_named r name (S i) with
      | Some j => Some j
      | None => if streq (var_n v) name then Some i else None
      end
  end.

Definition owned_var (e : lil_env) (name : string) : option nat :=
  last_named (env_var e) name 0.

(** The environment at address [a] is as [lil_set_var] builds it: its map
    sends a name to the variable of that name in [env->var], and every
    variable there records [a] as its owner. *)
Definition env_ok (a : nat) (e : lil_env) : Prop :=
  (forall name,
     hm_get (env_varmap e) name =
     option_map (fun i => (a, i)) (owned_var e name)) /\
  (forall i, i < length (env_var e) ->
     var_env (nth i (env_var e) null_var) = a).

(** Three frames: the root, at address 1, owns [g]; the frame at address 2
    owns [x]; the current frame, at address 3 and a child of that one, owns
    [y]. *)
Definition test_scopes : @lil test_host :=
  Eval vm_compute in
    match
      lil_set_var test_env_set (test_parse_rec 0) "g" (Some "7")
        LIL_SETVAR_GLOBAL test_lil
    with
    | Some (_, st) =>
        match
          lil_set_var test_env_set (test_parse_rec 0) "x" (Some "1")
            LIL_SETVAR_LOCAL_NEW (snd (lil_push_env st))
        with
        | Some (_, st) =>
            match
              lil_set_var test_env_set (test_parse_rec 0) "y" (Some "2")
                LIL_SETVAR_LOCAL_NEW (snd (lil_push_env st))
            with
            | Some (_, st) => st
            | None => st
            end
        | None => st
        end
    | None => test_lil
    end.

(** *** The turns of the loop of [lil_parse] *)

(** How one turn of the [while] loop of [lil_parse] ends: at the label
    [cleanup] or with the test of the loop failing, or back at the test of
    the loop. *)
Inductive lil_turn {W : Type} : Type :=
| Leave (val : option lil_value) (st : @lil W)
| Next (val : option lil_value) (st : @lil W).

Section Turns.

Context {W : Type}.
Context {PB : print_buffer}.
Variable ctrlc : W -> bool * W.
Variable env_set : string -> string -> W -> Z * W.
Variable env_get : string -> W -> option string.
Variable CONFIG_LIL_FULL : bool.
Variable extern_proc :
  (string -> nat -> bool -> @M W (option lil_value)) ->
  lil_func_proc_t -> list lil_value -> @M W (option lil_value).
Variable parse_rec : string -> nat -> bool -> @M W (option lil_value).

(** The test of the loop and one pass through its body. *)
Definition lil_parse_turn (val : option lil_value) (st : @lil W)
    : option (@lil_turn W) :=
  if (lil_head st <? lil_clen st) && negb (is_error (lil_err st)) then
    let (c, w) := ctrlc (lil_host st) in
    let st := set_lil_host w st in
    if c then
      Some (Leave None
              (lil_set_error_at (lil_head st) (Some "interrupted") st))
    else
      let* (words, st) := substitute parse_rec st in
      match words with
      | None => Some (Leave None st)
      | Some words =>
          if is_error (lil_err st) then Some (Leave None st)
          else
            let next (val : option lil_value) (st : lil) :=
              let st := lil_skip_spaces st in
              let st :=
                skip_eols (String.length (lil_buf st) - lil_head st) st in
              let st := lil_skip_spaces st in
              Some (Next val st) in
            match words with
            | nil => next None st
            | w0 :: rest =>
                let (cmd, name) :=
                  lil_find_cmd st (lil_to_string (Some w0)) in
                let words := name :: rest in
                match cmd with
                | None =>
                    if negb (String.length w0 =? 0) then
                      let* (val, st) :=
                        unknown_cmd env_set CONFIG_LIL_FULL parse_rec words
                          st in
                      match val with
                      | None => Some (Leave None st)
                      | Some _ =>
                          if env_breakrun (cur_env st)
                          then Some (Leave val st)
                          else next val st
                      end
                    else
                      if env_breakrun (cur_env st) then Some (Leave None st)
                      else next None st
                | Some cmd =>
                    let* (val, st) :=
                      run_cmd ctrlc env_set env_get CONFIG_LIL_FULL
                        extern_proc parse_rec cmd words st in
                    if env_breakrun (cur_env st) then Some (Leave val st)
                    else next val st
                end
            end
      end
  else Some (Leave val st).

(** The value and the state at the test of the loop after [k] turns, none of
    which has left the loop. *)
Fixpoint lil_parse_turns (k : nat) (val : option lil_value) (st : @lil W)
    : option (option lil_value * @lil W) :=
  match k with
  | 0 => Some (val, st)
  | S k' =>
      match lil_parse_turn val st with
      | Some (Next val st) => lil_parse_turns k' val st
      | _ => None
      end
  end.

End Turns.

(** The frame of a function whose body is [set a 1; return 5; set a 2]: as
    the caller of [lil_parse] has it, at the test of the loop after the
    first line, after the words of the second line have been read, and
    after the command of that line has run. *)
Definition test_return_body : string := "set a 1; return 5; set a 2".

Definition test_return_turn : @lil test_host :=
  Eval vm_compute in
    match
      lil_parse_turns test_ctrlc test_env_set test_env_get true test_extern
        (test_parse_rec 3) 1 None
        (lil_parse_prologue test_return_body 0 true test_frame)
    with
    | Some (_, st) => st
    | None => test_frame
    end.

Definition test_return_words : @lil test_host :=
  Eval vm_compute in
    match substitute (test_parse_rec 3) test_return_turn with
    | Some (_, st) => st
    | None => test_return_turn
    end.

Definition test_return_done : @lil test_host :=
  Eval vm_compute in
    match
      run_cmd test_ctrlc test_env_set test_env_get true test_extern
        (test_parse_rec 3) 9 ("return" :: "5" :: nil) test_return_words
    with
    | Some (_, st) => st
    | None => test_return_words
    end.

(** The cursor at the start of the text [error boom; set a 2], after the
    words of its first line have been read, and after the command of that
    line has run. *)
Definition test_error_line : @lil test_host :=
  Eval vm_compute in
    set_lil_clen (String.length "error boom; set a 2")
      (set_lil_code (Some "error boom; set a 2") test_lil).

Definition test_error_words : @lil test_host :=
  Eval vm_compute in
    match substitute (test_parse_rec 0) test_error_line with
    | Some (_, st) => st
    | None => test_error_line
    end.

Definition test_error_raised : @lil test_host :=
  Eval vm_compute in
    match
      run_cmd test_ctrlc test_env_set test_env_get true test_extern
        (test_parse_rec 0) 23 ("error" :: "boom" :: nil) test_error_words
    with
    | Some (_, st) => st
    | None => test_error_words
    end.

(** * Properties *)

(** ** Characters *)

Lemma is_char_eq (c d : ascii) : is_char c d = true <-> c = d.
Proof. unfold is_char. apply Ascii.eqb_eq. Qed.

Lemma is_char_refl (c : ascii) : is_char c c = true.
Proof. apply is_char_eq. reflexivity. Qed.

Lemma code_at_bound (s : string) (i : nat) :
  code_at s i <> NUL -> i < String.length s.
Proof.
  unfold code_at. revert i. induction s as [|a s IH]; intros [|i]; simpl.
  - congruence.
  - congruence.
  - lia.
  - intros H. apply IH in H. lia.
Qed.

Lemma code_at_char_bound (s : string) (i : nat) (c : ascii) :
  is_char (code_at s i) c = true -> c <> NUL -> i < String.length s.
Proof.
  intros H Hc. apply code_at_bound. apply is_char_eq in H. congruence.
Qed.

(** ** The expression evaluator terminates *)

Lemma ee_grows_refl (a : expreval) : ee_grows a a.
Proof. unfold ee_grows. auto. Qed.

Lemma ee_grows_trans (a b c : expreval) :
  ee_grows a b -> ee_grows b c -> ee_grows a c.
Proof. unfold ee_grows. intros (? & ? & ?) (? & ? & ?). repeat split; try congruence; lia. Qed.

Lemma ee_advances_grows (a b c : expreval) :
  ee_advances a b -> ee_grows b c -> ee_advances a c.
Proof.
  unfold ee_grows, ee_advances. intros (? & ? & ?) (? & ? & ?).
  repeat split; try congruence; lia.
Qed.

Lemma ee_grows_mu (a b : expreval) : ee_grows a b -> ee_mu b <= ee_mu a.
Proof. unfold ee_grows, ee_mu. intros (-> & -> & ?). lia. Qed.

Lemma ee_advances_mu (a b : expreval) :
  ee_advances a b -> ee_head a < ee_len a \/ ee_head a < String.length (ee_code a) ->
  ee_mu b < ee_mu a.
Proof. unfold ee_advances, ee_mu. intros (-> & -> & ?) ?. lia. Qed.

Lemma ee_skip_spaces_loop_spec (n : nat) (ee : expreval) :
  ee_grows ee (ee_skip_spaces_loop n ee) /\
  ee_error (ee_skip_spaces_loop n ee) = ee_error ee /\
  ee_ival (ee_skip_spaces_loop n ee) = ee_ival ee.
Proof.
  revert ee. induction n as [|n IH]; intros ee; simpl.
  - auto using ee_grows_refl.
  - destruct (_ && _).
    + destruct (IH (ee_adv 1 ee)) as (G & E & I). repeat split; auto.
      * apply G.
      * destruct G as (_ & -> & _). reflexivity.
      * destruct G as (_ & _ & G). simpl in G. lia.
    + auto using ee_grows_refl.
Qed.

Lemma ee_skip_spaces_grows (ee : expreval) : ee_grows ee (ee_skip_spaces ee).
Proof. apply ee_skip_spaces_loop_spec. Qed.



Lemma ee_numeric_loop_grows (n : nat) (ee : expreval) :
  ee_grows ee (ee_numeric_loop n ee).
Proof.
  revert ee. induction n as [|n IH]; intros ee; simpl.
  - apply ee_grows_refl.
  - destruct (_ <? _); [|apply ee_grows_refl].
    destruct (negb _); [apply ee_grows_refl|].
    eapply ee_grows_trans; [|apply IH].
    unfold ee_grows. simpl. repeat split; auto. lia.
Qed.

Lemma ee_element_grows (ee : expreval) : ee_grows ee (ee_element ee).
Proof.
  unfold ee_element. destruct (isdigit _).
  - unfold ee_numeric_element.
    eapply ee_grows_trans; [apply (ee_skip_spaces_grows ee)|].
    eapply ee_grows_trans; [|apply ee_numeric_loop_grows].
    unfold ee_grows. simpl. auto.
  - unfold ee_grows. simpl. auto.
Qed.

(** A loop whose condition needs input and whose body consumes some comes
    to an end before its counter does. *)
Lemma ee_while_total (f : nat) (cond : expreval -> bool)
    (body : expreval -> option loop_step) :
  (forall ee, cond ee = true -> ee_head ee < ee_len ee) ->
  (forall ee, cond ee = true -> ee_mu ee <= f ->
     exists s, body ee = Some s /\ ee_advances ee (step_state s)) ->
  forall n ee, ee_mu ee <= n -> ee_mu ee <= f ->
    exists ee', ee_while n cond body ee = Some ee' /\ ee_grows ee ee'.
Proof.
  intros Hc Hb n. induction n as [|n IH]; intros ee Hn Hf; simpl.
  - destruct (cond ee) eqn:C.
    + apply Hc in C. unfold ee_mu in Hn. lia.
    + eauto using ee_grows_refl.
  - destruct (cond ee) eqn:C; [|eauto using ee_grows_refl].
    destruct (Hb ee C Hf) as (s & -> & A).
    assert (G : ee_grows ee (step_state s))
      by (destruct A as (? & ? & ?); repeat split; auto; lia).
    destruct s as [e1|e1]; simpl in *; [|eauto].
    assert (ee_mu e1 < ee_mu ee)
      by (apply ee_advances_mu; auto; left; auto).
    destruct (IH e1) as (e2 & -> & G2); try lia.
    eauto using ee_grows_trans.
Qed.

Lemma ee_operand_total (sub : expreval -> option expreval)
    (ee ee1 : expreval) (combine : expreval -> expreval) :
  ee_advances ee ee1 ->
  (exists e', sub ee1 = Some e' /\ ee_grows ee1 e') ->
  (forall e, ee_grows e (combine e)) ->
  exists s, ee_operand sub ee1 combine = Some s /\
            ee_advances ee (step_state s).
Proof.
  intros A (e' & E & G) Hcomb. unfold ee_operand. rewrite E.
  destruct (negb _); eexists; split; try reflexivity; simpl.
  - eauto using ee_advances_grows.
  - eapply ee_advances_grows; [eassumption|].
    eapply ee_grows_trans; [eassumption|].
    eapply ee_grows_trans; [apply Hcomb|apply ee_skip_spaces_grows].
Qed.

Lemma ee_adv_advances (k : nat) (ee : expreval) :
  0 < k -> ee_advances ee (ee_adv k ee).
Proof. unfold ee_advances. simpl. intros. repeat split; auto. lia. Qed.

Lemma ee_set_ival_grows (v : Z) (ee : expreval) :
  ee_grows ee (ee_set_ival v ee).
Proof. unfold ee_grows. simpl. auto. Qed.

Lemma ee_set_error_grows (e : nat) (ee : expreval) :
  ee_grows ee (ee_set_error e ee).
Proof. unfold ee_grows. simpl. auto. Qed.

Create HintDb ee.

#[local] Hint Resolve ee_grows_refl ee_set_ival_grows ee_set_error_grows
  ee_skip_spaces_grows ee_element_grows : ee.

Lemma ee_mu_adv (k : nat) (ee : expreval) : ee_mu (ee_adv k ee) <= ee_mu ee.
Proof. unfold ee_mu. simpl. lia. Qed.

Lemma ee_paren_total (rec : expreval -> option expreval) (f : nat) :
  (forall b, b < f -> ee_total_at b rec) -> ee_total_at f (ee_paren rec).
Proof.
  intros Hrec ee Hf. unfold ee_paren.
  pose proof (ee_skip_spaces_grows ee) as G1.
  set (e1 := ee_skip_spaces ee) in *.
  destruct (is_char (ee_cur e1) "(") eqn:C.
  - apply code_at_char_bound in C; [|discriminate].
    assert (Hmu : ee_mu (ee_adv 1 e1) < f).
    { apply ee_grows_mu in G1. unfold ee_mu in *. simpl. lia. }
    destruct (Hrec _ Hmu (ee_adv 1 e1)) as (e2 & -> & G2); [lia|].
    assert (G3 : ee_grows ee (ee_skip_spaces e2)).
    { eapply ee_grows_trans; [exact G1|].
      eapply ee_grows_trans; [|eapply ee_grows_trans;
                                 [exact G2|apply ee_skip_spaces_grows]].
      unfold ee_grows. simpl. repeat split; auto. lia. }
    destruct (is_char _ ")"); eexists; split; try reflexivity.
    + eapply ee_grows_trans; [exact G3|].
      unfold ee_grows. simpl. repeat split; auto. lia.
    + eapply ee_grows_trans; [exact G3|]. auto with ee.
  - eexists; split; [reflexivity|].
    eapply ee_grows_trans; [exact G1|]. auto with ee.
Qed.

Lemma ee_unary_op_grows (op : ascii) (ee : expreval) :
  ee_grows ee (ee_unary_op op ee).
Proof. unfold ee_unary_op. repeat destruct (is_char op _); auto with ee. Qed.

Lemma ee_unary_total (rec : expreval -> option expreval) (f n : nat) :
  (forall b, b < f -> ee_total_at b rec) ->
  ee_total_at (Nat.min n f) (ee_unary rec n).
Proof.
  intros Hrec. induction n as [|n IH]; intros ee Hb; simpl;
    pose proof (ee_skip_spaces_grows ee) as G1;
    set (e1 := ee_skip_spaces ee) in *;
    pose proof (ee_grows_mu _ _ G1) as M1.
  - destruct (_ && _ && _) eqn:C.
    + apply andb_prop in C as [C _]. apply andb_prop in C as [C _].
      apply Nat.ltb_lt in C. unfold ee_mu in *. lia.
    + destruct (ee_paren_total rec f Hrec e1) as (e2 & -> & G2); [lia|].
      eauto using ee_grows_trans.
  - destruct (_ && _ && _) eqn:C.
    + apply andb_prop in C as [C _]. apply andb_prop in C as [C _].
      apply Nat.ltb_lt in C.
      destruct (IH (ee_adv 1 e1)) as (e2 & -> & G2).
      { unfold ee_mu in *. simpl. lia. }
      assert (G3 : ee_grows ee e2).
      { eapply ee_grows_trans; [exact G1|].
        eapply ee_grows_trans; [|exact G2].
        unfold ee_grows. simpl. repeat split; auto. lia. }
      destruct (negb _); eexists; split; try reflexivity; auto.
      eapply ee_grows_trans; [exact G3|apply ee_unary_op_grows].
    + destruct (ee_paren_total rec f Hrec e1) as (e2 & -> & G2); [lia|].
      eauto using ee_grows_trans.
Qed.

(** The obligations of [ee_while_total] for the loop of a binary level:
    the condition needs input, and the body reads an operator and an
    operand. *)
Ltac ee_cond_head C :=
  repeat (apply andb_prop in C as [C _]); apply Nat.ltb_lt in C; exact C.

Ltac ee_operand_tac Hsub :=
  apply ee_operand_total;
  [ first [ apply ee_adv_advances; lia
          | unfold ee_advances; simpl; repeat split; auto; lia ]
  | apply Hsub; unfold ee_mu in *; simpl in *; lia
  | intros; repeat destruct (_ =? _)%Z; auto with ee ].

Section LevelsTotal.

Variable FULL : bool.
Variable rec : expreval -> option expreval.
Variable f n : nat.

Lemma ee_muldiv_total :
  (forall b, b < f -> ee_total_at b rec) ->
  ee_total_at (Nat.min n f) (ee_muldiv FULL rec n).
Proof.
  intros Hrec ee Hb. unfold ee_muldiv.
  pose proof (ee_unary_total rec f n Hrec) as Hsub.
  destruct (Hsub ee Hb) as (e1 & -> & G1).
  destruct (_ || _); [eauto|].
  pose proof (ee_grows_mu _ _ G1).
  pose proof (ee_grows_mu _ _ (ee_skip_spaces_grows e1)).
  destruct (ee_while_total (Nat.min n f) ee_muldiv_cond
              (ee_muldiv_step rec n)) with (n := n) (ee := ee_skip_spaces e1)
    as (e2 & -> & G2); try lia.
  - intros e C. unfold ee_muldiv_cond in C. ee_cond_head C.
  - intros e C Hm. unfold ee_muldiv_cond in C. unfold ee_muldiv_step.
    apply andb_prop in C as [_ C].
    destruct (is_char (ee_cur e) "*"); [ee_operand_tac Hsub|].
    destruct (is_char (ee_cur e) "%"); [ee_operand_tac Hsub|].
    destruct (is_char (ee_cur e) "/"); [ee_operand_tac Hsub|].
    destruct (is_char (ee_cur e) "\"); [ee_operand_tac Hsub|].
    discriminate.
  - eauto using ee_grows_trans, ee_skip_spaces_grows.
Qed.

(** The first operand [sub], then the loop: what is left to prove is that
    the body of the loop reads an operator and an operand. *)
Ltac ee_level_tac Hsub ee Hb :=
  destruct (Hsub ee Hb) as (?e1 & -> & ?G1);
  try match goal with
      | |- context [if negb FULL then _ else _] =>
          destruct (negb FULL); [solve [eauto]|]
      end;
  match goal with
  | G1 : ee_grows ee ?e1 |- context [ee_while n ?c ?b (ee_skip_spaces ?e1)] =>
      pose proof (ee_grows_mu _ _ G1);
      pose proof (ee_grows_mu _ _ (ee_skip_spaces_grows e1));
      destruct (ee_while_total (Nat.min n f) c b) with
        (n := n) (ee := ee_skip_spaces e1) as (?e2 & -> & ?G2);
      [ let C := fresh "C" in intros ?e C; ee_cond_head C
      | let C := fresh "C" in
        intros ?e C ?Hm; apply andb_prop in C as [_ C]
      | lia
      | lia
      | eauto using ee_grows_trans, ee_skip_spaces_grows ]
  end.

Lemma ee_addsub_total :
  (forall b, b < f -> ee_total_at b rec) ->
  ee_total_at (Nat.min n f) (ee_addsub FULL rec n).
Proof.
  intros Hrec ee Hb. unfold ee_addsub.
  pose proof (ee_muldiv_total Hrec) as Hsub.
  ee_level_tac Hsub ee Hb.
  destruct (is_char (ee_cur e) "+"); [ee_operand_tac Hsub|].
  destruct (is_char (ee_cur e) "-"); [ee_operand_tac Hsub|].
  discriminate.
Qed.

Lemma ee_shift_total :
  (forall b, b < f -> ee_total_at b rec) ->
  ee_total_at (Nat.min n f) (ee_shift FULL rec n).
Proof.
  intros Hrec ee Hb. unfold ee_shift.
  pose proof (ee_addsub_total Hrec) as Hsub.
  ee_level_tac Hsub ee Hb.
  cbv zeta. change (ee_cur (ee_adv 1 e)) with (ee_next e).
  destruct (is_char (ee_next e) "<"); [ee_operand_tac Hsub|].
  destruct (is_char (ee_next e) ">"); [ee_operand_tac Hsub|].
  rewrite !andb_false_r in C. discriminate.
Qed.

Lemma ee_compare_total :
  (forall b, b < f -> ee_total_at b rec) ->
  ee_total_at (Nat.min n f) (ee_compare FULL rec n).
Proof.
  intros Hrec ee Hb. unfold ee_compare.
  pose proof (ee_shift_total Hrec) as Hsub.
  ee_level_tac Hsub ee Hb.
  cbv zeta.
  destruct (is_char (ee_cur e) "<" && negb (ee_invalidpunct (ee_next e)));
    [simpl; ee_operand_tac Hsub|].
  destruct (is_char (ee_cur e) ">" && negb (ee_invalidpunct (ee_next e)));
    [simpl; ee_operand_tac Hsub|].
  destruct (is_char (ee_cur e) "<" && is_char (ee_next e) "=");
    simpl; ee_operand_tac Hsub.
Qed.

Lemma ee_equals_total :
  (forall b, b < f -> ee_total_at b rec) ->
  ee_total_at (Nat.min n f) (ee_equals FULL rec n).
Proof.
  intros Hrec ee Hb. unfold ee_equals.
  pose proof (ee_compare_total Hrec) as Hsub.
  ee_level_tac Hsub ee Hb.
  cbv zeta. destruct (is_char (ee_cur e) "="); simpl; ee_operand_tac Hsub.
Qed.

Lemma ee_bitand_total :
  (forall b, b < f -> ee_total_at b rec) ->
  ee_total_at (Nat.min n f) (ee_bitand FULL rec n).
Proof.
  intros Hrec ee Hb. unfold ee_bitand.
  pose proof (ee_equals_total Hrec) as Hsub.
  ee_level_tac Hsub ee Hb.
  cbv zeta. ee_operand_tac Hsub.
Qed.

Lemma ee_bitor_total :
  (forall b, b < f -> ee_total_at b rec) ->
  ee_total_at (Nat.min n f) (ee_bitor FULL rec n).
Proof.
  intros Hrec ee Hb. unfold ee_bitor.
  pose proof (ee_bitand_total Hrec) as Hsub.
  ee_level_tac Hsub ee Hb.
  cbv zeta. ee_operand_tac Hsub.
Qed.

Lemma ee_logand_total :
  (forall b, b < f -> ee_total_at b rec) ->
  ee_total_at (Nat.min n f) (ee_logand FULL rec n).
Proof.
  intros Hrec ee Hb. unfold ee_logand.
  pose proof (ee_bitor_total Hrec) as Hsub.
  ee_level_tac Hsub ee Hb.
  cbv zeta. ee_operand_tac Hsub.
Qed.

Lemma ee_logor_total :
  (forall b, b < f -> ee_total_at b rec) ->
  ee_total_at (Nat.min n f) (ee_logor FULL rec n).
Proof.
  intros Hrec ee Hb. unfold ee_logor.
  pose proof (ee_logand_total Hrec) as Hsub.
  ee_level_tac Hsub ee Hb.
  cbv zeta. ee_operand_tac Hsub.
Qed.

End LevelsTotal.

Lemma ee_expr_fix_grows (ee : expreval) : ee_grows ee (ee_expr_fix ee).
Proof.
  unfold ee_expr_fix. destruct (_ =? _); auto with ee.
  unfold ee_grows. simpl. auto.
Qed.

(** [ee_expr] returns when its fuel exceeds the input that is left. *)
Lemma ee_expr_total (FULL : bool) (fuel : nat) :
  forall b, b < fuel -> ee_total_at b (ee_expr FULL fuel).
Proof.
  induction fuel as [|fuel IH]; intros b Hb ee Hm; [lia|]. simpl.
  destruct (ee_logor_total FULL (ee_expr FULL fuel) fuel fuel IH ee)
    as (e1 & -> & G1); [lia|].
  eexists. split; [reflexivity|].
  eapply ee_grows_trans; [exact G1|apply ee_expr_fix_grows].
Qed.

Lemma ee_expr_returns (FULL : bool) (ee : expreval) :
  exists ee', ee_expr FULL (ee_fuel ee) ee = Some ee'.
Proof.
  destruct (ee_expr_total FULL (ee_fuel ee) (ee_mu ee)) with (ee := ee)
    as (e & E & _); eauto.
  unfold ee_fuel, ee_mu. lia.
Qed.

(** ** Operator precedence *)

Section Precedence.

Context {W : Type}.
Context {PB : print_buffer}.
Variable ctrlc : W -> bool * W.
Variable parse_rec : string -> nat -> bool -> @M W (option lil_value).

(** Substitution leaves an expression without [$], brackets, braces and
    quotes as it is, up to the blanks between its words; no command runs,
    whatever [parse_rec] is. *)
Ltac eval_expr_tac :=
  intros st Herr Hc; unfold lil_eval_expr;
  destruct (ctrlc (lil_host st)) as [c w]; simpl in Hc; subst c;
  destruct st; simpl in Herr; subst; vm_compute; reflexivity.

(** C8.  The evaluator honours the operator precedence: with
    [CONFIG_LIL_FULL] enabled, no pending error and no interrupt,
    [lil_eval_expr] turns "1 + 2 * 3" into 7, and each of
    "1 + 2 * 3 == 7", "~(2*3)+1 == -6" and "1 || 0 && 0 == 1" into 1. *)
Theorem expr_operator_precedence (st : lil) :
  lil_err st = ERROR_NOERROR -> fst (ctrlc (lil_host st)) = false ->
  let st' := set_lil_host (snd (ctrlc (lil_host st))) st in
  lil_eval_expr ctrlc true parse_rec (Some "1 + 2 * 3") st
    = Some (Some "7", st') /\
  lil_eval_expr ctrlc true parse_rec (Some "1 + 2 * 3 == 7") st
    = Some (Some "1", st') /\
  lil_eval_expr ctrlc true parse_rec (Some "~(2*3)+1 == -6") st
    = Some (Some "1", st') /\
  lil_eval_expr ctrlc true parse_rec (Some "1 || 0 && 0 == 1") st
    = Some (Some "1", st').
Proof.
  intros Herr Hc st'. subst st'.
  repeat split; revert st Herr Hc; eval_expr_tac.
Qed.

End Precedence.

Lemma expr_operator_precedence_witness :
  lil_err test_lil = ERROR_NOERROR /\
  fst (test_ctrlc (lil_host test_lil)) = false /\
  (let st' := set_lil_host (snd (test_ctrlc (lil_host test_lil))) test_lil in
   lil_eval_expr test_ctrlc true (test_parse_rec 0) (Some "1 + 2 * 3")
     test_lil = Some (Some "7", st') /\
   lil_eval_expr test_ctrlc true (test_parse_rec 0) (Some "1 + 2 * 3 == 7")
     test_lil = Some (Some "1", st') /\
   lil_eval_expr test_ctrlc true (test_parse_rec 0) (Some "~(2*3)+1 == -6")
     test_lil = Some (Some "1", st') /\
   lil_eval_expr test_ctrlc true (test_parse_rec 0) (Some "1 || 0 && 0 == 1")
     test_lil = Some (Some "1", st')).
Proof.
  assert (H1 : lil_err test_lil = ERROR_NOERROR) by reflexivity.
  assert (H2 : fst (test_ctrlc (lil_host test_lil)) = false) by reflexivity.
  split; [exact H1|]. split; [exact H2|].
  exact (expr_operator_precedence test_ctrlc (test_parse_rec 0) test_lil H1 H2).
Defined.

(** ** Division by zero *)




(** ** The string map behaves as a map *)

Lemma cstr_idem (s : string) : cstr (cstr s) = cstr s.
Proof.
  induction s as [|c s IH]; simpl; [reflexivity|].
  destruct (is_char c NUL) eqn:C; simpl; [reflexivity|].
  rewrite C, IH. reflexivity.
Qed.

Lemma streq_refl (a : string) : streq a a = true.
Proof. unfold streq. apply String.eqb_refl. Qed.

Lemma streq_eq (a b : string) : streq a b = true <-> cstr a = cstr b.
Proof. unfold streq. apply String.eqb_eq. Qed.

Lemma streq_sym (a b : string) : streq a b = streq b a.
Proof. unfold streq. apply String.eqb_sym. Qed.

Lemma streq_cstr_l (a b : string) : streq (cstr a) b = streq a b.
Proof. unfold streq. rewrite cstr_idem. reflexivity. Qed.

Lemma streq_cstr_r (a b : string) : streq a (cstr b) = streq a b.
Proof. unfold streq. rewrite cstr_idem. reflexivity. Qed.

Lemma hm_hash_loop_cstr (h : Z) (k : string) :
  hm_hash_loop h (cstr k) = hm_hash_loop h k.
Proof.
  revert h. induction k as [|c k IH]; intros h; simpl; [reflexivity|].
  destruct (is_char c NUL) eqn:C; simpl; [reflexivity|].
  rewrite C. apply IH.
Qed.

Lemma hm_hash_streq (a b : string) : streq a b = true -> hm_hash a = hm_hash b.
Proof.
  intros H. apply streq_eq in H. unfold hm_hash.
  rewrite <- (hm_hash_loop_cstr _ a), <- (hm_hash_loop_cstr _ b).
  congruence.
Qed.

Lemma hm_cell_streq {V : Type} (hm hm' : hashmap V) (a b : string) :
  streq a b = true -> hm_cell hm a = hm_cell hm' b.
Proof. intros H. unfold hm_cell. rewrite (hm_hash_streq a b H). reflexivity. Qed.

Lemma cell_get_streq {V : Type} (cell : hashcell V) (a b : string) :
  streq a b = true -> cell_get cell a = cell_get cell b.
Proof.
  intros H. apply streq_eq in H.
  induction cell as [|[k v] cell IH]; simpl; [reflexivity|].
  unfold streq in *. rewrite H, IH. reflexivity.
Qed.

Lemma cell_get_put_same {V : Type} (cell : hashcell V) (k k' : string)
    (v : V) :
  streq k k' = true -> cell_get (cell_put cell k v) k' = Some v.
Proof.
  intros H. induction cell as [|[a x] cell IH]; simpl.
  - rewrite streq_cstr_r, streq_sym, H. reflexivity.
  - destruct (streq k a) eqn:E; simpl.
    + assert (streq k' a = true) as ->; [|reflexivity].
      apply streq_eq. apply streq_eq in H, E. congruence.
    + assert (streq k' a = false) as ->; [|exact IH].
      apply not_true_is_false. intros E'. apply streq_eq in H, E'.
      apply not_true_iff_false in E. apply E. apply streq_eq. congruence.
Qed.

Lemma cell_get_put_other {V : Type} (cell : hashcell V) (k k' : string)
    (v : V) :
  streq k k' = false -> cell_get (cell_put cell k v) k' = cell_get cell k'.
Proof.
  intros H. induction cell as [|[a x] cell IH]; simpl.
  - rewrite streq_cstr_r, streq_sym, H. reflexivity.
  - destruct (streq k a) eqn:E; simpl.
    + assert (streq k' a = false) as ->; [|reflexivity].
      apply not_true_is_false. intros E'. apply streq_eq in E, E'.
      apply not_true_iff_false in H. apply H. apply streq_eq. congruence.
    + rewrite IH. reflexivity.
Qed.

Lemma hm_get_put_same {V : Type} (hm : hashmap V) (k k' : string) (v : V) :
  streq k k' = true -> hm_get (hm_put hm k v) k' = Some v.
Proof.
  intros H. unfold hm_get, hm_put.
  rewrite <- (hm_cell_streq hm _ k k' H). unfold hashmap in *.
  rewrite lookup_insert_eq. simpl. apply cell_get_put_same. exact H.
Qed.

Lemma hm_get_put_other {V : Type} (hm : hashmap V) (k k' : string) (v : V) :
  streq k k' = false -> hm_get (hm_put hm k v) k' = hm_get hm k'.
Proof.
  intros H. unfold hm_get, hm_put.
  change (hm_cell (<[_ := _]> hm) k') with (hm_cell hm k').
  unfold hashmap in *.
  destruct (decide (hm_cell hm k = hm_cell hm k')) as [E|E].
  - rewrite E, lookup_insert_eq. simpl. rewrite <- E.
    rewrite cell_get_put_other by exact H. rewrite E. reflexivity.
  - rewrite lookup_insert_ne by exact E. reflexivity.
Qed.

Lemma hm_get_streq {V : Type} (hm : hashmap V) (a b : string) :
  streq a b = true -> hm_get hm a = hm_get hm b.
Proof.
  intros H. unfold hm_get. rewrite (hm_cell_streq hm hm a b H).
  apply cell_get_streq. exact H.
Qed.

Lemma hm_get_cstr {V : Type} (hm : hashmap V) (k : string) :
  hm_get hm (cstr k) = hm_get hm k.
Proof. apply hm_get_streq. rewrite streq_cstr_l. apply streq_refl. Qed.

Lemma hm_get_init {V : Type} (k : string) : hm_get (@hm_init V) k = None.
Proof. unfold hm_get, hm_init, hashmap. rewrite lookup_empty. reflexivity. Qed.

(** ** Variable and command lookup *)

Section Lookup.

Context {W : Type}.
Context {PB : print_buffer}.

Lemma deref_env_update_same (P : nat) (f : lil_env -> lil_env)
    (st : @lil W) :
  deref_env (update_env P f st) P = f (deref_env st P).
Proof. unfold deref_env, update_env. simpl. rewrite lookup_insert_eq. reflexivity. Qed.

Lemma deref_env_update_other (P a : nat) (f : lil_env -> lil_env)
    (st : @lil W) :
  a <> P -> deref_env (update_env P f st) a = deref_env st a.
Proof.
  intros H. unfold deref_env, update_env. simpl.
  rewrite lookup_insert_ne by congruence. reflexivity.
Qed.

Lemma strchr_spec (s : string) (c : ascii) (i : nat) :
  strchr s c = Some i ->
  cstr (poke s i NUL) = substring 0 i s /\ poke (poke s i NUL) i c = s.
Proof.
  revert i. induction s as [|a s IH]; intros i; simpl; [discriminate|].
  destruct (is_char a NUL) eqn:Ea; [discriminate|].
  destruct (is_char a c) eqn:Ec.
  - intros [= <-]. apply is_char_eq in Ec. subst. simpl. auto.
  - destruct (strchr s c) as [j|] eqn:Ej; [|discriminate].
    intros [= <-]. destruct (IH j eq_refl) as [H1 H2]. simpl.
    rewrite Ea, H1, H2. auto.
Qed.

(** For a name with a dot, [lil_find_cmd] looks up the prefix before the
    first dot and leaves the buffer of the name as it was. *)
Lemma lil_find_cmd_dot (st : @lil W) (name : string) (i : nat) :
  strchr name "." = Some i ->
  fst (lil_find_cmd st name) = hm_get (lil_cmdmap st) (substring 0 i name) /\
  snd (lil_find_cmd st name) = name.
Proof.
  intros H. unfold lil_find_cmd. rewrite H. simpl.
  destruct (strchr_spec name "." i H) as [H1 H2].
  rewrite H2. split; [|reflexivity].
  rewrite <- (hm_get_cstr _ (poke name i NUL)), H1. reflexivity.
Qed.

End Lookup.

(** The frame in the middle owns [x], and the lookup from the frame below
    does not see it. *)
Example lil_find_var_skips_parent :
  lil_envp test_nested = 3 /\
  env_parent (deref_env test_nested 3) = Some 2 /\
  env_parent (deref_env test_nested 2) = Some (lil_rootenv test_nested) /\
  lil_find_local_var test_nested 2 "x" = Some (2, 0) /\
  lil_find_var test_nested 3 "x" = None.
Proof. vm_compute. auto. Qed.

(** ** The cursor functions move the cursor only *)

Section Cursor.

Context {W : Type}.
Context {PB : print_buffer}.

Lemma set_lil_head_id (st : @lil W) : set_lil_head (lil_head st) st = st.
Proof. destruct st. reflexivity. Qed.

Lemma skip_while_head (p : ascii -> bool) (n : nat) (st : @lil W) :
  exists h, skip_while p n st = set_lil_head h st.
Proof.
  revert st. induction n as [|n IH]; intros st; simpl.
  - exists (lil_head st). symmetry. apply set_lil_head_id.
  - destruct (_ && _).
    + destruct (IH (lil_adv 1 st)) as [h ->]. exists h. reflexivity.
    + exists (lil_head st). symmetry. apply set_lil_head_id.
Qed.

Lemma skip_multiline_comment_head (n : nat) (st : @lil W) :
  exists h, skip_multiline_comment n st = set_lil_head h st.
Proof.
  revert st. induction n as [|n IH]; intros st; simpl.
  - exists (lil_head st). symmetry. apply set_lil_head_id.
  - destruct (_ <? _).
    + destruct (_ && _).
      * eexists. reflexivity.
      * destruct (IH (lil_adv 1 st)) as [h ->]. exists h. reflexivity.
    + exists (lil_head st). symmetry. apply set_lil_head_id.
Qed.

Lemma lil_skip_spaces_loop_head (n : nat) (st : @lil W) :
  exists h, lil_skip_spaces_loop n st = set_lil_head h st.
Proof.
  revert st. induction n as [|n IH]; intros st; simpl;
    try (exists (lil_head st); symmetry; apply set_lil_head_id).
  repeat match goal with
         | |- context [if ?c then _ else _] => destruct c
         end;
    try (exists (lil_head st); symmetry; apply set_lil_head_id).
  all: repeat match goal with
              | |- context [skip_multiline_comment ?k ?s] =>
                  destruct (skip_multiline_comment_head k s) as [? ->]
              | |- context [skip_while ?p ?k ?s] =>
                  destruct (skip_while_head p k s) as [? ->]
              end.
  all: match goal with
       | IH : forall s, exists h, lil_skip_spaces_loop ?k s = _
         |- context [lil_skip_spaces_loop ?k ?s] =>
           let h := fresh "h" in
           destruct (IH s) as [h ->]; exists h; reflexivity
       end.
Qed.

Lemma lil_skip_spaces_head (st : @lil W) :
  exists h, lil_skip_spaces st = set_lil_head h st.
Proof. apply lil_skip_spaces_loop_head. Qed.

End Cursor.

(** ** The error slot *)

Section ErrorSlot.

Context {W : Type}.
Context {PB : print_buffer}.
Variable ctrlc : W -> bool * W.
Variable env_set : string -> string -> W -> Z * W.
Variable env_get : string -> W -> option string.
Variable FULL : bool.
Variable extern_proc :
  (string -> nat -> bool -> @M W (option lil_value)) ->
  lil_func_proc_t -> list lil_value -> @M W (option lil_value).
Variable parse_rec : string -> nat -> bool -> @M W (option lil_value).

Lemma lil_parse_loop_error (n : nat) (val : option lil_value) (st : @lil W) :
  is_error (lil_err st) = true ->
  lil_parse_loop ctrlc env_set env_get FULL extern_proc parse_rec n val st =
  Some (val, st).
Proof.
  intros H. destruct n; simpl; rewrite H, andb_false_r; reflexivity.
Qed.

Lemma lil_parse_prologue_fields (code : string) (codelen : nat)
    (funclevel : bool) (st : @lil W) :
  let P := lil_parse_prologue code codelen funclevel st in
  lil_err P =
    (if lil_parse_depth st + 1 =? 1 then ERROR_NOERROR else lil_err st) /\
  lil_err_head P = lil_err_head st /\ lil_err_msg P = lil_err_msg st /\
  lil_cmd P = lil_cmd st /\ lil_host P = lil_host st /\
  lil_envp P = lil_envp st /\
  lil_parse_depth P = lil_parse_depth st + 1 /\
  (funclevel = false -> lil_envs P = lil_envs st).
Proof.
  unfold lil_parse_prologue.
  match goal with
  | |- context [lil_skip_spaces ?s] =>
      destruct (lil_skip_spaces_head s) as [h ->]
  end.
  destruct st as [c rc cl hd ig cm sc cmap ca inc dp ep re de em er eh ems
                    pd envs ne ho].
  destruct c, funclevel; cbn; destruct (pd + 1 =? 1); cbn;
    repeat split; auto; discriminate.
Qed.

Lemma lil_parse_cleanup_fields (sc : option string) (scl sh : nat)
    (funclevel : bool) (val : option lil_value) (s : @lil W) :
  let r := lil_parse_cleanup sc scl sh funclevel val s in
  (exists v, fst r = Some v) /\
  lil_err (snd r) = lil_err s /\ lil_err_head (snd r) = lil_err_head s /\
  lil_err_msg (snd r) = lil_err_msg s /\ lil_cmd (snd r) = lil_cmd s /\
  lil_host (snd r) = lil_host s /\ lil_envp (snd r) = lil_envp s /\
  lil_code (snd r) = sc /\ lil_clen (snd r) = scl /\ lil_head (snd r) = sh /\
  lil_parse_depth (snd r) = lil_parse_depth s - 1 /\
  (funclevel = false ->
   fst r = Some (lil_to_string val) /\ lil_envs (snd r) = lil_envs s).
Proof.
  unfold lil_parse_cleanup.
  destruct s as [c rc cl hd ig cm scm cmap ca inc dp ep re de em er eh ems
                   pd envs ne ho].
  destruct funclevel; cbn.
  - destruct (env_retval_set _); cbn; repeat split; eauto; discriminate.
  - destruct val; cbn; repeat split; eauto.
Qed.

(** C10.  What [lil_parse] returns is never the null pointer, whether or
    not the error slot has been set on the way. *)
Theorem lil_parse_never_null (fuel : nat) (code : string) (codelen : nat)
    (funclevel : bool) (st st' : @lil W) (r : option lil_value) :
  lil_parse ctrlc env_set env_get FULL extern_proc fuel code codelen
    funclevel st = Some (r, st') ->
  exists v, r = Some v.
Proof.
  destruct fuel; simpl; [discriminate|]. unfold lil_parse_body.
  destruct (lil_parse_loop _ _ _ _ _ _ _ _ _) as [[val s]|]; [|discriminate].
  unfold lil_parse_cleanup.
  destruct (_ && _); intros [= <- _]; eauto.
Qed.

End ErrorSlot.

(** C1 as stated fails: with the error of [error boom] still in the slot,
    neither read by [lil_error] nor caught by [try], the next outermost
    [lil_parse] resets the slot on entry and executes its commands. *)
Lemma error_slot_reset_by_outer_parse :
  is_error (lil_err test_after_error) = true /\
  lil_err_msg test_after_error = Some "boom" /\
  lil_parse_depth test_after_error = 0 /\
  exists st',
    test_parse 10 "set a 1; set a" false test_after_error =
      Some (Some "1", st') /\
    lil_err st' = ERROR_NOERROR.
Proof.
  repeat split; try reflexivity.
  eexists. split; [vm_compute; reflexivity|reflexivity].
Qed.

Lemma lil_parse_never_null_witness :
  test_parse_rec 40 "error boom" 0 false test_lil =
    Some (Some EmptyString, test_after_error) /\
  exists v, Some EmptyString = Some v.
Proof.
  assert (H : test_parse_rec 40 "error boom" 0 false test_lil =
              Some (Some EmptyString, test_after_error))
    by (vm_compute; reflexivity).
  split; [exact H|].
  exact (lil_parse_never_null test_ctrlc test_env_set test_env_get true
           test_extern 40 "error boom" 0 false test_lil test_after_error
           (Some EmptyString) H).
Defined.

(** A syntax error, an unknown command and an error raised by a command
    all come back with the error slot set and the empty value. *)
Example lil_parse_error_results :
  (exists st', test_parse 10 "quote {abc" false test_lil =
                 Some (Some EmptyString, st') /\
               lil_err st' = ERROR_UNBALANCED /\
               lil_err_msg st' = Some "expected }") /\
  (exists st', test_parse 10 "nosuch a b" false test_lil =
                 Some (Some EmptyString, st') /\
               lil_err st' = ERROR_DEFAULT /\
               lil_err_msg st' = Some "unknown function nosuch") /\
  (exists st', test_parse 10 "set a 1; error boom; set a 2" false test_lil =
                 Some (Some EmptyString, st') /\
               lil_err st' = ERROR_DEFAULT /\
               lil_err_msg st' = Some "boom").
Proof.
  repeat split; eexists; (split; [vm_compute; reflexivity|]); split;
    reflexivity.
Qed.

(** ** Unwinding with [return] *)

Section ReturnUnwind.

Context {W : Type}.
Context {PB : print_buffer}.
Variable ctrlc : W -> bool * W.
Variable env_set : string -> string -> W -> Z * W.
Variable env_get : string -> W -> option string.
Variable FULL : bool.
Variable extern_proc :
  (string -> nat -> bool -> @M W (option lil_value)) ->
  lil_func_proc_t -> list lil_value -> @M W (option lil_value).
Variable parse_rec : string -> nat -> bool -> @M W (option lil_value).

Lemma lil_find_cmd_name (st : @lil W) (name : string) :
  snd (lil_find_cmd st name) = name.
Proof.
  destruct (strchr name ".") as [i|] eqn:E.
  - apply (lil_find_cmd_dot st name i E).
  - unfold lil_find_cmd. rewrite E. reflexivity.
Qed.

Lemma cur_env_update (f : lil_env -> lil_env) (st : @lil W) :
  cur_env (update_env (lil_envp st) f st) = f (cur_env st).
Proof. unfold cur_env. apply deref_env_update_same. Qed.

(** What [fnc_return] does to the current frame. *)
Lemma fnc_return_spec (V : lil_value) (rest : lil_list) (st : @lil W) :
  exists st2,
    fnc_return (V :: rest) st = Some (Some V, st2) /\
    env_breakrun (cur_env st2) = true /\
    env_retval_set (cur_env st2) = true /\
    env_retval (cur_env st2) = Some V /\
    lil_envp st2 = lil_envp st /\ lil_err st2 = lil_err st /\
    lil_err_head st2 = lil_err_head st /\
    lil_cmd st2 = lil_cmd st /\ lil_host st2 = lil_host st /\
    lil_head st2 = lil_head st /\ lil_code st2 = lil_code st.
Proof.
  unfold fnc_return. cbn [length Nat.ltb Nat.leb lil_arg nth_error].
  eexists. split; [reflexivity|].
  rewrite !cur_env_update. repeat split; reflexivity.
Qed.

End ReturnUnwind.

(** A function returns the value of its first [return]; the commands after
    it, here an assignment to a global, do not run. *)
Example return_in_function :
  exists st',
    test_parse 10
      "func f {} {set global a 1; return 5; set global a 2}; set r [f]; quote $r $a"
      false test_lil = Some (Some "5 1", st').
Proof. eexists. vm_compute. reflexivity. Qed.

(** ** Watches *)

Section Watch.

Context {W : Type}.
Context {PB : print_buffer}.
Variable env_set : string -> string -> W -> Z * W.
Variable parse_rec : string -> nat -> bool -> @M W (option lil_value).

(** C6 (amended).  An assignment through [lil_set_var] that overwrites a
    variable with a watch evaluates the watch exactly once, with
    [funclevel] = 1 (as a function-level fragment), in the environment
    that owns the variable, discards the result and restores the current
    environment; with [LIL_SETVAR_LOCAL_NEW] nothing is evaluated, whatever
    [lil_parse] would do. *)
Theorem lil_set_var_runs_watch (name : string) (val : option lil_value)
    (st : @lil W) :
  (forall (local : lil_setvar) (p : var_ptr) (w : string),
     let env :=
       if lil_setvar_eqb local LIL_SETVAR_GLOBAL then lil_rootenv st
       else lil_envp st in
     let rooted := var_env (deref_var st p) =? lil_rootenv st in
     let st_h :=
       if rooted then
         set_lil_host
           (snd (env_set (cstr name) (cstr (lil_to_string val)) (lil_host st)))
           st
       else st in
     let st_u := update_var p (set_var_v (lil_clone_value val)) st_h in
     is_char (code_at name 0) NUL = false ->
     lil_setvar_eqb local LIL_SETVAR_LOCAL_NEW = false ->
     lil_find_var st env name = Some p ->
     lil_setvar_eqb local LIL_SETVAR_LOCAL_ONLY && rooted &&
       negb (var_env (deref_var st p) =? env) = false ->
     (rooted = true ->
      fst (env_set (cstr name) (cstr (lil_to_string val)) (lil_host st))
      = 0%Z) ->
     var_w (deref_var st_u p) = Some w ->
     lil_set_var env_set parse_rec name val local st =
     match
       parse_rec w 0 true (set_lil_envp (var_env (deref_var st_u p)) st_u)
     with
     | Some (_, st') => Some (Some p, set_lil_envp (lil_envp st) st')
     | None => None
     end) /\
  (forall env_set' parse_rec',
     lil_set_var env_set parse_rec name val LIL_SETVAR_LOCAL_NEW st =
     lil_set_var env_set' parse_rec' name val LIL_SETVAR_LOCAL_NEW st).
Proof.
  split.
  - intros local p w env rooted st_h st_u Hn Hl Hf Hx Hs Hw.
    unfold lil_set_var. fold env. rewrite Hn, Hl. cbn [negb].
    rewrite Hf. subst st_u st_h rooted. rewrite Hx.
    destruct (var_env (deref_var st p) =? lil_rootenv st).
    + destruct (env_set _ _ _) as [rc w'] eqn:E. cbn [fst snd] in *.
      rewrite (Hs eq_refl). cbn [Z.eqb negb]. cbv beta iota zeta.
      rewrite Hw. reflexivity.
    + cbn [Z.eqb negb]. cbv beta iota zeta. rewrite Hw. reflexivity.
  - intros env_set' parse_rec'. reflexivity.
Qed.

End Watch.

Lemma lil_set_var_runs_watch_witness :
  is_char (code_at "x" 0) NUL = false /\
  lil_find_var test_watched (lil_envp test_watched) "x" = Some (1, 0) /\
  var_w (deref_var test_watched (1, 0)) = Some "return 5" /\
  exists st',
    lil_set_var test_env_set (test_parse_rec 10) "x" (Some "2")
      LIL_SETVAR_LOCAL test_watched = Some (Some (1, 0), st') /\
    lil_envp st' = lil_envp test_watched.
Proof.
  split; [reflexivity|]. split; [vm_compute; reflexivity|].
  split; [vm_compute; reflexivity|].
  pose proof (lil_set_var_runs_watch test_env_set (test_parse_rec 10) "x"
                (Some "2") test_watched) as [T _].
  specialize (T LIL_SETVAR_LOCAL (1, 0) "return 5"). cbv zeta in T.
  do 4 (lapply T; [clear T; intros T|vm_compute; reflexivity]).
  lapply T; [clear T; intros T|intros _; vm_compute; reflexivity].
  lapply T; [clear T; intros T|vm_compute; reflexivity].
  eexists. split.
  - rewrite T. vm_compute. reflexivity.
  - vm_compute. reflexivity.
Defined.

(** C6 as stated fails on "as a non-function fragment": [lil_set_var]
    evaluates the watch with [funclevel] = 1.  With the watch [return 5],
    the code consumes the return value and leaves [breakrun] clear, whereas
    the evaluation as a non-function fragment leaves [breakrun] set on the
    owning environment. *)
Lemma watch_is_function_level :
  exists p st_code st_spec,
    lil_set_var test_env_set (test_parse_rec 10) "x" (Some "2")
      LIL_SETVAR_LOCAL test_watched = Some (Some p, st_code) /\
    watch_as_fragment (test_parse_rec 10) "return 5" p
      (update_var p (set_var_v (Some "2"))
         (set_lil_host
            (snd (test_env_set "x" "2" (lil_host test_watched)))
            test_watched)) = Some st_spec /\
    var_v (deref_var st_code p) = Some "2" /\
    var_v (deref_var st_spec p) = Some "2" /\
    env_breakrun (cur_env st_code) = false /\
    env_breakrun (cur_env st_spec) = true.
Proof.
  exists (1, 0). eexists. eexists.
  split; [vm_compute; reflexivity|].
  split; [vm_compute; reflexivity|].
  repeat split; vm_compute; reflexivity.
Qed.

(** The difference shows in a script: the [return] inside the watch does
    not end the function whose assignment triggered it. *)
Example watch_return_is_consumed :
  exists st',
    test_parse 10
      "func g {} {local x; watch x {return 5}; set x 2; quote after}; g"
      false test_lil = Some (Some "after", st').
Proof. eexists. vm_compute. reflexivity. Qed.

(** ** Argument binding *)

Section Binding.

Context {W : Type}.
Context {PB : print_buffer}.
Variable env_set : string -> string -> W -> Z * W.
Variable parse_rec : string -> nat -> bool -> @M W (option lil_value).

Lemma lil_set_var_new_empty (name : string) (val : option lil_value)
    (st : @lil W) :
  is_char (code_at name 0) NUL = true ->
  lil_set_var env_set parse_rec name val LIL_SETVAR_LOCAL_NEW st =
  Some (None, st).
Proof. intros H. unfold lil_set_var. rewrite H. reflexivity. Qed.

Lemma lil_set_var_new_spec (name : string) (val : option lil_value)
    (st : @lil W) :
  is_char (code_at name 0) NUL = false ->
  exists st',
    lil_set_var env_set parse_rec name val LIL_SETVAR_LOCAL_NEW st =
      Some (Some (lil_envp st, length (env_var (cur_env st))), st') /\
    lil_envp st' = lil_envp st /\ lil_empty st' = lil_empty st /\
    lil_cmd st' = lil_cmd st /\
    env_var (cur_env st') =
      (env_var (cur_env st) ++
       mk_var (cstr name) None (lil_envp st) val :: nil)%list /\
    forall name',
      lil_find_local_var st' (lil_envp st) name' =
      if streq name name'
      then Some (lil_envp st, length (env_var (cur_env st)))
      else lil_find_local_var st (lil_envp st) name'.
Proof.
  intros H. unfold lil_set_var. rewrite H. cbn [lil_setvar_eqb negb].
  eexists. split; [reflexivity|].
  split; [reflexivity|]. split; [reflexivity|]. split; [reflexivity|].
  split.
  - unfold cur_env.
    change (lil_envp (update_env (lil_envp st) _ st)) with (lil_envp st).
    rewrite deref_env_update_same. reflexivity.
  - intros name'. unfold lil_find_local_var.
    rewrite deref_env_update_same. cbn [env_varmap set_env_varmap].
    destruct (streq name name') eqn:E.
    + apply hm_get_put_same. exact E.
    + apply hm_get_put_other. exact E.
Qed.

Lemma run_cmd_bind_loop_spec (words : lil_list) (argnames : lil_list) :
  forall (i0 : nat) (st : @lil W),
  exists st' extra,
    run_cmd_bind_loop env_set parse_rec argnames i0 words st =
      Some (tt, st') /\
    lil_envp st' = lil_envp st /\ lil_empty st' = lil_empty st /\
    lil_cmd st' = lil_cmd st /\
    env_var (cur_env st') = (env_var (cur_env st) ++ extra)%list /\
    (forall name',
       (forall a, In a argnames -> streq a name' = false) ->
       lil_find_local_var st' (lil_envp st) name' =
       lil_find_local_var st (lil_envp st) name') /\
    (forall j name,
       nth_error argnames j = Some name ->
       is_char (code_at name 0) NUL = false ->
       (forall k name', j < k -> nth_error argnames k = Some name' ->
                        streq name' name = false) ->
       exists p,
         lil_find_local_var st' (lil_envp st) name = Some p /\
         var_v (deref_var st' p) = bound_value words (lil_empty st) (i0 + j)).
Proof.
  induction argnames as [|a rest IH]; intros i0 st.
  - exists st, nil. cbn [run_cmd_bind_loop].
    split; [reflexivity|]. split; [reflexivity|]. split; [reflexivity|].
    split; [reflexivity|]. split; [symmetry; apply app_nil_r|].
    split; [intros; reflexivity|].
    intros [|j] name Hj; discriminate.
  - cbn [run_cmd_bind_loop]. change (lil_to_string (Some a)) with a.
    destruct (is_char (code_at a 0) NUL) eqn:Ea.
    + rewrite lil_set_var_new_empty by exact Ea.
      destruct (IH (S i0) st) as (st' & extra & R & P1 & P2 & P3 & P4 & P5 & P6).
      exists st', extra. rewrite R.
      repeat split; auto.
      * intros name' Hn. apply P5. intros b Hb. apply Hn. right. exact Hb.
      * intros [|j] name Hj Hne Hl.
        { cbn in Hj. injection Hj as ->. congruence. }
        cbn in Hj.
        destruct (P6 j name Hj Hne) as (p & L & V).
        { intros k name' Hk Hk'. apply (Hl (S k) name'); [lia|exact Hk']. }
        exists p. split; [exact L|].
        rewrite V. f_equal. lia.
    + destruct (lil_set_var_new_spec a (bound_value words (lil_empty st) i0)
                  st Ea) as (st1 & S1 & Q1 & Q2 & Q3 & Q4 & Q5).
      unfold bound_value in S1. rewrite S1.
      destruct (IH (S i0) st1)
        as (st' & extra & R & P1 & P2 & P3 & P4 & P5 & P6).
      rewrite R.
      exists st', (mk_var (cstr a) None (lil_envp st)
                     (bound_value words (lil_empty st) i0) :: extra)%list.
      split; [reflexivity|].
      split; [congruence|]. split; [congruence|]. split; [congruence|].
      split.
      { rewrite P4, Q4. rewrite <- app_assoc. reflexivity. }
      split.
      { intros name' Hn. rewrite <- Q1, P5, Q1, Q5.
        - rewrite (Hn a) by (left; reflexivity). reflexivity.
        - intros b Hb. apply Hn. right. exact Hb. }
      intros [|j] name Hj Hne Hl.
      * cbn in Hj. injection Hj as ->.
        exists (lil_envp st, length (env_var (cur_env st))).
        split.
        { rewrite <- Q1, P5, Q1, Q5.
          - rewrite streq_refl. reflexivity.
          - intros b Hb. destruct (In_nth_error _ _ Hb) as [k Hk].
            apply (Hl (S k) b); [lia|exact Hk]. }
        unfold deref_var. cbn [fst snd].
        replace (deref_env st' (lil_envp st)) with (cur_env st')
          by (unfold cur_env; congruence).
        rewrite P4, Q4, <- app_assoc. cbn [app].
        rewrite nth_middle. cbn [var_v]. f_equal. lia.
      * cbn in Hj.
        destruct (P6 j name Hj Hne) as (p & L & V).
        { intros k name' Hk Hk'. apply (Hl (S k) name'); [lia|exact Hk']. }
        exists p. rewrite <- Q1. split; [exact L|].
        rewrite V, Q2. f_equal. lia.
Qed.

End Binding.

Section BindingClaim.

Context {W : Type}.
Context {PB : print_buffer}.
Variable env_set : string -> string -> W -> Z * W.
Variable parse_rec : string -> nat -> bool -> @M W (option lil_value).

(** C5 (amended).  In the frame of a script function: when the declared
    list is the single name [args], that variable is bound to the whole
    command line, the word that names the function included, serialized
    with escaping; otherwise every declared name that is not empty (and is
    not declared again further right) is bound to the caller argument at
    its position, and to the shared empty value when the caller supplied
    too few. *)
Theorem run_cmd_binds_arguments (cmd : nat) (words : lil_list)
    (st : @lil W) :
  let argnames := default nil (func_argnames (deref_func st cmd)) in
  let is_args :=
    (length argnames =? 1) &&
    streq (lil_to_string (lil_list_get argnames 0)) "args" in
  (is_args = true ->
   exists st' p,
     run_cmd_bind env_set parse_rec cmd words st = Some (tt, st') /\
     lil_find_local_var st' (lil_envp st') "args" = Some p /\
     var_v (deref_var st' p) = Some (lil_list_to_value words true)) /\
  (is_args = false ->
   exists st',
     run_cmd_bind env_set parse_rec cmd words st = Some (tt, st') /\
     forall j name,
       nth_error argnames j = Some name ->
       is_char (code_at name 0) NUL = false ->
       (forall k name', j < k -> nth_error argnames k = Some name' ->
                        streq name' name = false) ->
       exists p,
         lil_find_local_var st' (lil_envp st') name = Some p /\
         var_v (deref_var st' p) =
         if j <? length words - 1 then lil_list_get words (j + 1)
         else Some (lil_empty st)).
Proof.
  intros argnames is_args. split; intros H; unfold run_cmd_bind;
    fold argnames; fold is_args; rewrite H.
  - destruct (lil_set_var_new_spec env_set parse_rec "args"
                (Some (lil_list_to_value words true)) st eq_refl)
      as (st' & S1 & Q1 & Q2 & Q3 & Q4 & Q5).
    rewrite S1.
    exists st', (lil_envp st, length (env_var (cur_env st))).
    split; [reflexivity|]. rewrite Q1. split.
    + rewrite Q5, streq_refl. reflexivity.
    + unfold deref_var. cbn [fst snd].
      replace (deref_env st' (lil_envp st)) with (cur_env st')
        by (unfold cur_env; congruence).
      rewrite Q4, nth_middle. reflexivity.
  - destruct (run_cmd_bind_loop_spec env_set parse_rec words argnames 0 st)
      as (st' & extra & R & P1 & P2 & P3 & P4 & P5 & P6).
    exists st'. split; [exact R|].
    intros j name Hj Hne Hl. rewrite P1.
    destruct (P6 j name Hj Hne Hl) as (p & L & V).
    exists p. split; [exact L|]. exact V.
Qed.

End BindingClaim.

Lemma run_cmd_binds_arguments_witness :
  func_argnames (deref_func test_frame_f 49) = Some ("args" :: nil) /\
  exists st' p,
    run_cmd_bind test_env_set (test_parse_rec 0) 49
      ("f" :: "a" :: "b c" :: nil) test_frame_f = Some (tt, st') /\
    lil_find_local_var st' (lil_envp st') "args" = Some p /\
    var_v (deref_var st' p) =
      Some (lil_list_to_value ("f" :: "a" :: "b c" :: nil) true).
Proof.
  split; [vm_compute; reflexivity|].
  pose proof (run_cmd_binds_arguments test_env_set (test_parse_rec 0) 49
                ("f" :: "a" :: "b c" :: nil) test_frame_f) as T.
  cbv zeta in T. destruct T as [T _].
  lapply T; [clear T; intros T|vm_compute; reflexivity].
  exact T.
Defined.

(** C5 as stated fails when "the entire caller argument list" is read as
    the arguments of the call: for the call [f a {b c}] the variable
    [args] holds [f a {b c}], the name of the function first, and not the
    serialization [a {b c}] of the two arguments. *)
Lemma args_hold_the_function_name :
  exists st' p,
    run_cmd_bind test_env_set (test_parse_rec 0) 49
      ("f" :: "a" :: "b c" :: nil) test_frame_f = Some (tt, st') /\
    lil_find_local_var st' (lil_envp st') "args" = Some p /\
    var_v (deref_var st' p) = Some "f a {b c}" /\
    lil_list_to_value ("a" :: "b c" :: nil) true = "a {b c}" /\
    var_v (deref_var st' p) <>
      Some (lil_list_to_value ("a" :: "b c" :: nil) true).
Proof.
  eexists. eexists.
  split; [vm_compute; reflexivity|].
  split; [vm_compute; reflexivity|].
  split; [vm_compute; reflexivity|].
  split; [vm_compute; reflexivity|].
  vm_compute. discriminate.
Qed.

(** Through the interpreter: [args] starts with the name of the function,
    and a missing positional argument is the empty value. *)
Example args_in_script :
  (exists st',
     test_parse 10 "func f args {quote $args}; f a {b c}" false test_lil =
       Some (Some "f a {b c}", st')) /\
  (exists st',
     test_parse 10 "func g {x y} {quote ${x}|${y}|}; g 1" false test_lil =
       Some (Some "1||", st')).
Proof. split; eexists; vm_compute; reflexivity. Qed.

(** ** Serialization and re-parsing of lists *)

Lemma string_app_nil_l (s : string) : EmptyString ++ s = s.
Proof. reflexivity. Qed.

Lemma string_app_cons (c : ascii) (a b : string) :
  String c a ++ b = String c (a ++ b).
Proof. reflexivity. Qed.

Ltac sapp := rewrite ?string_app_cons, ?string_app_nil_l in *.

Lemma string_app_nil_r (s : string) : s ++ EmptyString = s.
Proof. induction s; sapp; congruence. Qed.

Lemma string_app_assoc (a b c : string) : (a ++ b) ++ c = a ++ b ++ c.
Proof. induction a; sapp; congruence. Qed.

Lemma string_length_app (a b : string) :
  String.length (a ++ b) = String.length a + String.length b.
Proof. induction a; sapp; simpl; congruence. Qed.

Lemma code_at_app (a b : string) (i : nat) :
  code_at (a ++ b) (String.length a + i) = code_at b i.
Proof. unfold code_at. induction a; sapp; simpl; auto. Qed.

Lemma substring_app (a b c : string) :
  substring (String.length a) (String.length b) (a ++ b ++ c) = b.
Proof.
  induction a; sapp; simpl; auto.
  induction b; sapp; simpl.
  - destruct c; reflexivity.
  - congruence.
Qed.

Lemma bare_char (c : ascii) :
  bare c = true ->
  is_char c "$" = false /\ is_char c "{" = false /\ is_char c "[" = false /\
  is_char c DQUOTE = false /\ is_char c SQUOTE = false /\
  islilspecial c = false /\ isspace c = false /\ word_start c = true.
Proof.
  destruct c as [[|] [|] [|] [|] [|] [|] [|] [|]]; vm_compute; intros H;
    try discriminate H; repeat split.
Qed.

Section Position.

Context {W : Type}.
Context {PB : print_buffer}.

Lemma set_lil_head_twice (h k : nat) (st : @lil W) :
  set_lil_head h (set_lil_head k st) = set_lil_head h st.
Proof. reflexivity. Qed.

Lemma lil_head_set (h : nat) (st : @lil W) : lil_head (set_lil_head h st) = h.
Proof. reflexivity. Qed.

Lemma at_text_cur (st : @lil W) (c : ascii) (suf : string) :
  at_text st (String c suf) ->
  lil_cur st = c /\ (lil_head st <? lil_clen st) = true.
Proof.
  intros (pre & B & H & C). split.
  - unfold lil_cur, lil_at. rewrite B, H.
    rewrite <- (Nat.add_0_r (String.length pre)). apply code_at_app.
  - apply Nat.ltb_lt. rewrite H, C. simpl. lia.
Qed.

Lemma at_text_end (st : @lil W) :
  at_text st EmptyString -> (lil_head st <? lil_clen st) = false.
Proof.
  intros (pre & B & H & C). apply Nat.ltb_ge. rewrite H, C. simpl. lia.
Qed.

Lemma at_text_left (st : @lil W) (suf : string) :
  at_text st suf -> lil_clen st - lil_head st = String.length suf.
Proof. intros (pre & B & H & C). lia. Qed.

Lemma at_text_skip (st : @lil W) (a suf : string) (k : nat) :
  at_text st (a ++ suf) -> k = lil_head st + String.length a ->
  at_text (set_lil_head k st) suf.
Proof.
  intros (pre & B & H & C) ->. exists (pre ++ a).
  change (lil_buf (set_lil_head (lil_head st + String.length a) st))
    with (lil_buf st).
  change (lil_clen (set_lil_head (lil_head st + String.length a) st))
    with (lil_clen st).
  rewrite lil_head_set, string_app_assoc, !string_length_app.
  rewrite string_length_app in C. repeat split; auto; lia.
Qed.

Lemma at_text_adv (st : @lil W) (c : ascii) (suf : string) :
  at_text st (String c suf) -> at_text (lil_adv 1 st) suf.
Proof.
  intros H. apply (at_text_skip st (String c EmptyString) suf); auto.
Qed.

Lemma skip_while_run (p : ascii -> bool) (w : string) :
  forall (suf : string) (n : nat) (st : @lil W),
    at_text st (w ++ suf) ->
    string_forallb p w = true ->
    match suf with
    | EmptyString => True
    | String c _ => p c = false
    end ->
    String.length w <= n ->
    skip_while p n st = set_lil_head (lil_head st + String.length w) st.
Proof.
  induction w as [|c w IH]; intros suf n st A F S L.
  - simpl in *. rewrite Nat.add_0_r, set_lil_head_id.
    destruct n; [reflexivity|]. simpl.
    destruct suf as [|d suf].
    + rewrite (at_text_end st A). reflexivity.
    + destruct (at_text_cur st d suf A) as [-> ->]. rewrite S. reflexivity.
  - simpl in F. apply andb_prop in F. destruct F as [Fc F].
    destruct n as [|n]; [simpl in L; lia|]. simpl in L.
    cbn [skip_while].
    destruct (at_text_cur st c (w ++ suf) A) as [-> ->]. rewrite Fc.
    cbn [andb].
    rewrite (IH suf n (lil_adv 1 st)); auto; [|eapply at_text_adv; eauto|lia].
    unfold lil_adv. rewrite set_lil_head_twice, lil_head_set.
    f_equal. simpl. lia.
Qed.

Lemma balanced_scan_chunk (c0 : string) :
  forall (suf : string) (n : nat) (val : lil_value) (st : @lil W),
    at_text st (c0 ++ String "}" suf) ->
    string_forallb nobrace c0 = true ->
    String.length c0 < n ->
    balanced_scan "{" "}" n 1 val st =
    (0, val ++ c0, set_lil_head (lil_head st + S (String.length c0)) st).
Proof.
  induction c0 as [|c w IH]; intros suf n val st A F L.
  - destruct n as [|n]; [lia|]. simpl in A. cbn [balanced_scan].
    sapp. destruct (at_text_cur st _ _ A) as [-> ->].
    rewrite string_app_nil_r. reflexivity.
  - simpl in F. apply andb_prop in F. destruct F as [Fc F].
    unfold nobrace in Fc. apply andb_prop in Fc. destruct Fc as [F1 F2].
    apply negb_true_iff in F1, F2.
    destruct n as [|n]; [lia|]. simpl in L, A.
    cbn [balanced_scan].
    destruct (at_text_cur st _ _ A) as [-> ->]. rewrite F1, F2.
    rewrite (IH suf n _ (lil_adv 1 st)); auto;
      [|eapply at_text_adv; eauto|lia].
    unfold lil_adv, lil_append_char.
    rewrite set_lil_head_twice, lil_head_set, string_app_assoc.
    f_equal. f_equal. simpl. lia.
Qed.

End Position.

Section Words.

Context {W : Type}.
Context {PB : print_buffer}.
Variable parse_rec : string -> nat -> bool -> @M W (option lil_value).

Lemma quoted_scan_escape (d b : @M W (option lil_value)) (x : ascii)
    (suf : string) (n : nat) (val : lil_value) (st : @lil W) :
  at_text st (String "\" (String x (String DQUOTE suf))) ->
  2 <= n ->
  quoted_scan d b DQUOTE n val st =
  Some ((true, val ++ String (unescape x) EmptyString),
        set_lil_head (lil_head st + 3) st).
Proof.
  intros A L. destruct n as [|[|n]]; try lia.
  cbn [quoted_scan].
  destruct (at_text_cur st _ _ A) as [C1 ->]. rewrite C1.
  change (is_char "\" "[" || is_char "\" "$") with false.
  change (is_char "\" "\") with true. cbv iota.
  pose proof (at_text_adv st _ _ A) as A1.
  destruct (at_text_cur _ _ _ A1) as [C2 L2].
  pose proof (at_text_adv _ _ _ A1) as A2.
  destruct (at_text_cur _ _ _ A2) as [C3 L3].
  rewrite L3, C3, C2.
  change (is_char DQUOTE "[" || is_char DQUOTE "$") with false.
  change (is_char DQUOTE "\") with false.
  change (is_char DQUOTE DQUOTE) with true. cbv iota.
  unfold lil_adv, lil_append_char.
  rewrite !set_lil_head_twice, !lil_head_set.
  do 3 f_equal. lia.
Qed.

Lemma lil_skip_spaces_loop_stay (n : nat) (st : @lil W) :
  ((lil_head st <? lil_clen st) = true -> word_start (lil_cur st) = true) ->
  lil_skip_spaces_loop n st = st.
Proof.
  intros H. destruct n as [|n]; [reflexivity|]. cbn [lil_skip_spaces_loop].
  destruct (lil_head st <? lil_clen st); [|reflexivity].
  specialize (H eq_refl). unfold word_start in H.
  apply andb_prop in H. destruct H as [H H4].
  apply andb_prop in H. destruct H as [H H3].
  apply andb_prop in H. destruct H as [H1 H2].
  apply negb_true_iff in H1, H2, H3, H4.
  rewrite H1, H2, H3, H4. reflexivity.
Qed.

Lemma lil_skip_spaces_stay (st : @lil W) (c : ascii) (suf : string) :
  at_text st (String c suf) -> word_start c = true ->
  lil_skip_spaces st = st.
Proof.
  intros A H. apply lil_skip_spaces_loop_stay. intros _.
  destruct (at_text_cur st _ _ A) as [-> _]. exact H.
Qed.

Lemma lil_skip_spaces_blank (st : @lil W) (c : ascii) (suf : string) :
  at_text st (String " " (String c suf)) -> word_start c = true ->
  lil_skip_spaces st = lil_adv 1 st.
Proof.
  intros A H. unfold lil_skip_spaces. rewrite (at_text_left st _ A).
  change (String.length (String " " (String c suf)))
    with (S (String.length (String c suf))).
  generalize (String.length (String c suf)). intros m.
  cbn [lil_skip_spaces_loop].
  destruct (at_text_cur st _ _ A) as [-> ->].
  change (is_char " " "#") with false.
  change (is_char " " "\") with false.
  change (eolchar " ") with false.
  change (isspace " ") with true. cbv iota. cbn [andb].
  apply lil_skip_spaces_loop_stay. intros _.
  destruct (at_text_cur _ _ _ (at_text_adv st _ _ A)) as [-> _]. exact H.
Qed.

(** A braced entry, up to the brace that closes it *)
Lemma next_word_braced (c0 suf : string) (st : @lil W) :
  at_text st (String "{" (c0 ++ String "}" suf)) ->
  string_forallb nobrace c0 = true ->
  next_word parse_rec st =
  Some (c0, set_lil_head (lil_head st + S (S (String.length c0))) st).
Proof.
  intros A F. unfold next_word. cbn [next_word_n].
  rewrite (lil_skip_spaces_stay st _ _ A eq_refl).
  destruct (at_text_cur st _ _ A) as [-> _].
  change (is_char "{" "$") with false. change (is_char "{" "{") with true.
  cbv iota.
  pose proof (at_text_adv st _ _ A) as A1.
  rewrite (balanced_scan_chunk c0 suf _ _ _ A1 F).
  - cbn [Nat.eqb negb]. cbv iota beta. unfold alloc_value, lil_adv.
    rewrite string_app_nil_l, set_lil_head_twice, lil_head_set.
    do 3 f_equal. lia.
  - rewrite (at_text_left _ _ A1), string_length_app. simpl. lia.
Qed.

(** The quoted escape of a brace *)
Lemma next_word_escape (x : ascii) (suf : string) (st : @lil W) :
  at_text st (String DQUOTE (String "\" (String x (String DQUOTE suf)))) ->
  next_word parse_rec st =
  Some (String (unescape x) EmptyString, set_lil_head (lil_head st + 4) st).
Proof.
  intros A. unfold next_word. cbn [next_word_n].
  rewrite (lil_skip_spaces_stay st _ _ A eq_refl).
  destruct (at_text_cur st _ _ A) as [-> _].
  change (is_char DQUOTE "$") with false.
  change (is_char DQUOTE "{") with false.
  change (is_char DQUOTE "[") with false.
  change (is_char DQUOTE DQUOTE || is_char DQUOTE SQUOTE) with true.
  cbv iota.
  pose proof (at_text_adv st _ _ A) as A1.
  rewrite (quoted_scan_escape _ _ x suf _ _ _ A1).
  - cbn [fst snd negb]. cbv iota beta. unfold alloc_value, lil_adv.
    rewrite string_app_nil_l, set_lil_head_twice, lil_head_set.
    do 3 f_equal. lia.
  - rewrite (at_text_left _ _ A1). simpl. lia.
Qed.

(** A word without punctuation or blanks *)
Lemma next_word_bare (c : ascii) (w suf : string) (st : @lil W) :
  at_text st (String c w ++ suf) ->
  string_forallb bare (String c w) = true ->
  entry_end suf ->
  next_word parse_rec st =
  Some (String c w, set_lil_head (lil_head st + S (String.length w)) st).
Proof.
  intros A F E. unfold next_word. cbn [next_word_n].
  pose proof F as F'. cbn [string_forallb] in F'.
  apply andb_prop in F'. destruct F' as [Fc _].
  destruct (bare_char c Fc) as (B1 & B2 & B3 & B4 & B5 & B6 & B7 & B8).
  rewrite string_app_cons in A.
  rewrite (lil_skip_spaces_stay st _ _ A B8).
  destruct (at_text_cur st _ _ A) as [-> _].
  rewrite B1, B2, B3, B4, B5. cbn [orb]. cbv iota.
  rewrite <- string_app_cons in A.
  rewrite (skip_while_run _ (String c w) suf _ st A).
  - cbv beta iota. unfold alloc_value_len.
    change (lil_buf (set_lil_head _ st)) with (lil_buf st).
    rewrite lil_head_set.
    destruct A as (pre & B & H & C). rewrite B, H.
    replace (String.length pre + String.length (String c w) -
             String.length pre) with (String.length (String c w)) by lia.
    rewrite substring_app. reflexivity.
  - clear - F. induction (String c w) as [|a s IH]; [reflexivity|].
    cbn [string_forallb] in *. apply andb_prop in F. destruct F as [Fa F].
    destruct (bare_char a Fa) as (_ & _ & _ & _ & _ & -> & -> & _).
    cbn [negb andb]. auto.
  - destruct suf as [|d suf]; [exact I|]. simpl in E. subst d. reflexivity.
  - rewrite (at_text_left st _ A), string_length_app. lia.
Qed.

End Words.

Ltac snorm :=
  repeat (rewrite string_app_assoc || rewrite string_app_cons ||
          rewrite string_app_nil_l).

Ltac hnorm := rewrite ?set_lil_head_twice, ?lil_head_set in *.

Lemma escape_bytes_acc (d : string) :
  forall val, escape_bytes val d = val ++ escape_bytes EmptyString d.
Proof.
  induction d as [|c r IH]; intros val; cbn [escape_bytes].
  - symmetry. apply string_app_nil_r.
  - unfold lil_append_string, lil_append_char.
    change (cstr brace_open_escape) with brace_open_escape.
    change (cstr brace_close_escape) with brace_close_escape.
    destruct (is_char c "{"); [|destruct (is_char c "}")].
    all: rewrite IH; symmetry; rewrite IH; symmetry.
    all: rewrite string_app_nil_l, string_app_assoc; reflexivity.
Qed.

Lemma chunks_text (d : string) :
  escape_bytes EmptyString d ++ "}" =
  fst (chunks d) ++ String "}" (tail_ser (snd (chunks d))).
Proof.
  induction d as [|c r IH]; [reflexivity|].
  cbn [escape_bytes chunks]. destruct (chunks r) as [c0 l].
  cbn [fst snd] in IH.
  unfold lil_append_string, lil_append_char.
  change (cstr brace_open_escape) with brace_open_escape.
  change (cstr brace_close_escape) with brace_close_escape.
  rewrite !string_app_nil_l.
  destruct (is_char c "{") eqn:E1; [|destruct (is_char c "}") eqn:E2].
  all: cbn [orb fst snd tail_ser]; rewrite escape_bytes_acc.
  all: rewrite string_app_assoc, IH; try rewrite E1; reflexivity.
Qed.

Lemma chunks_raw (d : string) :
  d = fst (chunks d) ++ tail_raw (snd (chunks d)).
Proof.
  induction d as [|c r IH]; [reflexivity|].
  cbn [chunks]. destruct (chunks r) as [c0 l]. cbn [fst snd] in IH.
  destruct (is_char c "{" || is_char c "}"); cbn [fst snd tail_raw].
  - rewrite string_app_nil_l. congruence.
  - rewrite string_app_cons. congruence.
Qed.

Lemma chunks_nobrace (d : string) :
  string_forallb nobrace (fst (chunks d)) = true /\
  Forall brace_chunk (snd (chunks d)).
Proof.
  induction d as [|c r [IH1 IH2]]; [split; [reflexivity|constructor]|].
  cbn [chunks]. destruct (chunks r) as [c0 l]. cbn [fst snd] in *.
  destruct (is_char c "{" || is_char c "}") eqn:E; cbn [fst snd].
  - split; [reflexivity|]. constructor; [split; assumption|assumption].
  - split; [|assumption]. cbn [string_forallb]. rewrite IH1.
    unfold nobrace. apply orb_false_elim in E. destruct E as [-> ->].
    reflexivity.
Qed.

Lemma tail_ser_length (l : list (ascii * string)) :
  2 * length l <= String.length (tail_ser l).
Proof.
  induction l as [|[b c] l IH]; [simpl; lia|].
  cbn [tail_ser length String.length]. rewrite string_length_app.
  cbn [String.length]. lia.
Qed.

Lemma unescape_brace (b : ascii) :
  (is_char b "{" || is_char b "}") = true ->
  unescape (if is_char b "{" then "o" else "c") = b.
Proof.
  intros H. destruct (is_char b "{") eqn:E.
  - apply is_char_eq in E. subst b. reflexivity.
  - cbn [orb] in H. apply is_char_eq in H. subst b. reflexivity.
Qed.

Lemma needs_escape_bare (v : string) :
  needs_escape v = false -> string_forallb nonul v = true ->
  string_forallb bare v = true /\ exists c w, v = String c w.
Proof.
  unfold needs_escape. destruct v as [|c w]; [discriminate|].
  intros H N. split; [|eauto].
  change (code_at (String c w) 0) with c in H.
  destruct (is_char c NUL); [discriminate|].
  revert H N. generalize (String c w). clear. intros s.
  induction s as [|a s IH]; [reflexivity|].
  cbn [needs_escape_loop string_forallb]. unfold nonul at 1.
  destruct (is_char a NUL); [discriminate 2|].
  unfold bare at 1. destruct (ispunct a || isspace a); [discriminate|].
  cbn [negb andb]. exact IH.
Qed.

Lemma elem_text_start (v : lil_value) :
  string_forallb nonul v = true ->
  exists c s, elem_text v = String c s /\ word_start c = true.
Proof.
  intros N. unfold elem_text. destruct (needs_escape v) eqn:E.
  - eexists. eexists. split; reflexivity.
  - destruct (needs_escape_bare v E N) as [B (c & w & ->)].
    exists c, w. split; [reflexivity|].
    cbn [string_forallb] in B. apply andb_prop in B. destruct B as [B _].
    apply (bare_char c B).
Qed.

Lemma list_text_loop (r : lil_list) :
  forall i val,
    lil_list_to_value_loop true (S i) r val = val ++ list_tail_text r.
Proof.
  induction r as [|v r IH]; intros i val.
  - symmetry. apply string_app_nil_r.
  - cbn [lil_list_to_value_loop list_tail_text Nat.eqb lil_to_string].
    rewrite IH. unfold elem_text, lil_append_char, lil_append_val.
    destruct (needs_escape v).
    + rewrite escape_bytes_acc. snorm. reflexivity.
    + snorm. reflexivity.
Qed.

Lemma list_text (v : lil_value) (r : lil_list) :
  lil_list_to_value (v :: r) true = elem_text v ++ list_tail_text r.
Proof.
  unfold lil_list_to_value.
  cbn [lil_list_to_value_loop Nat.eqb lil_to_string].
  rewrite list_text_loop. unfold elem_text, lil_append_char, lil_append_val.
  change (alloc_value None) with EmptyString.
  destruct (needs_escape v).
  - rewrite escape_bytes_acc. snorm. reflexivity.
  - snorm. reflexivity.
Qed.

Section Roundtrip.

Context {W : Type}.
Context {PB : print_buffer}.
Variable parse_rec : string -> nat -> bool -> @M W (option lil_value).

Lemma entry_end_stops (st : @lil W) (suf : string) :
  at_text st suf -> entry_end suf ->
  (lil_head st <? lil_clen st) && negb (eolchar (lil_cur st)) &&
  negb (isspace (lil_cur st)) && negb (is_error (lil_err st)) = false.
Proof.
  intros A E. destruct suf as [|c suf].
  - rewrite (at_text_end st A). reflexivity.
  - simpl in E. subst c. destruct (at_text_cur st _ _ A) as [-> ->].
    reflexivity.
Qed.

Lemma substitute_word_braced (l : list (ascii * string)) :
  forall (c0 suf : string) (n : nat) (w : lil_value) (st : @lil W),
    at_text st (String "{" (c0 ++ String "}" (tail_ser l ++ suf))) ->
    string_forallb nobrace c0 = true ->
    Forall brace_chunk l ->
    entry_end suf ->
    lil_err st = ERROR_NOERROR ->
    2 * length l < n ->
    substitute_word parse_rec n w st =
    Some (Some (w ++ c0 ++ tail_raw l),
          set_lil_head
            (lil_head st + S (S (String.length c0)) +
             String.length (tail_ser l)) st).
Proof.
  induction l as [|[b c] l IH]; intros c0 suf n w st A F FL E He Ln.
  - destruct n as [|n]; [simpl in Ln; lia|].
    cbn [substitute_word]. rewrite (next_word_braced parse_rec c0 _ st A F).
    cbv beta iota.
    assert (A1 : at_text
                   (set_lil_head (lil_head st + S (S (String.length c0))) st)
                   suf).
    { apply (at_text_skip st (String "{" (c0 ++ String "}" EmptyString)) suf).
      - snorm. exact A.
      - cbn [String.length]. rewrite string_length_app.
        cbn [String.length]. lia. }
    pose proof (entry_end_stops _ suf A1 E) as S1. hnorm.
    rewrite (proj2 (Nat.eqb_neq _ _)) by lia. rewrite S1.
    unfold lil_append_val. cbn [tail_raw tail_ser String.length].
    rewrite string_app_nil_r, Nat.add_0_r. reflexivity.
  - destruct n as [|[|n]]; try (simpl in Ln; lia).
    inversion FL as [|x l' [Fb Fc] FL']. subst x l'. cbn [fst snd] in Fb, Fc.
    cbn [substitute_word]. rewrite (next_word_braced parse_rec c0 _ st A F).
    cbv beta iota.
    set (x := if is_char b "{" then "o"%char else "c"%char) in *.
    assert (A1 : at_text
                   (set_lil_head (lil_head st + S (S (String.length c0))) st)
                   (String DQUOTE (String "\" (String x (String DQUOTE
                      (String "{" (c ++ String "}" (tail_ser l ++ suf)))))))).
    { apply (at_text_skip st (String "{" (c0 ++ String "}" EmptyString))).
      - cbn [tail_ser] in A. fold x in A. snorm.
        repeat (rewrite string_app_assoc in A ||
                rewrite string_app_cons in A).
        exact A.
      - cbn [String.length]. rewrite string_length_app.
        cbn [String.length]. lia. }
    destruct (at_text_cur _ _ _ A1) as [C1 L1].
    pose proof (next_word_escape parse_rec x _ _ A1) as NW.
    assert (A2 : at_text
                   (set_lil_head
                      (lil_head st + S (S (String.length c0)) + 4) st)
                   (String "{" (c ++ String "}" (tail_ser l ++ suf)))).
    { pose proof (at_text_skip _
                    (String DQUOTE (String "\" (String x
                       (String DQUOTE EmptyString)))) _
                    (lil_head st + S (S (String.length c0)) + 4) A1) as T.
      apply T. reflexivity. }
    destruct (at_text_cur _ _ _ A2) as [C2 L2].
    pose proof (IH c suf n
                  ((w ++ c0) ++ String (unescape x) EmptyString) _ A2 Fc FL'
                  E He) as IH'.
    hnorm.
    rewrite (proj2 (Nat.eqb_neq _ _)) by lia. rewrite L1, C1.
    change (lil_err (set_lil_head _ st)) with (lil_err st). rewrite He.
    change (eolchar DQUOTE) with false. change (isspace DQUOTE) with false.
    cbn [negb andb is_error]. cbv iota.
    rewrite NW. cbv beta iota. hnorm.
    rewrite (proj2 (Nat.eqb_neq _ _)) by lia. rewrite L2, C2.
    change (lil_err (set_lil_head _ st)) with (lil_err st). rewrite He.
    change (eolchar "{") with false. change (isspace "{") with false.
    cbn [negb andb is_error]. cbv iota.
    unfold lil_append_val. rewrite IH'; [|simpl in Ln; lia].
    subst x. rewrite (unescape_brace b Fb).
    cbn [tail_raw tail_ser String.length]. snorm.
    rewrite !string_length_app. cbn [String.length].
    do 3 f_equal. lia.
Qed.

Lemma substitute_word_bare (c : ascii) (w suf : string) (n : nat)
    (st : @lil W) :
  at_text st (String c w ++ suf) ->
  string_forallb bare (String c w) = true ->
  entry_end suf ->
  substitute_word parse_rec (S n) EmptyString st =
  Some (Some (String c w),
        set_lil_head (lil_head st + S (String.length w)) st).
Proof.
  intros A F E. cbn [substitute_word].
  rewrite (next_word_bare parse_rec c w suf st A F E).
  cbv beta iota.
  assert (A1 : at_text (set_lil_head (lil_head st + S (String.length w)) st)
                 suf).
  { apply (at_text_skip st (String c w) suf); auto. }
  pose proof (entry_end_stops _ suf A1 E) as S1. hnorm.
  rewrite (proj2 (Nat.eqb_neq _ _)) by lia. rewrite S1. reflexivity.
Qed.

(** One entry of a serialized list is read back as it was. *)
Lemma substitute_word_elem (v : lil_value) (suf : string) (st : @lil W) :
  at_text st (elem_text v ++ suf) ->
  string_forallb nonul v = true ->
  entry_end suf ->
  lil_err st = ERROR_NOERROR ->
  substitute_word parse_rec (lil_clen st - lil_head st) EmptyString st =
  Some (Some v,
        set_lil_head (lil_head st + String.length (elem_text v)) st).
Proof.
  intros A N E He. rewrite (at_text_left st _ A), string_length_app.
  unfold elem_text in *. destruct (needs_escape v) eqn:Ne.
  - rewrite chunks_text in *.
    destruct (chunks_nobrace v) as [F FL].
    pose proof (chunks_raw v) as R.
    destruct (chunks v) as [c0 l]. cbn [fst snd] in *.
    rewrite string_app_cons, string_app_assoc, string_app_cons in A.
    rewrite (substitute_word_braced l c0 suf _ EmptyString st A F FL E He).
    + rewrite string_app_nil_l, <- R. do 3 f_equal.
      cbn [String.length]. rewrite string_length_app. cbn [String.length].
      lia.
    + pose proof (tail_ser_length l). cbn [String.length].
      rewrite string_length_app. cbn [String.length]. lia.
  - destruct (needs_escape_bare v Ne N) as [B (c & w & ->)].
    cbn [String.length]. cbn [Nat.add].
    apply (substitute_word_bare c w suf); auto.
Qed.

Lemma list_tail_text_end (r : lil_list) : entry_end (list_tail_text r).
Proof. destruct r; simpl; auto. Qed.

Lemma substitute_loop_elems (r : lil_list) :
  forall (v : lil_value) (words : lil_list) (n : nat) (st : @lil W),
    at_text st (elem_text v ++ list_tail_text r) ->
    lil_ignoreeol st = true ->
    lil_err st = ERROR_NOERROR ->
    nul_free (v :: r) ->
    length r < n ->
    substitute_loop parse_rec n words st =
    Some (Some (words ++ v :: r)%list, set_lil_head (lil_clen st) st).
Proof.
  induction r as [|v' r IH]; intros v words n st A Hi He N Ln.
  all: inversion N as [|x l' Nv Nr]; subst x l'.
  all: destruct n as [|n]; [simpl in Ln; lia|].
  all: cbn [substitute_loop].
  all: destruct (elem_text_start v Nv) as (c & s & Ev & Ws).
  all: pose proof A as A'; rewrite Ev, string_app_cons in A'.
  all: destruct (at_text_cur st _ _ A') as [_ ->]; clear A'.
  all: unfold ateol; rewrite Hi, He; cbn [negb andb is_error]; cbv iota.
  all: change (@alloc_value None) with EmptyString.
  all: rewrite (substitute_word_elem v _ st A Nv (list_tail_text_end _) He).
  all: cbv beta iota.
  all: pose proof (at_text_skip st _ _ _ A eq_refl) as A1.
  - cbn [list_tail_text] in *. unfold lil_skip_spaces.
    rewrite lil_skip_spaces_loop_stay
      by (intros T; rewrite (at_text_end _ A1) in T; discriminate T).
    pose proof (at_text_end _ A1) as L1.
    pose proof (at_text_left st _ A) as LA.
    rewrite string_app_nil_r in LA.
    destruct A as (pre & B & H & C).
    destruct n; cbn [substitute_loop]; rewrite L1; cbn [andb].
    all: do 2 f_equal; f_equal; lia.
  - inversion Nr as [|x l' Nv' Nr']; subst x l'.
    destruct (elem_text_start v' Nv') as (c' & s' & Ev' & Ws').
    cbn [list_tail_text] in A1.
    pose proof A1 as A1'. rewrite Ev', string_app_cons in A1'.
    rewrite (lil_skip_spaces_blank _ _ _ A1' Ws'). clear A1'.
    pose proof (at_text_adv _ _ _ A1) as A2.
    rewrite (IH v' _ n _ A2 Hi He Nr); [|simpl in Ln; lia].
    rewrite <- app_assoc. reflexivity.
Qed.

Lemma restore_cursor (st : @lil W) (c : option string) (l h h' : nat)
    (e : bool) :
  set_lil_ignoreeol (lil_ignoreeol st)
    (set_lil_head (lil_head st)
       (set_lil_clen (lil_clen st)
          (set_lil_code (lil_code st)
             (set_lil_head h'
                (set_lil_ignoreeol e
                   (set_lil_head h
                      (set_lil_clen l (set_lil_code c st)))))))) = st.
Proof. destruct st. reflexivity. Qed.

Lemma lil_subst_to_list_nul_free (L : lil_list) (st : @lil W) :
  lil_err st = ERROR_NOERROR ->
  nul_free L ->
  lil_subst_to_list parse_rec (Some (lil_list_to_value L true)) st =
  Some (L, st).
Proof.
  intros He N. unfold lil_subst_to_list. cbv zeta.
  cbn [lil_to_string].
  set (s := lil_list_to_value L true).
  set (st0 := set_lil_ignoreeol true
                (set_lil_head 0
                   (set_lil_clen (String.length s)
                      (set_lil_code (Some s) st)))).
  assert (A : at_text st0 s).
  { exists EmptyString. repeat split. }
  assert (S0 : substitute parse_rec st0 =
               Some (Some L, set_lil_head (lil_clen st0) st0)).
  { unfold substitute. destruct L as [|v r].
    - change s with EmptyString in *. unfold lil_skip_spaces.
      rewrite lil_skip_spaces_loop_stay
        by (intros T; rewrite (at_text_end _ A) in T; discriminate T).
      change (lil_clen st0 - lil_head st0) with 0.
      cbn [substitute_loop].
      change (lil_head st0 <? lil_clen st0) with false. cbn [andb].
      rewrite <- (set_lil_head_id st0) at 1. reflexivity.
    - unfold s in A. rewrite list_text in A.
      inversion N as [|x l' Nv Nr]. subst x l'.
      destruct (elem_text_start v Nv) as (c & w & Ev & Ws).
      pose proof A as A'. rewrite Ev, string_app_cons in A'.
      rewrite (lil_skip_spaces_stay _ _ _ A' Ws).
      rewrite (substitute_loop_elems r v nil _ st0 A eq_refl He N).
      + reflexivity.
      + rewrite (at_text_left _ _ A'). clear. cbn [String.length].
        rewrite string_length_app. induction r as [|a r IH]; simpl; [lia|].
        rewrite string_length_app. lia. }
  change (substitute parse_rec _) with (substitute parse_rec st0).
  rewrite S0. cbv beta iota. f_equal. f_equal.
  apply restore_cursor.
Qed.

End Roundtrip.

Lemma no_control_chars_nonul (v : lil_value) :
  no_control_chars v = true -> string_forallb nonul v = true.
Proof.
  unfold no_control_chars. induction v as [|c v IH]; [reflexivity|].
  cbn [string_forallb]. intros Hc. apply andb_prop in Hc.
  destruct Hc as [Hc Hv]. rewrite (IH Hv), andb_true_r. unfold nonul.
  destruct (is_char c NUL) eqn:E; [|reflexivity].
  apply is_char_eq in E. subst c. discriminate Hc.
Qed.

Lemma no_control_chars_nul_free (L : lil_list) :
  forallb no_control_chars L = true -> nul_free L.
Proof.
  induction L as [|v L IH]; [constructor|].
  cbn [forallb]. intros H. apply andb_prop in H. destruct H as [Hv HL].
  constructor; [apply no_control_chars_nonul; exact Hv|apply IH; exact HL].
Qed.

Section RoundtripClaim.

Context {W : Type}.
Context {PB : print_buffer}.
Variable parse_rec : string -> nat -> bool -> @M W (option lil_value).

(** C3.  A list whose entries hold no control character, serialized by
    [lil_list_to_value] with escaping and read back by [lil_subst_to_list]
    in an interpreter with no pending error, comes back as the same list:
    the same length and the same bytes in every entry; the interpreter is
    left as it was. *)
Theorem list_roundtrip (L : lil_list) (st : @lil W) :
  lil_err st = ERROR_NOERROR ->
  forallb no_control_chars L = true ->
  lil_subst_to_list parse_rec (Some (lil_list_to_value L true)) st =
  Some (L, st).
Proof.
  intros He Hc. apply lil_subst_to_list_nul_free; [exact He|].
  apply no_control_chars_nul_free. exact Hc.
Qed.

End RoundtripClaim.

Lemma list_roundtrip_witness :
  lil_subst_to_list (test_parse_rec 0)
    (Some (lil_list_to_value
             ("a" :: "b c" :: EmptyString :: "x{y}z" :: "$v [w]" :: nil) true))
    test_lil =
  Some ("a" :: "b c" :: EmptyString :: "x{y}z" :: "$v [w]" :: nil, test_lil).
Proof.
  apply (list_roundtrip (test_parse_rec 0)
           ("a" :: "b c" :: EmptyString :: "x{y}z" :: "$v [w]" :: nil)
           test_lil).
  - reflexivity.
  - vm_compute. reflexivity.
Defined.

(** The text written for a list, and the two conditions of the round trip:
    with an error pending nothing is read, and a NUL byte hides the blank
    behind it from [needs_escape], so that the entry is read as two. *)
Example list_roundtrip_conditions :
  lil_list_to_value ("a" :: "b c" :: EmptyString :: nil) true = "a {b c} {}" /\
  fst (lil_error test_after_error) <> None /\
  (exists st',
     lil_subst_to_list (test_parse_rec 0)
       (Some (lil_list_to_value ("a" :: "b c" :: nil) true)) test_after_error =
     Some (nil, st')) /\
  (exists st',
     lil_subst_to_list (test_parse_rec 0)
       (Some (lil_list_to_value
                (String "a" (String NUL (String " " "b")) :: nil) true))
       test_lil =
     Some (String "a" (String NUL EmptyString) :: "b" :: nil, st')).
Proof.
  split; [vm_compute; reflexivity|].
  split; [vm_compute; discriminate|].
  split; eexists; vm_compute; reflexivity.
Qed.

(** * Further properties of the code *)

(** ** The string map *)

(** X1.  After [hm_put] of [k], a lookup of a key with the same C string gives
    the stored value, and a lookup of any other key is as before. *)
Theorem hashmap_put_get {V : Type} (hm : hashmap V) (k k' : string) (v : V) :
  hm_get (hm_put hm k v) k' = if streq k k' then Some v else hm_get hm k'.
Proof.
  destruct (streq k k') eqn:E.
  - apply hm_get_put_same. exact E.
  - apply hm_get_put_other. exact E.
Qed.

(** X2.  [hm_has] finds nothing in the map that [hm_init] clears, and after
    [hm_put] it finds the stored key besides the keys it found before. *)
Theorem hashmap_has_put {V : Type} (hm : hashmap V) (k k' : string) (v : V) :
  hm_has (@hm_init V) k = false /\
  hm_has (hm_put hm k v) k' = streq k k' || hm_has hm k'.
Proof.
  unfold hm_has. rewrite hm_get_init. split; [reflexivity|].
  destruct (streq k k') eqn:E.
  - rewrite hm_get_put_same by exact E. reflexivity.
  - rewrite hm_get_put_other by exact E. reflexivity.
Qed.

(** ** The expression evaluator *)

(** X3.  [ee_expr] returns on every input; it leaves the text and its length
    alone, never moves the cursor back, and never leaves the internal flag
    [EERR_INVALID_EXPRESSION] to its caller. *)
Theorem ee_expr_terminates (FULL : bool) (ee : expreval) :
  exists ee',
    ee_expr FULL (ee_fuel ee) ee = Some ee' /\
    ee_code ee' = ee_code ee /\ ee_len ee' = ee_len ee /\
    ee_head ee <= ee_head ee' /\
    ee_error ee' <> EERR_INVALID_EXPRESSION.
Proof.
  destruct (ee_expr_total FULL (ee_fuel ee) (ee_mu ee)) with (ee := ee)
    as (e & E & G1 & G2 & G3); [unfold ee_fuel, ee_mu; lia|lia|].
  exists e. repeat split; auto.
  unfold ee_fuel in E. cbn [ee_expr] in E.
  destruct (ee_logor _ _ _ _) as [e0|]; [|discriminate].
  injection E as <-. unfold ee_expr_fix.
  destruct (ee_error e0 =? EERR_INVALID_EXPRESSION) eqn:Q.
  - discriminate.
  - apply Nat.eqb_neq. exact Q.
Qed.

(** ** Frames *)

Section Frames.

Context {W : Type}.
Context {PB : print_buffer}.

(** X4.  A frame that is pushed and popped at once leaves the interpreter as it
    was, but for the address that the allocator hands out next. *)
Theorem push_pop_env (st : @lil W) :
  lil_envs st !! lil_next_env st = None ->
  lil_pop_env (snd (lil_push_env st)) =
  set_lil_next_env (S (lil_next_env st)) st.
Proof.
  intros H. unfold lil_push_env, lil_alloc_env. cbv iota beta. cbn [snd].
  set (a := lil_next_env st) in *.
  set (m := <[a := lil_alloc_env_init (Some (lil_envp st))]> (lil_envs st)).
  set (st1 := set_lil_envp a (set_lil_next_env (S a) (set_lil_envs m st))).
  assert (E : cur_env st1 = lil_alloc_env_init (Some (lil_envp st))).
  { unfold cur_env, deref_env. change (lil_envp st1) with a.
    change (lil_envs st1) with m. unfold m. rewrite lookup_insert_eq.
    reflexivity. }
  unfold lil_pop_env. rewrite E. cbn [env_parent lil_alloc_env_init].
  unfold lil_free_env. change (lil_envp st1) with a.
  change (lil_envs st1) with m. unfold m.
  rewrite delete_insert_id by exact H.
  subst st1. clear. destruct st. reflexivity.
Qed.

End Frames.

Lemma push_pop_env_witness :
  lil_envs test_lil !! lil_next_env test_lil = None /\
  lil_pop_env (snd (lil_push_env test_lil)) =
  set_lil_next_env (S (lil_next_env test_lil)) test_lil.
Proof.
  assert (H : lil_envs test_lil !! lil_next_env test_lil = None)
    by (vm_compute; reflexivity).
  split; [exact H|]. exact (push_pop_env test_lil H).
Defined.

(** ** [quote] *)

Lemma join_args_list (argv : list lil_value) :
  forall i r, join_args i argv r = lil_list_to_value_loop false i argv r.
Proof.
  induction argv as [|a argv IH]; intros i r; [reflexivity|].
  cbn [join_args lil_list_to_value_loop]. apply IH.
Qed.

(** X5.  [quote] builds what [lil_list_to_value] builds without escaping. *)
Theorem fnc_quote_is_plain_list {W : Type} (a : lil_value)
    (argv : list lil_value) (st : @lil W) :
  fnc_quote (a :: argv) st =
  Some (Some (lil_list_to_value (a :: argv) false), st).
Proof.
  unfold fnc_quote, lil_list_to_value. cbn [length Nat.ltb Nat.leb].
  rewrite join_args_list. reflexivity.
Qed.

Section CursorForward.

Context {W : Type}.
Context {PB : print_buffer}.

Lemma moved_forward_refl (st : @lil W) : moved_forward st st.
Proof. exists (lil_head st). split; [symmetry; apply set_lil_head_id|lia]. Qed.

Lemma moved_forward_trans (a b c : @lil W) :
  moved_forward a b -> moved_forward b c -> moved_forward a c.
Proof.
  intros (h1 & -> & L1) (h2 & -> & L2). exists h2.
  split; [reflexivity|]. rewrite lil_head_set in L2. lia.
Qed.

Lemma moved_forward_adv (k : nat) (st : @lil W) :
  moved_forward st (lil_adv k st).
Proof. exists (lil_head st + k). split; [reflexivity|lia]. Qed.

Lemma skip_while_forward (p : ascii -> bool) (n : nat) (st : @lil W) :
  moved_forward st (skip_while p n st).
Proof.
  revert st. induction n as [|n IH]; intros st; cbn [skip_while].
  - apply moved_forward_refl.
  - destruct (_ && _); [|apply moved_forward_refl].
    eapply moved_forward_trans; [apply (moved_forward_adv 1)|apply IH].
Qed.

Lemma skip_multiline_comment_forward (n : nat) (st : @lil W) :
  moved_forward st (skip_multiline_comment n st).
Proof.
  revert st. induction n as [|n IH]; intros st; cbn [skip_multiline_comment].
  - apply moved_forward_refl.
  - destruct (_ <? _); [|apply moved_forward_refl].
    destruct (_ && _); [apply moved_forward_adv|].
    eapply moved_forward_trans; [apply (moved_forward_adv 1)|apply IH].
Qed.

Lemma lil_skip_spaces_loop_forward (n : nat) (st : @lil W) :
  moved_forward st (lil_skip_spaces_loop n st).
Proof.
  revert st. induction n as [|n IH]; intros st; cbn [lil_skip_spaces_loop].
  - apply moved_forward_refl.
  - repeat match goal with
           | |- context [if ?c then _ else _] => destruct c
           end;
      try apply moved_forward_refl.
    + eapply moved_forward_trans; [apply (moved_forward_adv 2)|].
      eapply moved_forward_trans; [apply skip_multiline_comment_forward|].
      apply IH.
    + eapply moved_forward_trans; [apply skip_while_forward|apply IH].
    + eapply moved_forward_trans; [apply (moved_forward_adv 1)|].
      eapply moved_forward_trans; [apply skip_while_forward|apply IH].
    + eapply moved_forward_trans; [apply (moved_forward_adv 1)|apply IH].
    + eapply moved_forward_trans; [apply (moved_forward_adv 1)|apply IH].
Qed.

(** X6.  [lil_skip_spaces] touches nothing but the cursor, which it never moves
    back. *)
Theorem lil_skip_spaces_forward (st : @lil W) :
  exists h, lil_skip_spaces st = set_lil_head h st /\ lil_head st <= h.
Proof. apply lil_skip_spaces_loop_forward. Qed.

End CursorForward.

(** ** Registration of commands *)

Lemma strchr_cut (name : string) (c : ascii) :
  forall i, strchr name c = Some i -> streq name (poke name i NUL) = false.
Proof.
  unfold streq. induction name as [|a r IH]; intros i H; [discriminate|].
  cbn [strchr] in H. destruct (is_char a NUL) eqn:Ea; [discriminate|].
  destruct (is_char a c).
  - injection H as <-. cbn [poke cstr]. rewrite Ea.
    change (is_char NUL NUL) with true. reflexivity.
  - destruct (strchr r c) as [j|] eqn:Ej; [|discriminate].
    injection H as <-. cbn [poke cstr]. rewrite Ea.
    cbn [String.eqb]. rewrite Ascii.eqb_refl. apply IH. reflexivity.
Qed.

Section Registration.

Context {W : Type}.
Context {PB : print_buffer}.

(** X7.  A name without a dot that names no command yet: [lil_register] appends
    the command, [lil_find_cmd] finds it under that name, and the commands
    that were there stay as they are. *)
Theorem registered_command_is_found (name : string)
    (proc : lil_func_proc_t) (st : @lil W) :
  strchr name "." = None ->
  fst (lil_find_cmd st name) = None ->
  let r := lil_register name proc st in
  let cmd := length (lil_cmd st) in
  fst r = 1 /\
  fst (lil_find_cmd (snd r) name) = Some cmd /\
  deref_func (snd r) cmd = mk_func (cstr name) None None (Some proc) /\
  forall i, i < cmd -> deref_func (snd r) i = deref_func st i.
Proof.
  intros Hd Hf r cmd. subst r. unfold lil_register, add_func. rewrite Hf.
  cbv iota beta. cbn [fst snd]. fold cmd.
  set (st1 := set_lil_cmdmap (hm_put (lil_cmdmap st) name cmd)
                (set_lil_cmd (lil_cmd st ++ mk_func (cstr name) None None None
                                :: nil)%list st)).
  assert (E : lil_cmd (update_func cmd (set_func_proc (Some proc)) st1) =
              (lil_cmd st ++
               mk_func (cstr name) None None (Some proc) :: nil)%list).
  { unfold update_func, deref_func.
    change (lil_cmd st1)
      with (lil_cmd st ++ mk_func (cstr name) None None None :: nil)%list.
    change (lil_cmd (set_lil_cmd ?l _)) with l.
    unfold cmd. rewrite nth_middle.
    rewrite <- (Nat.add_0_r (length (lil_cmd st))) at 1.
    rewrite insert_app_r. reflexivity. }
  split; [reflexivity|]. split; [|split].
  - unfold lil_find_cmd. rewrite Hd. cbn [fst].
    change (lil_cmdmap (update_func cmd _ st1))
      with (hm_put (lil_cmdmap st) name cmd).
    apply hm_get_put_same. apply streq_refl.
  - unfold deref_func at 1. rewrite E. apply nth_middle.
  - intros i Hi. unfold deref_func at 1. rewrite E.
    apply app_nth1. exact Hi.
Qed.

(** X8.  A name with a dot whose prefix names no command: [lil_register]
    succeeds in adding a command, but files it under the whole name, where
    [lil_find_cmd], which looks up the prefix, does not find it. *)
Theorem dotted_registration_is_not_found (name : string) (i : nat)
    (proc : lil_func_proc_t) (st : @lil W) :
  strchr name "." = Some i ->
  fst (lil_find_cmd st name) = None ->
  let r := lil_register name proc st in
  fst r = 1 /\
  length (lil_cmd (snd r)) = S (length (lil_cmd st)) /\
  fst (lil_find_cmd (snd r) name) = None.
Proof.
  intros Hd Hf r. subst r. unfold lil_register, add_func. rewrite Hf.
  cbv iota beta. cbn [fst snd].
  split; [reflexivity|]. split.
  - unfold update_func.
    change (lil_cmd (set_lil_cmd ?l _)) with l.
    rewrite length_insert.
    change (lil_cmd (set_lil_cmdmap _ (set_lil_cmd ?l _))) with l.
    rewrite length_app. simpl. lia.
  - unfold lil_find_cmd in *. rewrite Hd in *. cbn [fst] in *.
    change (lil_cmdmap (update_func _ _ (set_lil_cmdmap ?m _))) with m.
    rewrite hm_get_put_other; [exact Hf|].
    apply (strchr_cut name "." i Hd).
Qed.

End Registration.

Lemma registered_command_is_found_witness :
  strchr "hello" "." = None /\
  fst (lil_find_cmd test_lil "hello") = None /\
  fst (lil_find_cmd (snd (lil_register "hello" (proc_host 7) test_lil))
         "hello") = Some (length (lil_cmd test_lil)).
Proof.
  assert (H1 : strchr "hello" "." = None) by reflexivity.
  assert (H2 : fst (lil_find_cmd test_lil "hello") = None)
    by (vm_compute; reflexivity).
  split; [exact H1|]. split; [exact H2|].
  pose proof (registered_command_is_found "hello" (proc_host 7) test_lil
                H1 H2) as T.
  cbv zeta in T. destruct T as (_ & T & _). exact T.
Defined.

Lemma dotted_registration_is_not_found_witness :
  strchr "net.up" "." = Some 3 /\
  fst (lil_find_cmd test_lil "net.up") = None /\
  fst (lil_register "net.up" (proc_host 7) test_lil) = 1 /\
  fst (lil_find_cmd (snd (lil_register "net.up" (proc_host 7) test_lil))
         "net.up") = None.
Proof.
  assert (H1 : strchr "net.up" "." = Some 3) by reflexivity.
  assert (H2 : fst (lil_find_cmd test_lil "net.up") = None)
    by (vm_compute; reflexivity).
  split; [exact H1|]. split; [exact H2|].
  pose proof (dotted_registration_is_not_found "net.up" 3 (proc_host 7)
                test_lil H1 H2) as T.
  cbv zeta in T. destruct T as (T1 & _ & T2). split; [exact T1|exact T2].
Defined.

(** ** Truth values *)

Lemma zeros_cstr (n : nat) : cstr (zeros n) = zeros n.
Proof. induction n as [|n IH]; [reflexivity|]. cbn [zeros cstr]. change (is_char "0" NUL) with false. cbv iota. congruence. Qed.

Lemma lil_to_boolean_loop_dotted (s : string) :
  lil_to_boolean_loop s true = false <-> exists a, cstr s = zeros a.
Proof.
  induction s as [|c r IH]; cbn [lil_to_boolean_loop cstr].
  - split; [exists 0; reflexivity|reflexivity].
  - destruct (is_char c NUL) eqn:En.
    + split; [exists 0; reflexivity|reflexivity].
    + destruct (is_char c "0") eqn:E0.
      * apply is_char_eq in E0. subst c. cbn [negb andb].
        change (is_char "0" ".") with false. cbv iota.
        rewrite IH. split.
        -- intros [a E]. exists (S a). cbn [zeros]. congruence.
        -- intros [[|a] E]; [discriminate|]. cbn [zeros] in E.
           exists a. congruence.
      * cbn [negb andb]. destruct (is_char c ".") eqn:Ed; cbn [negb].
        -- split; [discriminate|].
           intros [[|a] E]; [discriminate|]. cbn [zeros] in E.
           injection E as -> _. discriminate.
        -- split; [discriminate|].
           intros [[|a] E]; [discriminate|]. cbn [zeros] in E.
           injection E as -> _. discriminate.
Qed.

(** X9.  A value is false exactly when its C string is written with zeros and at
    most one dot; the empty string is among them. *)
Theorem lil_to_boolean_false (s : lil_value) :
  lil_to_boolean (Some s) = false <->
  (exists a, cstr s = zeros a) \/
  (exists a b, cstr s = zeros a ++ String "." (zeros b)).
Proof.
  unfold lil_to_boolean. cbn [lil_to_string].
  induction s as [|c r IH]; cbn [lil_to_boolean_loop cstr].
  - split; [left; exists 0; reflexivity|reflexivity].
  - destruct (is_char c NUL) eqn:En.
    + split; [left; exists 0; reflexivity|reflexivity].
    + destruct (is_char c "0") eqn:E0.
      * apply is_char_eq in E0. subst c. cbn [negb andb].
        change (is_char "0" ".") with false. cbv iota.
        rewrite IH. split.
        -- intros [[a E]|(a & b & E)].
           ++ left. exists (S a). cbn [zeros]. congruence.
           ++ right. exists (S a), b. cbn [zeros]. rewrite string_app_cons.
              congruence.
        -- intros [[[|a] E]|([|a] & b & E)]; try discriminate E.
           ++ left. exists a. cbn [zeros] in E. congruence.
           ++ right. exists a, b. cbn [zeros] in E.
              rewrite string_app_cons in E. congruence.
      * cbn [negb andb]. destruct (is_char c ".") eqn:Ed; cbn [negb].
        -- apply is_char_eq in Ed. subst c. rewrite lil_to_boolean_loop_dotted.
           split.
           ++ intros [b E]. right. exists 0, b. rewrite string_app_nil_l.
              congruence.
           ++ intros [[[|a] E]|([|a] & b & E)]; try discriminate E.
              rewrite string_app_nil_l in E. exists b. congruence.
        -- split; [discriminate|].
           intros [[[|a] E]|([|a] & b & E)]; try discriminate E.
           ++ cbn [zeros] in E. injection E as -> _. discriminate.
           ++ rewrite string_app_nil_l in E. injection E as -> _.
              discriminate.
           ++ cbn [zeros] in E. rewrite string_app_cons in E.
              injection E as -> _. discriminate.
Qed.

(** ** The loop of [lil_parse]: interrupts, unknown commands, variables *)

Lemma cstr_app_nonul (a b : string) :
  string_forallb nonul a = true -> cstr (a ++ b) = a ++ cstr b.
Proof.
  induction a as [|c a IH]; [reflexivity|].
  cbn [string_forallb]. intros H. apply andb_prop in H. destruct H as [Hc Ha].
  rewrite !string_app_cons. cbn [cstr]. unfold nonul in Hc.
  apply negb_true_iff in Hc. rewrite Hc, (IH Ha). reflexivity.
Qed.

(** What [vsnprintf] keeps of a text without NUL has none either, and a
    text that is shorter than the buffer is kept whole. *)
Lemma cstr_vsnprintf (size : nat) (text : string) :
  cstr text = text -> cstr (vsnprintf size text) = vsnprintf size text.
Proof.
  unfold vsnprintf. generalize (size - 1). intros k. revert k.
  induction text as [|c r IH]; intros k H.
  - destruct k; reflexivity.
  - destruct k as [|k]; [reflexivity|].
    cbn [cstr] in H. destruct (is_char c NUL) eqn:C; [discriminate H|].
    injection H as H. cbn [substring cstr]. rewrite C, (IH k H). reflexivity.
Qed.

Lemma vsnprintf_fits (size : nat) (text : string) :
  String.length text < size -> vsnprintf size text = text.
Proof.
  unfold vsnprintf. intros H.
  assert (L : String.length text <= size - 1) by lia.
  revert L. generalize (size - 1). clear H. intros k. revert k.
  induction text as [|c r IH]; intros k L.
  - destruct k; reflexivity.
  - cbn [String.length] in L. destruct k as [|k]; [lia|].
    cbn [substring]. rewrite (IH k) by lia. reflexivity.
Qed.

Section ParseLoop.

Context {W : Type}.
Context {PB : print_buffer}.
Variable ctrlc : W -> bool * W.
Variable env_set : string -> string -> W -> Z * W.
Variable env_get : string -> W -> option string.
Variable FULL : bool.
Variable extern_proc :
  (string -> nat -> bool -> @M W (option lil_value)) ->
  lil_func_proc_t -> list lil_value -> @M W (option lil_value).
Variable parse_rec : string -> nat -> bool -> @M W (option lil_value).

(** X10.  [lil_parse] gives the text, its length and the cursor back to its
    caller as it found them, whatever it has evaluated. *)
Theorem lil_parse_restores_cursor (fuel : nat) (code : string)
    (codelen : nat) (funclevel : bool) (st st' : @lil W)
    (v : option lil_value) :
  lil_parse ctrlc env_set env_get FULL extern_proc fuel code codelen
    funclevel st = Some (v, st') ->
  lil_code st' = lil_code st /\ lil_clen st' = lil_clen st /\
  lil_head st' = lil_head st.
Proof.
  destruct fuel as [|fuel]; [discriminate|].
  cbn [lil_parse]. unfold lil_parse_body.
  destruct (lil_parse_loop _ _ _ _ _ _ _ _ _) as [[val s]|]; [|discriminate].
  intros H. injection H as H.
  pose proof (lil_parse_cleanup_fields (lil_code st) (lil_clen st)
                (lil_head st) funclevel val s) as HC.
  cbv zeta in HC. rewrite H in HC. cbn [fst snd] in HC.
  destruct HC as (_ & _ & _ & _ & _ & _ & _ & C1 & C2 & C3 & _).
  auto.
Qed.

(** X11.  When Ctrl-C is pressed, the loop of [lil_parse] runs no command: it
    sets the error slot to "interrupted" at the cursor and ends without a
    value; [lil_eval_expr] does the same before it reads its expression. *)
Theorem interrupt_sets_the_error (n : nat) (val code : option lil_value)
    (st : @lil W) (w : W) :
  lil_err st = ERROR_NOERROR ->
  ctrlc (lil_host st) = (true, w) ->
  (lil_head st < lil_clen st ->
   lil_parse_loop ctrlc env_set env_get FULL extern_proc parse_rec (S n) val
     st =
   Some (None,
         set_lil_err_msg (Some "interrupted")
           (set_lil_err_head (lil_head st)
              (set_lil_err ERROR_DEFAULT (set_lil_host w st))))) /\
  lil_eval_expr ctrlc FULL parse_rec code st =
  Some (None,
        set_lil_err_msg (Some "interrupted")
          (set_lil_err_head 0 (set_lil_err ERROR_FIXHEAD (set_lil_host w st)))).
Proof.
  intros He Hc. split.
  - intros Hh. cbn [lil_parse_loop]. apply Nat.ltb_lt in Hh.
    rewrite Hh, He, Hc. cbn [is_error negb andb]. cbv iota.
    unfold lil_set_error_at.
    change (lil_err (set_lil_host w st)) with (lil_err st). rewrite He.
    reflexivity.
  - unfold lil_eval_expr. rewrite Hc. cbv iota. unfold lil_set_error.
    change (lil_err (set_lil_host w st)) with (lil_err st). rewrite He.
    reflexivity.
Qed.

(** X12.  A line whose first word names no command, with no catcher installed:
    the loop of [lil_parse] ends without a value and with an error set at
    the cursor; its message is what the print buffer of
    [CONFIG_SYS_PBSIZE] bytes keeps of "unknown function" followed by the
    word, which is all of it when it is shorter than the buffer. *)
Theorem unknown_function_is_an_error (n : nat) (val : option lil_value)
    (st st1 : @lil W) (w : W) (w0 : lil_value) (rest : lil_list) :
  lil_head st < lil_clen st ->
  lil_err st = ERROR_NOERROR ->
  ctrlc (lil_host st) = (false, w) ->
  substitute parse_rec (set_lil_host w st) = Some (Some (w0 :: rest), st1) ->
  lil_err st1 = ERROR_NOERROR ->
  fst (lil_find_cmd st1 w0) = None ->
  String.length w0 <> 0 ->
  (if FULL then lil_catcher st1 else None) = None ->
  lil_parse_loop ctrlc env_set env_get FULL extern_proc parse_rec (S n) val
    st =
  Some (None,
        set_lil_err_msg
          (Some (vsnprintf CONFIG_SYS_PBSIZE ("unknown function " ++ cstr w0)))
          (set_lil_err_head (lil_head st1) (set_lil_err ERROR_DEFAULT st1))) /\
  (String.length ("unknown function " ++ cstr w0) < CONFIG_SYS_PBSIZE ->
   lil_parse_loop ctrlc env_set env_get FULL extern_proc parse_rec (S n) val
     st =
   Some (None,
         set_lil_err_msg (Some ("unknown function " ++ cstr w0))
           (set_lil_err_head (lil_head st1) (set_lil_err ERROR_DEFAULT st1)))).
Proof.
  intros Hh He Hc Hs He1 Hf Hl Hk.
  assert (T : cstr ("unknown function " ++ cstr w0) =
              "unknown function " ++ cstr w0)
    by (rewrite cstr_app_nonul by reflexivity; rewrite cstr_idem;
        reflexivity).
  match goal with |- ?A /\ _ => assert (G : A) end;
  [|split; [exact G|]; intros Hfit; rewrite G, (vsnprintf_fits _ _ Hfit);
    reflexivity].
  cbn [lil_parse_loop]. apply Nat.ltb_lt in Hh. rewrite Hh, He.
  cbn [is_error negb andb]. rewrite Hc, Hs, He1. cbn [is_error].
  pose proof (lil_find_cmd_name st1 w0) as Hn.
  change (lil_to_string (Some w0)) with w0.
  destruct (lil_find_cmd st1 w0) as [c nm]. cbn [fst snd] in Hf, Hn.
  subst c nm. cbv beta iota.
  apply Nat.eqb_neq in Hl. rewrite Hl. cbn [negb].
  unfold unknown_cmd. rewrite Hk. cbn [nth].
  unfold lil_set_errorf_at, lil_set_error_at. rewrite He1. cbn [is_error].
  cbn [lil_to_string]. rewrite (cstr_vsnprintf _ _ T). reflexivity.
Qed.

(** X13.  With a catcher installed and [MAX_CATCHER_DEPTH] catchers running,
    [unknown_cmd] evaluates nothing: it sets an error at the cursor and
    leaves the depth and the frames as they are; the message is what the
    print buffer of [CONFIG_SYS_PBSIZE] bytes keeps of "catcher limit
    reached while trying to call unknown function" followed by the word,
    which is all of it when it is shorter than the buffer. *)
Theorem catcher_depth_is_bounded (words : lil_list) (catcher : string)
    (st : @lil W) :
  lil_catcher st = Some catcher ->
  MAX_CATCHER_DEPTH <= lil_in_catcher st ->
  lil_err st = ERROR_NOERROR ->
  let text :=
    "catcher limit reached while trying to call unknown function " ++
    cstr (nth 0 words EmptyString) in
  unknown_cmd env_set true parse_rec words st =
  Some (None,
        set_lil_err_msg (Some (vsnprintf CONFIG_SYS_PBSIZE text))
          (set_lil_err_head (lil_head st) (set_lil_err ERROR_DEFAULT st))) /\
  (String.length text < CONFIG_SYS_PBSIZE ->
   unknown_cmd env_set true parse_rec words st =
   Some (None,
         set_lil_err_msg (Some text)
           (set_lil_err_head (lil_head st) (set_lil_err ERROR_DEFAULT st)))).
Proof.
  intros Hk Hd He text.
  assert (T : cstr text = text)
    by (unfold text; rewrite cstr_app_nonul by reflexivity;
        rewrite cstr_idem; reflexivity).
  match goal with |- ?A /\ _ => assert (G : A) end;
  [|split; [exact G|]; intros Hfit; rewrite G, (vsnprintf_fits _ _ Hfit);
    reflexivity].
  unfold unknown_cmd. rewrite Hk.
  apply Nat.ltb_ge in Hd. rewrite Hd.
  unfold lil_set_errorf_at, lil_set_error_at. rewrite He. cbn [is_error].
  cbn [lil_to_string]. fold text. rewrite (cstr_vsnprintf _ _ T).
  reflexivity.
Qed.

(** X14.  [lil_get_var_or] never returns its default: a variable that is not
    found, or that the root environment owns, reads as the variable of that
    name in the environment of the host (empty when there is none); any
    other variable reads as its own value. *)
Theorem lil_get_var_or_ignores_default (st : @lil W) (name : string)
    (d d' : option lil_value) :
  lil_get_var_or env_get st name d = lil_get_var_or env_get st name d' /\
  lil_get_var_or env_get st name d =
  match lil_find_var st (lil_envp st) name with
  | Some p =>
      if var_env (deref_var st p) =? lil_rootenv st
      then Some (alloc_value (env_get (cstr name) (lil_host st)))
      else var_v (deref_var st p)
  | None => Some (alloc_value (env_get (cstr name) (lil_host st)))
  end.
Proof.
  unfold lil_get_var_or, lil_alloc_string.
  destruct (lil_find_var st (lil_envp st) name) as [p|].
  - destruct (var_env (deref_var st p) =? lil_rootenv st); split; reflexivity.
  - split; reflexivity.
Qed.

(** X15.  In a frame other than the root, a variable that [lil_set_var] has just
    created reads as the value it was given. *)
Theorem local_set_then_get (name : string) (val d : option lil_value)
    (st : @lil W) :
  is_char (code_at name 0) NUL = false ->
  lil_envp st <> lil_rootenv st ->
  exists p st',
    lil_set_var env_set parse_rec name val LIL_SETVAR_LOCAL_NEW st =
      Some (Some p, st') /\
    lil_get_var_or env_get st' name d = val.
Proof.
  intros Hn Hr.
  destruct (lil_set_var_new_spec env_set parse_rec name val st Hn)
    as (st' & S1 & Q1 & Q2 & Q3 & Q4 & Q5).
  exists (lil_envp st, length (env_var (cur_env st))), st'.
  split; [exact S1|].
  assert (Hroot : lil_rootenv st' = lil_rootenv st).
  { unfold lil_set_var in S1. rewrite Hn in S1.
    cbn [lil_setvar_eqb negb] in S1. injection S1 as <-. reflexivity. }
  unfold lil_get_var_or, lil_find_var. cbn [lil_find_var_rec].
  rewrite Q1, Q5, streq_refl.
  unfold deref_var. cbn [fst snd].
  replace (deref_env st' (lil_envp st)) with (cur_env st')
    by (unfold cur_env; congruence).
  rewrite Q4, nth_middle. cbn [var_env var_v]. rewrite Hroot.
  apply Nat.eqb_neq in Hr. rewrite Hr. reflexivity.
Qed.

(** X16.  [result V] records [V] as the value of the enclosing function without
    ending it: [breakrun] stays as it is, and the end of a function body
    returns [V] whatever its last command returned. *)
Theorem fnc_result_sets_the_value (V : lil_value) (rest : lil_list)
    (st : @lil W) :
  exists st2,
    fnc_result (V :: rest) st = Some (Some V, st2) /\
    env_retval_set (cur_env st2) = true /\
    env_retval (cur_env st2) = Some V /\
    env_breakrun (cur_env st2) = env_breakrun (cur_env st) /\
    forall sc scl sh v,
      fst (lil_parse_cleanup sc scl sh true v st2) = Some V.
Proof.
  unfold fnc_result. cbn [length Nat.ltb Nat.leb lil_arg nth_error].
  unfold lil_clone_value.
  set (st1 := update_env (lil_envp st) (set_env_retval (Some V)) st).
  change (update_env (lil_envp st) (set_env_retval_set true) st1)
    with (update_env (lil_envp st1) (set_env_retval_set true) st1).
  assert (E : cur_env (update_env (lil_envp st1) (set_env_retval_set true)
                         st1) =
              set_env_retval_set true (set_env_retval (Some V) (cur_env st))).
  { rewrite cur_env_update. unfold st1. rewrite cur_env_update.
    reflexivity. }
  eexists. split; [rewrite !E; reflexivity|]. rewrite E.
  split; [reflexivity|]. split; [reflexivity|]. split; [reflexivity|].
  intros sc scl sh v. unfold lil_parse_cleanup.
  change (cur_env (set_lil_head sh (set_lil_clen scl (set_lil_code sc ?s))))
    with (cur_env s).
  rewrite E. reflexivity.
Qed.

End ParseLoop.

Lemma lil_parse_restores_cursor_witness :
  exists v st',
    test_parse 10 "set a [quote 1 2]" false test_lil = Some (v, st') /\
    lil_code st' = lil_code test_lil /\ lil_clen st' = lil_clen test_lil /\
    lil_head st' = lil_head test_lil.
Proof.
  destruct (test_parse 10 "set a [quote 1 2]" false test_lil)
    as [[v st']|] eqn:E; [|vm_compute in E; discriminate E].
  exists v, st'. split; [reflexivity|].
  exact (lil_parse_restores_cursor test_ctrlc test_env_set test_env_get true
           test_extern 10 "set a [quote 1 2]" 0 false test_lil st' v E).
Defined.

Lemma interrupt_sets_the_error_witness :
  lil_err test_body = ERROR_NOERROR /\
  test_ctrlc_pressed (lil_host test_body) = (true, nil) /\
  lil_head test_body < lil_clen test_body /\
  lil_parse_loop test_ctrlc_pressed test_env_set test_env_get true
    test_extern (test_parse_rec 0) 1 None test_body =
  Some (None,
        set_lil_err_msg (Some "interrupted")
          (set_lil_err_head (lil_head test_body)
             (set_lil_err ERROR_DEFAULT (set_lil_host nil test_body)))).
Proof.
  assert (H1 : lil_err test_body = ERROR_NOERROR) by reflexivity.
  assert (H2 : test_ctrlc_pressed (lil_host test_body) = (true, nil))
    by reflexivity.
  assert (H3 : lil_head test_body < lil_clen test_body) by (vm_compute; lia).
  split; [exact H1|]. split; [exact H2|]. split; [exact H3|].
  pose proof (interrupt_sets_the_error test_ctrlc_pressed test_env_set
                test_env_get true test_extern (test_parse_rec 0) 0 None None
                test_body nil H1 H2) as [T _].
  exact (T H3).
Defined.

Lemma unknown_function_is_an_error_witness :
  lil_head test_unknown < lil_clen test_unknown /\
  lil_err test_unknown = ERROR_NOERROR /\
  test_ctrlc (lil_host test_unknown) = (false, nil) /\
  substitute (test_parse_rec 0) (set_lil_host nil test_unknown) =
    Some (Some ("nosuch" :: "1" :: nil), test_unknown_words) /\
  lil_err test_unknown_words = ERROR_NOERROR /\
  fst (lil_find_cmd test_unknown_words "nosuch") = None /\
  String.length "nosuch" <> 0 /\
  lil_catcher test_unknown_words = None /\
  String.length ("unknown function " ++ cstr "nosuch") < CONFIG_SYS_PBSIZE /\
  lil_parse_loop test_ctrlc test_env_set test_env_get true test_extern
    (test_parse_rec 0) 1 None test_unknown =
  Some (None,
        set_lil_err_msg (Some ("unknown function " ++ cstr "nosuch"))
          (set_lil_err_head (lil_head test_unknown_words)
             (set_lil_err ERROR_DEFAULT test_unknown_words))).
Proof.
  assert (H1 : lil_head test_unknown < lil_clen test_unknown)
    by (vm_compute; lia).
  assert (H2 : lil_err test_unknown = ERROR_NOERROR) by reflexivity.
  assert (H3 : test_ctrlc (lil_host test_unknown) = (false, nil))
    by reflexivity.
  assert (H4 : substitute (test_parse_rec 0) (set_lil_host nil test_unknown) =
               Some (Some ("nosuch" :: "1" :: nil), test_unknown_words))
    by (vm_compute; reflexivity).
  assert (H5 : lil_err test_unknown_words = ERROR_NOERROR) by reflexivity.
  assert (H6 : fst (lil_find_cmd test_unknown_words "nosuch") = None)
    by (vm_compute; reflexivity).
  assert (H7 : String.length "nosuch" <> 0) by (simpl; lia).
  assert (H8 : lil_catcher test_unknown_words = None) by reflexivity.
  assert (H9 : String.length ("unknown function " ++ cstr "nosuch") <
               CONFIG_SYS_PBSIZE)
    by (apply Nat.ltb_lt; vm_compute; reflexivity).
  repeat (split; [assumption|]).
  pose proof (unknown_function_is_an_error test_ctrlc test_env_set
                test_env_get true test_extern (test_parse_rec 0) 0 None
                test_unknown test_unknown_words nil "nosuch" ("1" :: nil)
                H1 H2 H3 H4 H5 H6 H7 H8) as [_ T].
  exact (T H9).
Defined.

Lemma catcher_depth_is_bounded_witness :
  lil_catcher test_deep_catcher = Some "quote" /\
  MAX_CATCHER_DEPTH <= lil_in_catcher test_deep_catcher /\
  lil_err test_deep_catcher = ERROR_NOERROR /\
  exists st',
    unknown_cmd test_env_set true (test_parse_rec 5) ("nosuch" :: nil)
      test_deep_catcher = Some (None, st') /\
    lil_err_msg st' =
    Some "catcher limit reached while trying to call unknown function nosuch"
    /\
    lil_in_catcher st' = lil_in_catcher test_deep_catcher.
Proof.
  assert (H1 : lil_catcher test_deep_catcher = Some "quote") by reflexivity.
  assert (H2 : MAX_CATCHER_DEPTH <= lil_in_catcher test_deep_catcher)
    by (apply Nat.leb_le; vm_compute; reflexivity).
  assert (H3 : lil_err test_deep_catcher = ERROR_NOERROR) by reflexivity.
  split; [exact H1|]. split; [exact H2|]. split; [exact H3|].
  pose proof (catcher_depth_is_bounded test_env_set (test_parse_rec 5)
                ("nosuch" :: nil) "quote" test_deep_catcher H1 H2 H3) as T.
  cbv zeta in T. destruct T as [_ T].
  eexists. split.
  - apply T. apply Nat.ltb_lt. vm_compute. reflexivity.
  - split; reflexivity.
Defined.

Lemma local_set_then_get_witness :
  is_char (code_at "x" 0) NUL = false /\
  lil_envp test_frame <> lil_rootenv test_frame /\
  exists p st',
    lil_set_var test_env_set (test_parse_rec 0) "x" (Some "7")
      LIL_SETVAR_LOCAL_NEW test_frame = Some (Some p, st') /\
    lil_get_var_or test_env_get st' "x" None = Some "7".
Proof.
  assert (H1 : is_char (code_at "x" 0) NUL = false) by reflexivity.
  assert (H2 : lil_envp test_frame <> lil_rootenv test_frame)
    by (vm_compute; lia).
  split; [exact H1|]. split; [exact H2|].
  exact (local_set_then_get test_env_set test_env_get (test_parse_rec 0) "x"
           (Some "7") None test_frame H1 H2).
Defined.

(** ** Integers printed and read back *)

Lemma wrap_small (z : Z) : (- 2 ^ 63 <= z < 2 ^ 63)%Z -> wrap z = z.
Proof.
  intros H. unfold wrap, ssize_bits.
  change (2 ^ (64 - 1))%Z with (2 ^ 63)%Z.
  rewrite Z.mod_small; lia.
Qed.

Lemma uint_value_grows (d : Decimal.uint) :
  forall acc, (0 <= acc)%Z -> (acc <= uint_value d acc)%Z.
Proof.
  induction d as [|d IH|d IH|d IH|d IH|d IH|d IH|d IH|d IH|d IH|d IH];
    intros acc H; cbn [uint_value]; try lia.
  all: match goal with
       | |- (_ <= uint_value _ ?a)%Z => specialize (IH a)
       end; lia.
Qed.

Lemma uint_value_of_uint_acc (d : Decimal.uint) :
  forall acc, uint_value d (Z.pos acc) = Z.pos (Pos.of_uint_acc d acc).
Proof.
  induction d as [|d IH|d IH|d IH|d IH|d IH|d IH|d IH|d IH|d IH|d IH];
    intros acc; cbn [uint_value Pos.of_uint_acc]; [reflexivity|..].
  all: rewrite <- IH; f_equal; lia.
Qed.

Lemma uint_value_of_uint (d : Decimal.uint) :
  uint_value d 0 = Z.of_N (Pos.of_uint d).
Proof.
  induction d as [|d IH|d IH|d IH|d IH|d IH|d IH|d IH|d IH|d IH|d IH];
    cbn [uint_value Pos.of_uint]; [reflexivity|exact IH|..].
  all: cbn [Z.mul Z.add Z.of_N]; apply uint_value_of_uint_acc.
Qed.

Lemma ee_numeric_loop_digits (d : Decimal.uint) :
  forall (code pre : string) (acc : Z) (n : nat),
    code = pre ++ NilEmpty.string_of_uint d ->
    (0 <= acc)%Z -> (uint_value d acc < 2 ^ 63)%Z ->
    String.length (NilEmpty.string_of_uint d) <= n ->
    ee_numeric_loop n
      (mk_ee code (String.length code) (String.length pre) acc 0) =
    mk_ee code (String.length code) (String.length code) (uint_value d acc) 0.
Proof.
  induction d as [|d IH|d IH|d IH|d IH|d IH|d IH|d IH|d IH|d IH|d IH];
    intros code pre acc n Hc Ha Hv Hn;
    cbn [NilEmpty.string_of_uint uint_value] in *.
  { rewrite string_app_nil_r in Hc. subst code.
    destruct n; cbn [ee_numeric_loop ee_head ee_len];
      rewrite ?Nat.ltb_irrefl; reflexivity. }
  all: destruct n as [|n]; [cbn [String.length] in Hn; lia|].
  all: cbn [String.length] in Hn.
  all: cbn [ee_numeric_loop ee_head ee_len].
  all: assert (Hl : (String.length pre <? String.length code) = true)
         by (apply Nat.ltb_lt; subst code; rewrite string_length_app;
             cbn [String.length]; lia).
  all: rewrite Hl.
  all: unfold ee_cur; cbn [ee_code ee_head].
  all: match type of Hc with
       | _ = _ ++ String ?k ?s =>
           assert (Hk : code_at code (String.length pre) = k)
             by (subst code;
                 rewrite <- (Nat.add_0_r (String.length pre));
                 apply code_at_app);
           assert (Hc' : code = (pre ++ String k EmptyString) ++ s)
             by (subst code; rewrite string_app_assoc, string_app_cons,
                 string_app_nil_l; reflexivity)
       end.
  all: rewrite Hk.
  all: match goal with
       | |- context [isdigit ?k] => change (isdigit k) with true
       end.
  all: cbn [negb]. all: cbv iota.
  all: unfold ee_adv, ee_set_ival, ee_set_head;
         cbn [ee_code ee_len ee_head ee_ival ee_error].
  all: match goal with
       | |- context [wrap (_ * 10 + ?e)%Z] =>
           let v := eval vm_compute in e in change e with v
       end.
  all: match type of Hv with
       | (uint_value _ ?a < _)%Z =>
           pose proof (uint_value_grows d a ltac:(lia)) as Hg;
           rewrite (wrap_small a) by lia;
           specialize (IH code (pre ++ _) a n Hc' ltac:(lia) Hv ltac:(lia))
       end.
  all: rewrite string_length_app in IH; cbn [String.length] in IH.
  all: exact IH.
Qed.

Lemma string_of_uint_digit (d : Decimal.uint) :
  d <> Nil ->
  exists c s,
    NilEmpty.string_of_uint d = String c s /\ isdigit c = true.
Proof.
  destruct d; intros H; [congruence|..];
    cbn [NilEmpty.string_of_uint]; eexists; eexists; split; reflexivity.
Qed.

Lemma digit_char (c : ascii) :
  isdigit c = true ->
  isspace c = false /\ is_char c "(" = false /\
  (is_char c "-" || is_char c "+" || is_char c "~" || is_char c "!") = false.
Proof.
  destruct c as [[|] [|] [|] [|] [|] [|] [|] [|]]; vm_compute; intros H;
    try discriminate H; repeat split.
Qed.

Lemma ee_while_false (n : nat) (cond : expreval -> bool)
    (body : expreval -> option loop_step) (ee : expreval) :
  cond ee = false -> ee_while n cond body ee = Some ee.
Proof. intros H. destruct n; cbn [ee_while]; rewrite H; reflexivity. Qed.

Lemma ee_skip_spaces_at_end (ee : expreval) :
  ee_len ee <= ee_head ee -> ee_skip_spaces ee = ee.
Proof.
  intros H. unfold ee_skip_spaces.
  rewrite (proj2 (Nat.sub_0_le _ _) H). reflexivity.
Qed.

Lemma ee_skip_spaces_at_char (ee : expreval) :
  isspace (ee_cur ee) = false -> ee_skip_spaces ee = ee.
Proof.
  intros H. unfold ee_skip_spaces.
  destruct (ee_len ee - ee_head ee); cbn [ee_skip_spaces_loop];
    rewrite ?H, ?andb_false_r; reflexivity.
Qed.

Section AtEnd.

Variable FULL : bool.
Variable rec : expreval -> option expreval.
Variable n : nat.

(** Once the operand has taken the input to its end without an error,
    no binary operator is read. *)
Lemma ee_logor_at_end (ee e : expreval) :
  ee_unary rec n ee = Some e ->
  ee_head e = ee_len e -> ee_error e = 0 ->
  ee_logor FULL rec n ee = Some e.
Proof.
  intros Hu Hh He.
  assert (Hs : ee_skip_spaces e = e) by (apply ee_skip_spaces_at_end; lia).
  assert (Hl : (ee_head e <? ee_len e) = false)
    by (apply Nat.ltb_ge; lia).
  assert (M : ee_muldiv FULL rec n ee = Some e).
  { unfold ee_muldiv. rewrite Hu, He. cbn [Nat.eqb negb orb].
    destruct FULL; cbn [negb]; [|reflexivity].
    rewrite Hs. apply ee_while_false. unfold ee_muldiv_cond.
    rewrite Hl. reflexivity. }
  assert (A : ee_addsub FULL rec n ee = Some e).
  { unfold ee_addsub. rewrite M.
    destruct FULL; cbn [negb]; [|reflexivity].
    rewrite Hs. apply ee_while_false. rewrite Hl. reflexivity. }
  assert (S1 : ee_shift FULL rec n ee = Some e).
  { unfold ee_shift. rewrite A.
    destruct FULL; cbn [negb]; [|reflexivity].
    rewrite Hs. apply ee_while_false. rewrite Hl. reflexivity. }
  assert (C : ee_compare FULL rec n ee = Some e).
  { unfold ee_compare. rewrite S1, Hs. apply ee_while_false.
    rewrite Hl. reflexivity. }
  assert (Q : ee_equals FULL rec n ee = Some e).
  { unfold ee_equals. rewrite C, Hs. apply ee_while_false.
    rewrite Hl. reflexivity. }
  assert (B1 : ee_bitand FULL rec n ee = Some e).
  { unfold ee_bitand. rewrite Q.
    destruct FULL; cbn [negb]; [|reflexivity].
    rewrite Hs. apply ee_while_false. rewrite Hl. reflexivity. }
  assert (B2 : ee_bitor FULL rec n ee = Some e).
  { unfold ee_bitor. rewrite B1.
    destruct FULL; cbn [negb]; [|reflexivity].
    rewrite Hs. apply ee_while_false. rewrite Hl. reflexivity. }
  assert (L1 : ee_logand FULL rec n ee = Some e).
  { unfold ee_logand. rewrite B2, Hs. apply ee_while_false.
    rewrite Hl. reflexivity. }
  unfold ee_logor. rewrite L1, Hs. apply ee_while_false.
  rewrite Hl. reflexivity.
Qed.

(** An operand that is written with the digits of [d] *)
Lemma ee_unary_digits (d : Decimal.uint) (code pre : string) (v : Z) :
  d <> Nil ->
  code = pre ++ NilEmpty.string_of_uint d ->
  (uint_value d 0 < 2 ^ 63)%Z ->
  ee_unary rec n (mk_ee code (String.length code) (String.length pre) v 0) =
  Some (mk_ee code (String.length code) (String.length code)
          (uint_value d 0) 0).
Proof.
  intros Hd Hc Hv.
  destruct (string_of_uint_digit d Hd) as (c & s & Es & Dc).
  destruct (digit_char c Dc) as (C1 & C2 & C3).
  set (ee := mk_ee code (String.length code) (String.length pre) v 0).
  assert (Hcur : ee_cur ee = c).
  { unfold ee_cur, ee. cbn [ee_code ee_head]. subst code. rewrite Es.
    rewrite <- (Nat.add_0_r (String.length pre)). apply code_at_app. }
  assert (Hs : ee_skip_spaces ee = ee)
    by (apply ee_skip_spaces_at_char; rewrite Hcur; exact C1).
  assert (P : ee_paren rec ee =
              Some (mk_ee code (String.length code) (String.length code)
                      (uint_value d 0) 0)).
  { unfold ee_paren. rewrite Hs, Hcur, C2. unfold ee_element.
    rewrite Hcur, Dc. unfold ee_numeric_element. rewrite Hs.
    unfold ee_set_ival, ee. cbn [ee_code ee_len ee_head ee_ival ee_error].
    f_equal. apply ee_numeric_loop_digits; auto; [lia|].
    subst code. rewrite string_length_app. lia. }
  destruct n; cbn [ee_unary]; rewrite Hs, Hcur, C3, andb_false_r; exact P.
Qed.

Lemma ee_unary_minus (ee e : expreval) :
  ee_cur ee = "-"%char -> ee_head ee < ee_len ee -> ee_error ee = 0 ->
  ee_unary rec n (ee_adv 1 ee) = Some e -> ee_error e = 0 ->
  ee_unary rec (S n) ee = Some (ee_set_ival (wrap (- ee_ival e)) e).
Proof.
  intros Hc Hh He Hu He'. cbn [ee_unary].
  assert (Hs : ee_skip_spaces ee = ee)
    by (apply ee_skip_spaces_at_char; rewrite Hc; reflexivity).
  rewrite Hs, Hc, He. apply Nat.ltb_lt in Hh. rewrite Hh.
  change (is_char "-" "-") with true. cbn [Nat.eqb andb orb]. cbv iota.
  rewrite Hu, He'. cbn [Nat.eqb negb]. cbv iota. reflexivity.
Qed.

End AtEnd.

Section IntegerRoundtrip.

Context {W : Type}.
Context {PB : print_buffer}.

(** X17.  An integer that [lil_alloc_integer] has printed is read back by the
    expression evaluator as the same integer: the value of the expression
    is the text it was given. *)
Theorem expr_reads_back_integers (FULL : bool) (z : Z) (st : @lil W) :
  (- 2 ^ 63 < z < 2 ^ 63)%Z ->
  lil_eval_expr_result FULL (string_of_ssize z) st =
  Some (lil_alloc_integer z, st).
Proof.
  intros Hz. unfold lil_eval_expr_result, string_of_ssize.
  destruct z as [|p|p]; cbn [Z.to_int NilZero.string_of_int].
  - destruct FULL; vm_compute; reflexivity.
  - pose proof (Unsigned.to_uint_nonnil p) as Hd.
    pose proof (uint_value_of_uint (Pos.to_uint p)) as Hv.
    rewrite DecimalPos.Unsigned.of_to in Hv. cbn [Z.of_N] in Hv.
    assert (Es : NilZero.string_of_uint (Pos.to_uint p) =
                 NilEmpty.string_of_uint (Pos.to_uint p)).
    { unfold NilZero.string_of_uint. destruct (Pos.to_uint p); congruence. }
    rewrite Es.
    destruct (string_of_uint_digit _ Hd) as (c & s & Ec & Dc).
    set (code := NilEmpty.string_of_uint (Pos.to_uint p)) in *.
    assert (Hn : is_char (code_at code 0) NUL = false).
    { rewrite Ec. change (code_at (String c s) 0) with c.
      destruct (is_char c NUL) eqn:E; [|reflexivity].
      apply is_char_eq in E. subst c. discriminate Dc. }
    rewrite Hn. unfold ee_init, ee_fuel. cbn [ee_len ee_code ee_head].
    cbn [ee_expr].
    rewrite (ee_logor_at_end FULL _ _ _
               (mk_ee code (String.length code) (String.length code)
                  (Z.pos p) 0)); [|..|reflexivity|reflexivity].
    + cbv iota. unfold ee_expr_fix. cbn [ee_error ee_ival Nat.eqb negb].
      cbv iota. reflexivity.
    + rewrite <- Hv.
      apply (ee_unary_digits _ _ (Pos.to_uint p) code EmptyString 0%Z Hd);
        [reflexivity|lia].
  - pose proof (Unsigned.to_uint_nonnil p) as Hd.
    pose proof (uint_value_of_uint (Pos.to_uint p)) as Hv.
    rewrite DecimalPos.Unsigned.of_to in Hv. cbn [Z.of_N] in Hv.
    assert (Es : NilZero.string_of_uint (Pos.to_uint p) =
                 NilEmpty.string_of_uint (Pos.to_uint p)).
    { unfold NilZero.string_of_uint. destruct (Pos.to_uint p); congruence. }
    rewrite Es.
    set (digits := NilEmpty.string_of_uint (Pos.to_uint p)) in *.
    set (code := String "-" digits).
    change (is_char (code_at code 0) NUL) with false. cbv iota.
    unfold ee_init, ee_fuel. cbn [ee_len ee_code ee_head].
    cbn [ee_expr].
    rewrite (ee_logor_at_end FULL _ _ _
               (mk_ee code (String.length code) (String.length code)
                  (Z.neg p) 0)); [|..|reflexivity|reflexivity].
    + cbv iota. unfold ee_expr_fix. cbn [ee_error ee_ival Nat.eqb negb].
      cbv iota. reflexivity.
    + rewrite Nat.sub_0_r.
      replace (Nat.max (String.length code) (String.length code))
        with (S (String.length digits)) by (unfold code; simpl; lia).
      match goal with
      | |- ee_unary ?r _ _ = _ =>
          pose proof (ee_unary_digits r (S (String.length digits))
                        (Pos.to_uint p) code (String "-" EmptyString) 0%Z Hd
                        eq_refl ltac:(lia)) as U;
          rewrite (ee_unary_minus r _ (mk_ee code (String.length code) 0 0 0)
                     _ eq_refl ltac:(unfold code; simpl; lia) eq_refl U
                     eq_refl)
      end.
      unfold ee_set_ival. cbn [ee_code ee_len ee_head ee_ival ee_error].
      rewrite Hv, wrap_small by lia. reflexivity.
Qed.

End IntegerRoundtrip.

Lemma expr_reads_back_integers_witness :
  (- 2 ^ 63 < - 1234567890123 < 2 ^ 63)%Z /\
  lil_eval_expr_result true (string_of_ssize (- 1234567890123)) test_lil =
  Some (lil_alloc_integer (- 1234567890123), test_lil).
Proof.
  assert (H : (- 2 ^ 63 < - 1234567890123 < 2 ^ 63)%Z) by lia.
  split; [exact H|].
  exact (expr_reads_back_integers true (- 1234567890123) test_lil H).
Defined.

(** ** Lists through the built-in commands *)

Lemma cstr_nonul (v : string) : string_forallb nonul v = true -> cstr v = v.
Proof.
  induction v as [|c v IH]; [reflexivity|].
  cbn [string_forallb cstr]. intros H. apply andb_prop in H.
  destruct H as [Hc Hv]. unfold nonul in Hc. apply negb_true_iff in Hc.
  rewrite Hc, (IH Hv). reflexivity.
Qed.

Section ListCommands.

Context {W : Type}.
Context {PB : print_buffer}.
Variable parse_rec : string -> nat -> bool -> @M W (option lil_value).

(** X18.  [count] of what [list] has built from its arguments is their number. *)
Theorem fnc_count_of_list (argv : list lil_value) (st : @lil W) :
  lil_err st = ERROR_NOERROR ->
  forallb no_control_chars argv = true ->
  exists v,
    fnc_list argv st = Some (Some v, st) /\
    fnc_count parse_rec (v :: nil) st =
    Some (Some (alloc_value (Some (string_of_unsigned (length argv)))), st).
Proof.
  intros He Hc. eexists. split; [reflexivity|].
  unfold fnc_count. cbn [length Nat.eqb lil_arg nth_error].
  rewrite lil_subst_to_list_nul_free;
    [reflexivity|exact He|apply no_control_chars_nul_free; exact Hc].
Qed.

Lemma fnc_indexof_loop_first (x : string) (L : lil_list) :
  forall index,
    (forall i v,
       nth_error L i = Some v -> streq v x = true ->
       (forall j v', j < i -> nth_error L j = Some v' -> streq v' x = false) ->
       fnc_indexof_loop index L x =
       lil_alloc_integer (wrap (Z.of_nat (index + i)))) /\
    ((forall v, In v L -> streq v x = false) ->
     fnc_indexof_loop index L x = None).
Proof.
  induction L as [|a L IH]; intros index; split.
  - intros [|i] v H; discriminate H.
  - reflexivity.
  - intros [|i] v Hn Hs Hl; cbn [nth_error] in Hn;
      cbn [fnc_indexof_loop lil_to_string].
    + injection Hn as ->. rewrite Hs, Nat.add_0_r. reflexivity.
    + rewrite (Hl 0 a) by (reflexivity || lia).
      destruct (IH (S index)) as [IH1 _].
      rewrite (IH1 i v Hn Hs).
      * do 3 f_equal. lia.
      * intros j v' Hj Hv'. apply (Hl (S j) v'); [lia|exact Hv'].
  - intros Hall. cbn [fnc_indexof_loop lil_to_string].
    rewrite (Hall a) by (left; reflexivity).
    destruct (IH (S index)) as [_ IH2]. apply IH2.
    intros v Hv. apply Hall. right. exact Hv.
Qed.

(** X19.  [indexof] on a serialized list: the position of the first entry whose C
    string is that of the value looked for, and no value when there is
    none. *)
Theorem fnc_indexof_first (L : lil_list) (x : lil_value) (st : @lil W) :
  lil_err st = ERROR_NOERROR ->
  forallb no_control_chars L = true ->
  (forall i v,
     nth_error L i = Some v -> streq v x = true ->
     (forall j v', j < i -> nth_error L j = Some v' -> streq v' x = false) ->
     fnc_indexof parse_rec (lil_list_to_value L true :: x :: nil) st =
     Some (lil_alloc_integer (wrap (Z.of_nat i)), st)) /\
  ((forall v, In v L -> streq v x = false) ->
   fnc_indexof parse_rec (lil_list_to_value L true :: x :: nil) st =
   Some (None, st)).
Proof.
  intros He Hc.
  assert (R : lil_subst_to_list parse_rec
                (Some (lil_list_to_value L true)) st = Some (L, st))
    by (apply lil_subst_to_list_nul_free;
        [exact He|apply no_control_chars_nul_free; exact Hc]).
  destruct (fnc_indexof_loop_first x L 0) as [F1 F2].
  split.
  - intros i v Hn Hs Hl. unfold fnc_indexof.
    cbn [length Nat.ltb Nat.leb lil_arg nth_error lil_to_string].
    rewrite R. cbv beta iota. rewrite (F1 i v Hn Hs Hl). reflexivity.
  - intros Hall. unfold fnc_indexof.
    cbn [length Nat.ltb Nat.leb lil_arg nth_error lil_to_string].
    rewrite R. cbv beta iota. rewrite (F2 Hall). reflexivity.
Qed.

Lemma fnc_length_loop_join (argv : list lil_value) :
  forall i r,
    Forall (fun v => string_forallb nonul v = true) argv ->
    String.length (join_args i argv r) =
    fnc_length_loop i argv (String.length r).
Proof.
  induction argv as [|a argv IH]; intros i r H; [reflexivity|].
  inversion H as [|x l Ha Hr]. subst x l.
  cbn [join_args fnc_length_loop lil_to_string]. rewrite (IH _ _ Hr).
  f_equal. unfold lil_append_val, lil_append_char, strlen.
  rewrite (cstr_nonul a Ha).
  destruct (i =? 0); rewrite !string_length_app; cbn [String.length]; lia.
Qed.

(** X20.  [length] of arguments without NUL bytes is the length of what [quote]
    builds from them. *)
Theorem fnc_length_of_quote (a : lil_value) (argv : list lil_value)
    (st : @lil W) :
  nul_free (a :: argv) ->
  exists v,
    fnc_quote (a :: argv) st = Some (Some v, st) /\
    fnc_length (a :: argv) st =
    Some (lil_alloc_integer (wrap (Z.of_nat (String.length v))), st).
Proof.
  intros H. eexists. split; [reflexivity|].
  unfold fnc_length. rewrite (fnc_length_loop_join (a :: argv) 0 _ H).
  reflexivity.
Qed.

End ListCommands.

(** X21.  Two lists without control characters that are written the same are the
    same list. *)
Theorem lil_list_to_value_injective (L1 L2 : lil_list) :
  forallb no_control_chars L1 = true ->
  forallb no_control_chars L2 = true ->
  lil_list_to_value L1 true = lil_list_to_value L2 true ->
  L1 = L2.
Proof.
  intros H1 H2 E.
  pose (parse := fun (_ : string) (_ : nat) (_ : bool) (_ : @lil unit) =>
                   @None (option lil_value * @lil unit)).
  pose (st := set_lil_err ERROR_NOERROR (lil_new false tt)).
  pose proof (lil_subst_to_list_nul_free parse L1 st eq_refl
                (no_control_chars_nul_free L1 H1)) as R1.
  pose proof (lil_subst_to_list_nul_free parse L2 st eq_refl
                (no_control_chars_nul_free L2 H2)) as R2.
  rewrite E in R1. rewrite R1 in R2. congruence.
Qed.

Lemma fnc_count_of_list_witness :
  lil_err test_lil = ERROR_NOERROR /\
  exists v,
    fnc_list ("a" :: "b c" :: "{" :: nil) test_lil = Some (Some v, test_lil) /\
    fnc_count (test_parse_rec 0) (v :: nil) test_lil =
    Some (Some (alloc_value (Some (string_of_unsigned 3))), test_lil).
Proof.
  split; [reflexivity|].
  apply (fnc_count_of_list (test_parse_rec 0) ("a" :: "b c" :: "{" :: nil)
           test_lil).
  - reflexivity.
  - vm_compute. reflexivity.
Defined.

Lemma fnc_indexof_first_witness :
  lil_err test_lil = ERROR_NOERROR /\
  nth_error ("a" :: "b c" :: "b c" :: nil) 1 = Some "b c" /\
  fnc_indexof (test_parse_rec 0)
    (lil_list_to_value ("a" :: "b c" :: "b c" :: nil) true :: "b c" :: nil)
    test_lil =
  Some (lil_alloc_integer (wrap (Z.of_nat 1)), test_lil).
Proof.
  split; [reflexivity|]. split; [reflexivity|].
  assert (Hc : forallb no_control_chars ("a" :: "b c" :: "b c" :: nil) = true)
    by (vm_compute; reflexivity).
  destruct (fnc_indexof_first (test_parse_rec 0)
              ("a" :: "b c" :: "b c" :: nil) "b c" test_lil eq_refl Hc)
    as [T _].
  apply (T 1 "b c"); [reflexivity|reflexivity|].
  intros [|j] v' Hj Hv; [|lia]. injection Hv as <-. reflexivity.
Defined.

Lemma fnc_length_of_quote_witness :
  nul_free ("ab" :: "c d" :: nil) /\
  exists v,
    fnc_quote ("ab" :: "c d" :: nil) test_lil = Some (Some v, test_lil) /\
    fnc_length ("ab" :: "c d" :: nil) test_lil =
    Some (lil_alloc_integer (wrap (Z.of_nat (String.length v))), test_lil).
Proof.
  assert (H : nul_free ("ab" :: "c d" :: nil))
    by (repeat constructor).
  split; [exact H|].
  exact (fnc_length_of_quote "ab" ("c d" :: nil) test_lil H).
Defined.

Lemma lil_list_to_value_injective_witness :
  lil_list_to_value ("a b" :: "c" :: nil) true =
  lil_list_to_value ("a b" :: "c" :: nil) true /\
  "a b" :: "c" :: nil = "a b" :: "c" :: nil.
Proof.
  split; [reflexivity|].
  apply lil_list_to_value_injective;
    [vm_compute; reflexivity|vm_compute; reflexivity|reflexivity].
Defined.

(** ** A brace that is not closed *)

Section Unbalanced.

Context {W : Type}.
Context {PB : print_buffer}.
Variable parse_rec : string -> nat -> bool -> @M W (option lil_value).

Lemma balanced_scan_open (c0 : string) :
  forall (n : nat) (val : lil_value) (st : @lil W),
    at_text st c0 ->
    string_forallb nobrace c0 = true ->
    String.length c0 <= n ->
    balanced_scan "{" "}" n 1 val st =
    (1, val ++ c0, set_lil_head (lil_head st + String.length c0) st).
Proof.
  induction c0 as [|c w IH]; intros n val st A F L.
  - cbn [String.length]. rewrite Nat.add_0_r, set_lil_head_id,
      string_app_nil_r.
    destruct n; cbn [balanced_scan]; rewrite ?(at_text_end st A);
      reflexivity.
  - cbn [string_forallb] in F. apply andb_prop in F. destruct F as [Fc F].
    unfold nobrace in Fc. apply andb_prop in Fc. destruct Fc as [F1 F2].
    apply negb_true_iff in F1, F2.
    destruct n as [|n]; [cbn [String.length] in L; lia|].
    cbn [String.length] in L. cbn [balanced_scan].
    destruct (at_text_cur st _ _ A) as [-> ->]. rewrite F1, F2.
    rewrite (IH n _ (lil_adv 1 st)); auto;
      [|eapply at_text_adv; eauto|lia].
    unfold lil_adv, lil_append_char.
    rewrite set_lil_head_twice, lil_head_set, string_app_assoc.
    f_equal. f_equal. cbn [String.length]. lia.
Qed.

(** X22.  A brace that the rest of the text does not close: [next_word] returns
    the empty value and sets an error at the end of the text, whose message
    is what the print buffer of [CONFIG_SYS_PBSIZE] bytes keeps of
    "expected }": all of it when the buffer has more than ten bytes. *)
Theorem unbalanced_brace_is_an_error (c0 : string) (st : @lil W) :
  at_text st (String "{" c0) ->
  string_forallb nobrace c0 = true ->
  lil_err st = ERROR_NOERROR ->
  exists st',
    next_word parse_rec st = Some (EmptyString, st') /\
    lil_err st' = ERROR_UNBALANCED /\
    lil_err_msg st' = Some (vsnprintf CONFIG_SYS_PBSIZE "expected }") /\
    (10 < CONFIG_SYS_PBSIZE -> lil_err_msg st' = Some "expected }") /\
    lil_err_head st' = lil_clen st /\
    lil_head st' = lil_clen st.
Proof.
  intros A F He. unfold next_word. cbn [next_word_n].
  rewrite (lil_skip_spaces_stay st _ _ A eq_refl).
  destruct (at_text_cur st _ _ A) as [-> _].
  change (is_char "{" "$") with false. change (is_char "{" "{") with true.
  cbv iota.
  pose proof (at_text_adv st _ _ A) as A1.
  rewrite (balanced_scan_open c0 _ _ _ A1 F)
    by (rewrite (at_text_left _ _ A1); lia).
  cbn [Nat.eqb negb]. cbv iota beta.
  unfold lil_set_error_unbalanced, lil_set_errorf_at, lil_set_error_at.
  change (lil_err (set_lil_head _ (lil_adv 1 st))) with (lil_err st).
  rewrite He. cbn [is_error]. cbv iota.
  assert (T : cstr (vsnprintf CONFIG_SYS_PBSIZE "expected }") =
              vsnprintf CONFIG_SYS_PBSIZE "expected }")
    by (apply cstr_vsnprintf; reflexivity).
  eexists. split; [reflexivity|].
  split; [reflexivity|].
  split; [cbn [lil_err_msg set_lil_err set_lil_err_msg lil_to_string];
          change ("expected " ++ String "}" EmptyString)
            with "expected }"; rewrite T; reflexivity|].
  split; [intros Hfit;
          cbn [lil_err_msg set_lil_err set_lil_err_msg lil_to_string];
          change ("expected " ++ String "}" EmptyString)
            with "expected }"; rewrite T;
          rewrite vsnprintf_fits by exact Hfit; reflexivity|].
  pose proof (at_text_left st _ A) as LA. cbn [String.length] in LA.
  assert (Hle : lil_head st <= lil_clen st)
    by (destruct A as (pre & _ & H & C); lia).
  split; cbn; lia.
Qed.

End Unbalanced.

Lemma unbalanced_brace_is_an_error_witness :
  at_text test_open_brace (String "{" "abc") /\
  exists st',
    next_word (test_parse_rec 0) test_open_brace =
      Some (EmptyString, st') /\
    lil_err st' = ERROR_UNBALANCED /\
    lil_err_msg st' = Some "expected }".
Proof.
  assert (A : at_text test_open_brace (String "{" "abc"))
    by (exists EmptyString; repeat split).
  split; [exact A|].
  destruct (unbalanced_brace_is_an_error (test_parse_rec 0) "abc"
              test_open_brace A eq_refl eq_refl)
    as (st' & N & E1 & _ & E2 & _).
  exists st'. repeat split; try assumption.
  apply E2. apply Nat.ltb_lt. vm_compute. reflexivity.
Defined.

(** ** The loop of [while] *)

Section While.

Context {W : Type}.
Context {PB : print_buffer}.
Variable ctrlc : W -> bool * W.
Variable FULL : bool.
Variable parse_rec : string -> nat -> bool -> @M W (option lil_value).

(** X23.  What holds of the interpreter before the loop of [while], and is kept
    by every evaluation of the test and of the body, holds when the loop
    returns; and it returns only with the error slot set, or with the frame
    unwinding, or straight after a test that gave no value or a false
    one. *)
Theorem fnc_while_loop_rule (Inv : @lil W -> Prop) (isnot : bool)
    (cond body : option lil_value) (n : nat) :
  (forall s v s',
     Inv s -> lil_eval_expr ctrlc FULL parse_rec cond s = Some (v, s') ->
     Inv s') ->
  (forall s v s',
     Inv s -> lil_parse_value parse_rec body false s = Some (v, s') ->
     Inv s') ->
  forall (r r' : option lil_value) (st st' : @lil W),
    Inv st ->
    fnc_while_loop ctrlc FULL parse_rec n isnot cond body r st =
      Some (r', st') ->
    Inv st' /\
    (is_error (lil_err st') = true \/
     env_breakrun (cur_env st') = true \/
     exists s v,
       lil_eval_expr ctrlc FULL parse_rec cond s = Some (v, st') /\
       match v with
       | None => True
       | Some _ =>
           (if isnot then negb (lil_to_boolean v) else lil_to_boolean v) =
           false
       end).
Proof.
  intros Ht Hb. induction n as [|n IH]; intros r r' st st' Hi H;
    cbn [fnc_while_loop] in H.
  - destruct (is_error (lil_err st)) eqn:E1; cbn [negb andb] in H.
    + injection H as <- <-. auto.
    + destruct (env_breakrun (cur_env st)) eqn:E2; cbn [negb] in H;
        [|discriminate]. injection H as <- <-. auto.
  - destruct (is_error (lil_err st)) eqn:E1; cbn [negb andb] in H.
    { injection H as <- <-. auto. }
    destruct (env_breakrun (cur_env st)) eqn:E2; cbn [negb] in H.
    { injection H as <- <-. auto. }
    destruct (lil_eval_expr ctrlc FULL parse_rec cond st)
      as [[val s1]|] eqn:Ev; [|discriminate].
    pose proof (Ht _ _ _ Hi Ev) as Hi1.
    destruct val as [v|].
    + destruct (is_error (lil_err s1)) eqn:E3.
      { injection H as <- <-. auto. }
      destruct (negb (if isnot then negb (lil_to_boolean (Some v))
                      else lil_to_boolean (Some v))) eqn:E4.
      * injection H as <- <-. split; [exact Hi1|].
        right. right. exists st, (Some v). split; [exact Ev|].
        apply negb_true_iff in E4. exact E4.
      * destruct (lil_parse_value parse_rec body false s1)
          as [[r1 s2]|] eqn:Ep; [|discriminate].
        apply (IH r1 r' s2 st'); [|exact H].
        apply (Hb _ _ _ Hi1 Ep).
    + injection H as <- <-. split; [exact Hi1|].
      right. right. exists st, None. split; [exact Ev|exact I].
Qed.

End While.

Lemma fnc_while_loop_rule_witness :
  exists r' st',
    fnc_while_loop test_ctrlc true (test_parse_rec 5) 3 false (Some "1 - 1")
      (Some "quote x") None test_lil = Some (r', st') /\
    (is_error (lil_err st') = true \/
     env_breakrun (cur_env st') = true \/
     exists s v,
       lil_eval_expr test_ctrlc true (test_parse_rec 5) (Some "1 - 1") s =
         Some (v, st') /\
       match v with
       | None => True
       | Some _ => lil_to_boolean v = false
       end).
Proof.
  destruct (fnc_while_loop test_ctrlc true (test_parse_rec 5) 3 false
              (Some "1 - 1") (Some "quote x") None test_lil)
    as [[r' st']|] eqn:E; [|vm_compute in E; discriminate E].
  exists r', st'. split; [reflexivity|].
  apply (fnc_while_loop_rule test_ctrlc true (test_parse_rec 5)
           (fun _ => True) false (Some "1 - 1") (Some "quote x") 3
           (fun _ _ _ _ _ => I) (fun _ _ _ _ _ => I) None r' test_lil st' I E).
Defined.

(** A loop in a script, through the table [lil_extern]. *)
Example while_in_script :
  (exists st',
     test_parse_ext 20
       "set i 0; while {$i < 3} {set i [expr $i + 1]}; set i" 0 false
       test_lil =
     Some (Some "3", st')) /\
  (exists st',
     test_parse_ext 20
       "func f {} {while 1 {return 7}; quote no}; f" 0 false test_lil =
     Some (Some "7", st')) /\
  (exists st',
     test_parse_ext 20 "indexof [list a {b c} d] {b c}" 0 false test_lil =
     Some (Some "1", st')) /\
  (exists st',
     test_parse_ext 20 "length ab {c d}" 0 false test_lil =
     Some (Some "6", st')).
Proof. repeat split; eexists; vm_compute; reflexivity. Qed.

(** ** Commands: dispatch and definition *)

Section Dispatch.

Context {W : Type}.
Context {PB : print_buffer}.
Variable ctrlc : W -> bool * W.
Variable env_set : string -> string -> W -> Z * W.
Variable env_get : string -> W -> option string.
Variable FULL : bool.
Variable extern_proc :
  (string -> nat -> bool -> @M W (option lil_value)) ->
  lil_func_proc_t -> list lil_value -> @M W (option lil_value).
Variable parse_rec : string -> nat -> bool -> @M W (option lil_value).

(** X24.  [run_cmd] never leaves the kind [ERROR_FIXHEAD] behind a native
    command: an error that the command has set through [lil_set_error]
    becomes an [ERROR_DEFAULT] at the cursor of the call; so the command
    [error], called with a message, reports that message there. *)
Theorem run_cmd_fixes_error_position (cmd : nat)
    (proc : lil_func_proc_t) (words : lil_list) (st st' : @lil W)
    (r : option lil_value) :
  func_proc (deref_func st cmd) = Some proc ->
  run_cmd ctrlc env_set env_get FULL extern_proc parse_rec cmd words st =
    Some (r, st') ->
  lil_err st' <> ERROR_FIXHEAD /\
  (forall w0 msg rest,
     proc = proc_fnc_error -> words = w0 :: msg :: rest ->
     lil_err st = ERROR_NOERROR ->
     r = None /\ lil_err st' = ERROR_DEFAULT /\
     lil_err_head st' = lil_head st /\ lil_err_msg st' = Some (cstr msg)).
Proof.
  intros Hp H. unfold run_cmd in H. rewrite Hp in H.
  destruct (call_proc _ _ _ _ _ _ _ _ _) as [[r1 s1]|] eqn:Ec;
    [|discriminate].
  injection H as <- <-. split.
  - destruct (lil_err s1) eqn:E; cbn; congruence.
  - intros w0 msg rest -> -> He. cbn [tl call_proc] in Ec.
    unfold fnc_error, lil_set_error in Ec. rewrite He in Ec.
    cbn [is_error length Nat.ltb Nat.leb lil_arg nth_error lil_to_string]
      in Ec.
    injection Ec as <- <-. cbn. auto.
Qed.

(** X25.  [func] with a name, a list of argument names and a body, for a name
    without a dot that names no command yet: the name is returned, and
    [lil_find_cmd] finds under it a script function with those argument
    names and that body. *)
Theorem fnc_func_defines (name body : lil_value) (argnames rest : lil_list)
    (st : @lil W) :
  lil_err st = ERROR_NOERROR ->
  forallb no_control_chars argnames = true ->
  strchr name "." = None ->
  fst (lil_find_cmd st name) = None ->
  exists st' cmd,
    fnc_func parse_rec
      (name :: lil_list_to_value argnames true :: body :: rest) st =
      Some (Some name, st') /\
    fst (lil_find_cmd st' name) = Some cmd /\
    deref_func st' cmd = mk_func (cstr name) (Some body) (Some argnames) None.
Proof.
  intros He Hc Hd Hf. unfold fnc_func.
  cbn [length Nat.ltb Nat.leb lil_arg nth_error lil_to_string].
  rewrite lil_subst_to_list_nul_free;
    [|exact He|apply no_control_chars_nul_free; exact Hc].
  cbv beta iota. unfold add_func. rewrite Hf. cbv beta iota.
  unfold lil_clone_value.
  set (cmd := length (lil_cmd st)).
  set (st1 := set_lil_cmdmap (hm_put (lil_cmdmap st) name cmd)
                (set_lil_cmd (lil_cmd st ++ mk_func (cstr name) None None None
                                :: nil)%list st)).
  eexists. exists cmd. split; [reflexivity|]. split.
  - unfold lil_find_cmd. rewrite Hd. cbn [fst].
    change (lil_cmdmap (update_func cmd _ st1))
      with (hm_put (lil_cmdmap st) name cmd).
    apply hm_get_put_same. apply streq_refl.
  - unfold deref_func at 1. unfold update_func, deref_func.
    change (lil_cmd (set_lil_cmd ?l _)) with l.
    change (lil_cmd st1)
      with (lil_cmd st ++ mk_func (cstr name) None None None :: nil)%list.
    unfold cmd. rewrite nth_middle.
    rewrite <- (Nat.add_0_r (length (lil_cmd st))) at 2.
    rewrite insert_app_r. cbn [insert list_insert].
    rewrite nth_middle. reflexivity.
Qed.

End Dispatch.

(** X26.  [lil_new] with [CONFIG_LIL_FULL] registers every command of the two
    tables under its procedure, counts them all as system commands, and
    starts in the root environment with no error. *)
Theorem lil_new_registers_stdcmds {W : Type} (w : W) :
  Forall
    (fun c =>
       exists cmd,
         fst (lil_find_cmd (lil_new true w) (fst c)) = Some cmd /\
         func_proc (deref_func (lil_new true w) cmd) = Some (snd c))
    (stdcmds_base ++ stdcmds_full) /\
  lil_syscmds (lil_new true w) = length (stdcmds_base ++ stdcmds_full) /\
  lil_envp (lil_new true w) = lil_rootenv (lil_new true w) /\
  lil_err (lil_new true w) = ERROR_NOERROR.
Proof.
  split; [|vm_compute; auto].
  unfold stdcmds_base, stdcmds_full. cbn [app].
  repeat (constructor; [eexists; split; vm_compute; reflexivity|]).
  constructor.
Qed.

Lemma run_cmd_fixes_error_position_witness :
  func_proc (deref_func test_lil 23) = Some proc_fnc_error /\
  exists st',
    run_cmd test_ctrlc test_env_set test_env_get true test_extern
      (test_parse_rec 0) 23 ("error" :: "boom" :: nil) test_lil =
      Some (None, st') /\
    lil_err st' = ERROR_DEFAULT /\ lil_err_msg st' = Some "boom".
Proof.
  assert (H1 : func_proc (deref_func test_lil 23) = Some proc_fnc_error)
    by (vm_compute; reflexivity).
  split; [exact H1|].
  destruct (run_cmd test_ctrlc test_env_set test_env_get true test_extern
              (test_parse_rec 0) 23 ("error" :: "boom" :: nil) test_lil)
    as [[r st']|] eqn:E; [|vm_compute in E; discriminate E].
  destruct (run_cmd_fixes_error_position test_ctrlc test_env_set test_env_get
              true test_extern (test_parse_rec 0) 23 proc_fnc_error
              ("error" :: "boom" :: nil) test_lil st' r H1 E) as [_ T].
  destruct (T "error" "boom" nil eq_refl eq_refl eq_refl)
    as (-> & T1 & _ & T2).
  exists st'. repeat split; assumption.
Defined.

Lemma fnc_func_defines_witness :
  lil_err test_lil = ERROR_NOERROR /\
  strchr "sq" "." = None /\
  fst (lil_find_cmd test_lil "sq") = None /\
  exists st' cmd,
    fnc_func (test_parse_rec 0)
      ("sq" :: lil_list_to_value ("x" :: nil) true :: "expr $x * $x" :: nil)
      test_lil = Some (Some "sq", st') /\
    fst (lil_find_cmd st' "sq") = Some cmd /\
    deref_func st' cmd =
    mk_func (cstr "sq") (Some "expr $x * $x") (Some ("x" :: nil)) None.
Proof.
  assert (H1 : lil_err test_lil = ERROR_NOERROR) by reflexivity.
  assert (H2 : forallb no_control_chars ("x" :: nil) = true)
    by (vm_compute; reflexivity).
  assert (H3 : strchr "sq" "." = None) by reflexivity.
  assert (H4 : fst (lil_find_cmd test_lil "sq") = None)
    by (vm_compute; reflexivity).
  split; [exact H1|]. split; [exact H3|]. split; [exact H4|].
  exact (fnc_func_defines (test_parse_rec 0) "sq" "expr $x * $x"
           ("x" :: nil) nil test_lil H1 H2 H3 H4).
Defined.

(** * Lookup, unwinding, the error slot and division by zero *)

(** ** Variables: two levels *)

Lemma last_named_app (vars : list lil_var) (v : lil_var) (name : string) :
  forall i,
    last_named (vars ++ v :: nil) name i =
    if streq (var_n v) name then Some (i + length vars)
    else last_named vars name i.
Proof.
  induction vars as [|a r IH]; intros i; cbn [last_named app length].
  - rewrite Nat.add_0_r. reflexivity.
  - rewrite IH. destruct (streq (var_n v) name); [f_equal; lia|reflexivity].
Qed.

Lemma last_named_spec (vars : list lil_var) (name : string) :
  forall i j,
    last_named vars name i = Some j ->
    i <= j /\ j < i + length vars /\
    streq (var_n (nth (j - i) vars null_var)) name = true.
Proof.
  induction vars as [|a r IH]; intros i j H; cbn [last_named] in H;
    [discriminate|].
  cbn [length]. destruct (last_named r name (S i)) as [k|] eqn:E.
  - injection H as <-. destruct (IH (S i) k E) as (L1 & L2 & L3).
    split; [lia|]. split; [lia|].
    replace (k - i) with (S (k - S i)) by lia. exact L3.
  - destruct (streq (var_n a) name) eqn:S; [|discriminate].
    injection H as <-. split; [lia|]. split; [lia|].
    rewrite Nat.sub_diag. exact S.
Qed.

Lemma env_ok_init (a : nat) (parent : option nat) :
  env_ok a (lil_alloc_env_init parent).
Proof.
  split.
  - intros name. cbn. apply hm_get_init.
  - cbn. intros i Hi. lia.
Qed.

(** The tail of [lil_set_var], which appends a variable and files it in the
    map, keeps an environment in order. *)
Lemma env_ok_create (a : nat) (e : lil_env) (name : string)
    (w : option string) (v : option lil_value) :
  env_ok a e ->
  env_ok a
    (set_env_varmap (hm_put (env_varmap e) name (a, length (env_var e)))
       (set_env_var (env_var e ++ mk_var (cstr name) w a v :: nil)%list e)).
Proof.
  intros [M O]. split.
  - intros N. cbn [env_varmap set_env_varmap set_env_var].
    unfold owned_var. cbn [env_var set_env_varmap set_env_var].
    rewrite last_named_app. cbn [var_n]. rewrite streq_cstr_l.
    destruct (streq name N) eqn:S.
    + rewrite (hm_get_put_same _ _ _ _ S). reflexivity.
    + rewrite (hm_get_put_other _ _ _ _ S). apply M.
  - cbn [env_var set_env_varmap set_env_var]. intros i Hi.
    rewrite length_app in Hi. cbn [length] in Hi.
    destruct (Nat.lt_ge_cases i (length (env_var e))) as [L|L].
    + rewrite app_nth1 by exact L. apply O. exact L.
    + replace i with (length (env_var e)) by lia.
      rewrite nth_middle. reflexivity.
Qed.

(** An assignment to a variable that exists changes its value or its
    watch, not its name nor its owner, and keeps an environment in order. *)
Lemma last_named_insert (f : lil_var -> lil_var) (name : string) :
  (forall v, var_n (f v) = var_n v) ->
  forall (vars : list lil_var) (k i : nat),
    last_named (<[k := f (nth k vars null_var)]> vars) name i =
    last_named vars name i.
Proof.
  intros Hf. induction vars as [|a r IH]; intros k i; [reflexivity|].
  destruct k as [|k]; cbn [last_named nth].
  - change (<[0 := f a]> (a :: r)) with (f a :: r).
    cbn [last_named]. rewrite Hf. reflexivity.
  - change (<[S k := f (nth k r null_var)]> (a :: r))
      with (a :: <[k := f (nth k r null_var)]> r).
    cbn [last_named]. rewrite IH. reflexivity.
Qed.

Lemma env_ok_assign (a k : nat) (e : lil_env) (f : lil_var -> lil_var) :
  (forall v, var_n (f v) = var_n v) ->
  (forall v, var_env (f v) = var_env v) ->
  env_ok a e ->
  env_ok a
    (set_env_var (<[k := f (nth k (env_var e) null_var)]> (env_var e)) e).
Proof.
  intros Hn He [M O]. split.
  - intros N. unfold owned_var. cbn [env_var env_varmap set_env_var].
    rewrite (last_named_insert f N Hn). apply M.
  - cbn [env_var set_env_var]. intros i Hi. rewrite length_insert in Hi.
    destruct (Nat.eq_dec i k) as [->|Hne].
    + rewrite nth_lookup, list_lookup_insert_eq by exact Hi.
      simpl. rewrite He. apply O. exact Hi.
    + rewrite nth_lookup, list_lookup_insert_ne by congruence.
      rewrite <- nth_lookup. apply O. exact Hi.
Qed.

Section TwoLevel.

Context {W : Type}.
Context {PB : print_buffer}.

Lemma lil_find_var_unfold (s : @lil W) (E : nat) (N : string) :
  lil_find_var s E N =
  match lil_find_local_var s E N with
  | Some v => Some v
  | None =>
      if E =? lil_rootenv s then None
      else lil_find_local_var s (lil_rootenv s) N
  end.
Proof.
  unfold lil_find_var. simpl.
  destruct (lil_find_local_var s E N); [reflexivity|].
  destruct (E =? lil_rootenv s); [reflexivity|].
  destruct (lil_find_local_var s (lil_rootenv s) N); [reflexivity|].
  rewrite Nat.eqb_refl. reflexivity.
Qed.

Lemma owned_var_spec (s : @lil W) (a i : nat) (N : string) :
  env_ok a (deref_env s a) ->
  owned_var (deref_env s a) N = Some i ->
  i < length (env_var (deref_env s a)) /\
  streq (var_n (deref_var s (a, i))) N = true /\
  var_env (deref_var s (a, i)) = a.
Proof.
  intros [_ O] H. unfold owned_var in H.
  destruct (last_named_spec _ _ _ _ H) as (_ & L & S).
  rewrite Nat.sub_0_r in S. cbn [Nat.add] in L.
  split; [exact L|]. split; [exact S|]. apply O. exact L.
Qed.

(** C4.  In a state whose environment [E] and root environment are as
    [lil_set_var] builds them, [lil_find_var] returns the variable named
    [N] that [E] owns; failing that, and when [E] is not the root, the one
    that the root owns; failing that, nothing.  What it returns is a
    variable of [E] or of the root, named [N] and recording its owner, and
    it is the same whatever any other environment [P], an intermediate
    parent included, owns.  A variable that [lil_set_var] creates in [E]
    under [N] is the one returned from then on. *)
Theorem lil_find_var_two_level (st : @lil W) (E : nat) (N : string) :
  let root := lil_rootenv st in
  env_ok E (deref_env st E) ->
  env_ok root (deref_env st root) ->
  lil_find_var st E N =
    match owned_var (deref_env st E) N with
    | Some i => Some (E, i)
    | None =>
        if E =? root then None
        else option_map (fun i => (root, i)) (owned_var (deref_env st root) N)
    end /\
  (forall p : var_ptr,
     lil_find_var st E N = Some p ->
     (fst p = E \/ fst p = root) /\
     snd p < length (env_var (deref_env st (fst p))) /\
     streq (var_n (deref_var st p)) N = true /\
     var_env (deref_var st p) = fst p) /\
  (forall (P : nat) (f : lil_env -> lil_env),
     P <> E -> P <> root ->
     lil_find_var (update_env P f st) E N = lil_find_var st E N) /\
  (forall (env_set : string -> string -> W -> Z * W)
          (parse_rec : string -> nat -> bool -> @M W (option lil_value))
          (val : option lil_value),
     E = lil_envp st ->
     is_char (code_at N 0) NUL = false ->
     let p := (E, length (env_var (deref_env st E))) in
     exists st',
       lil_set_var env_set parse_rec N val LIL_SETVAR_LOCAL_NEW st =
         Some (Some p, st') /\
       env_ok E (deref_env st' E) /\
       env_ok root (deref_env st' root) /\
       lil_find_var st' E N = Some p /\
       deref_var st' p = mk_var (cstr N) None E (lil_clone_value val)).
Proof.
  intros root OE OR.
  assert (F : lil_find_var st E N =
              match owned_var (deref_env st E) N with
              | Some i => Some (E, i)
              | None =>
                  if E =? root then None
                  else option_map (fun i => (root, i))
                         (owned_var (deref_env st root) N)
              end).
  { rewrite lil_find_var_unfold. unfold lil_find_local_var.
    rewrite (proj1 OE N). fold root. rewrite (proj1 OR N).
    destruct (owned_var (deref_env st E) N); reflexivity. }
  split; [exact F|]. split; [|split].
  - intros p Hp. rewrite F in Hp.
    destruct (owned_var (deref_env st E) N) as [i|] eqn:HE.
    + injection Hp as <-. cbn [fst snd].
      destruct (owned_var_spec st E i N OE HE) as (L & S & O). auto.
    + destruct (E =? root); [discriminate|].
      destruct (owned_var (deref_env st root) N) as [i|] eqn:HR;
        [|discriminate].
      injection Hp as <-. cbn [fst snd].
      destruct (owned_var_spec st root i N OR HR) as (L & S & O). auto.
  - intros P f HE HR. unfold root in HR. rewrite !lil_find_var_unfold.
    unfold lil_find_local_var.
    change (lil_rootenv (update_env P f st)) with (lil_rootenv st).
    rewrite !deref_env_update_other by congruence. reflexivity.
  - intros env_set parse_rec val HEp Hn p.
    unfold lil_set_var. rewrite Hn.
    change (lil_setvar_eqb LIL_SETVAR_LOCAL_NEW LIL_SETVAR_GLOBAL) with false.
    change (lil_setvar_eqb LIL_SETVAR_LOCAL_NEW LIL_SETVAR_LOCAL_NEW)
      with true.
    cbn [negb]. cbv iota. rewrite <- HEp. fold p.
    eexists. split; [reflexivity|].
    set (g := fun e : lil_env =>
                set_env_varmap (hm_put (env_varmap e) N p)
                  (set_env_var
                     (env_var e ++
                      mk_var (cstr N) None E (lil_clone_value val) :: nil)%list
                     e)).
    assert (DE : deref_env (update_env E g st) E = g (deref_env st E))
      by apply deref_env_update_same.
    assert (OE' : env_ok E (deref_env (update_env E g st) E))
      by (rewrite DE; unfold g, p; apply env_ok_create; exact OE).
    assert (OR' : env_ok root (deref_env (update_env E g st) root)).
    { destruct (Nat.eq_dec root E) as [->|Hne]; [exact OE'|].
      rewrite deref_env_update_other by exact Hne. exact OR. }
    split; [exact OE'|]. split; [exact OR'|]. split.
    + rewrite lil_find_var_unfold. unfold lil_find_local_var.
      rewrite DE. unfold g. cbn [env_varmap set_env_varmap set_env_var].
      rewrite hm_get_put_same by apply streq_refl. reflexivity.
    + unfold deref_var.
      change (fst p) with E.
      change (snd p) with (length (env_var (deref_env st E))).
      rewrite DE. unfold g.
      cbn [env_var set_env_varmap set_env_var]. apply nth_middle.
Qed.

End TwoLevel.

(** From the frame at address 3, [y] is the frame's own variable, [g] is the
    variable of the root, and [x], which only the parent at address 2 owns,
    is not found. *)
Lemma lil_find_var_two_level_witness :
  env_ok 3 (deref_env test_scopes 3) /\
  env_ok (lil_rootenv test_scopes)
    (deref_env test_scopes (lil_rootenv test_scopes)) /\
  lil_rootenv test_scopes = 1 /\
  env_parent (deref_env test_scopes 3) = Some 2 /\
  env_parent (deref_env test_scopes 2) = Some 1 /\
  owned_var (deref_env test_scopes 2) "x" = Some 0 /\
  lil_find_var test_scopes 3 "y" = Some (3, 0) /\
  lil_find_var test_scopes 3 "g" = Some (1, 0) /\
  lil_find_var test_scopes 3 "x" = None.
Proof.
  assert (O3 : env_ok 3 (deref_env test_scopes 3)).
  { replace (deref_env test_scopes 3)
      with (set_env_varmap (hm_put hm_init "y" (3, 0))
              (set_env_var
                 (nil ++ mk_var (cstr "y") None 3 (Some "2") :: nil)%list
                 (lil_alloc_env_init (Some 2))))
      by (vm_compute; reflexivity).
    apply (env_ok_create 3 (lil_alloc_env_init (Some 2))).
    apply env_ok_init. }
  assert (O1 : env_ok (lil_rootenv test_scopes)
                 (deref_env test_scopes (lil_rootenv test_scopes))).
  { replace (deref_env test_scopes (lil_rootenv test_scopes))
      with (set_env_varmap (hm_put hm_init "g" (1, 0))
              (set_env_var
                 (nil ++ mk_var (cstr "g") None 1 (Some "7") :: nil)%list
                 (lil_alloc_env_init None)))
      by (vm_compute; reflexivity).
    apply (env_ok_create 1 (lil_alloc_env_init None)).
    apply env_ok_init. }
  split; [exact O3|]. split; [exact O1|].
  split; [reflexivity|]. split; [reflexivity|]. split; [reflexivity|].
  split; [reflexivity|].
  pose proof (lil_find_var_two_level test_scopes 3 "y" O3 O1) as (Ty & _).
  pose proof (lil_find_var_two_level test_scopes 3 "g" O3 O1) as (Tg & _).
  pose proof (lil_find_var_two_level test_scopes 3 "x" O3 O1) as (Tx & _).
  split; [rewrite Ty; reflexivity|].
  split; [rewrite Tg; reflexivity|].
  rewrite Tx; reflexivity.
Defined.

(** ** Names with a dot *)

(** The prefix of a name before its first dot has neither a dot nor a NUL. *)
Lemma strchr_prefix (name : string) (c : ascii) :
  forall i, strchr name c = Some i ->
    strchr (substring 0 i name) c = None /\
    cstr (substring 0 i name) = substring 0 i name.
Proof.
  induction name as [|a r IH]; intros i H; [discriminate|].
  cbn [strchr] in H. destruct (is_char a NUL) eqn:Ea; [discriminate|].
  destruct (is_char a c) eqn:Ec.
  - injection H as <-. split; reflexivity.
  - destruct (strchr r c) as [j|] eqn:Ej; [|discriminate].
    injection H as <-. destruct (IH j eq_refl) as [I1 I2].
    cbn [substring strchr cstr]. rewrite Ea, Ec, I1, I2. split; reflexivity.
Qed.

Section Dotted.

Context {W : Type}.
Context {PB : print_buffer}.

(** C9.  For a name with a dot, [lil_find_cmd] returns what it returns for
    the prefix before the first dot, whatever follows the dot, and leaves
    the buffer of the name as it was.  In particular, once [lil_register]
    has added a command under the prefix, the lookup of the dotted name
    returns that command, with the prefix as its name and the registered
    procedure; registering the prefix again keeps the command and
    replaces its procedure; and a command that is registered under the
    whole dotted name, with nothing under the prefix, is not returned. *)
Theorem lil_find_cmd_dotted (st : @lil W) (name : string) (i : nat) :
  strchr name "." = Some i ->
  let prefix := substring 0 i name in
  lil_find_cmd st name = (fst (lil_find_cmd st prefix), name) /\
  (forall (other : string) (j : nat),
     strchr other "." = Some j -> substring 0 j other = prefix ->
     fst (lil_find_cmd st other) = fst (lil_find_cmd st name)) /\
  (forall proc : lil_func_proc_t,
     fst (lil_find_cmd st prefix) = None ->
     let st' := snd (lil_register prefix proc st) in
     let cmd := length (lil_cmd st) in
     lil_find_cmd st' name = (Some cmd, name) /\
     deref_func st' cmd = mk_func prefix None None (Some proc)) /\
  (forall (proc : lil_func_proc_t) (cmd : nat),
     fst (lil_find_cmd st prefix) = Some cmd ->
     cmd < length (lil_cmd st) ->
     let st' := snd (lil_register prefix proc st) in
     lil_find_cmd st' name = (Some cmd, name) /\
     deref_func st' cmd =
     mk_func (func_name (deref_func st cmd)) None None (Some proc)) /\
  (forall proc : lil_func_proc_t,
     fst (lil_find_cmd st prefix) = None ->
     fst (lil_find_cmd (snd (lil_register name proc st)) name) = None).
Proof.
  intros Hd prefix.
  destruct (strchr_prefix name "." i Hd) as [Hp Hc]. fold prefix in Hp, Hc.
  assert (F : forall (s : @lil W) (other : string) (j : nat),
             strchr other "." = Some j -> substring 0 j other = prefix ->
             lil_find_cmd s other = (fst (lil_find_cmd s prefix), other)).
  { intros s other j Ho Hs.
    pose proof (lil_find_cmd_dot s other j Ho) as [F1 F2].
    rewrite (surjective_pairing (lil_find_cmd s other)), F1, F2, Hs.
    unfold lil_find_cmd. rewrite Hp. reflexivity. }
  assert (P : forall s : @lil W,
             fst (lil_find_cmd s prefix) = hm_get (lil_cmdmap s) prefix).
  { intros s. unfold lil_find_cmd. rewrite Hp. reflexivity. }
  split; [apply (F st name i Hd eq_refl)|].
  split; [intros other j Ho Hs;
          rewrite (F st other j Ho Hs), (F st name i Hd eq_refl);
          reflexivity|].
  split; [|split].
  - intros proc Hf st' cmd.
    rewrite (F st' name i Hd eq_refl).
    subst st'. unfold lil_register, add_func. rewrite Hf.
    cbv iota beta. cbn [fst snd]. fold cmd.
    set (st1 := set_lil_cmdmap (hm_put (lil_cmdmap st) prefix cmd)
                  (set_lil_cmd
                     (lil_cmd st ++ mk_func (cstr prefix) None None None
                        :: nil)%list st)).
    assert (E : lil_cmd (update_func cmd (set_func_proc (Some proc)) st1) =
                (lil_cmd st ++
                 mk_func (cstr prefix) None None (Some proc) :: nil)%list).
    { unfold update_func, deref_func.
      change (lil_cmd st1)
        with (lil_cmd st ++ mk_func (cstr prefix) None None None :: nil)%list.
      change (lil_cmd (set_lil_cmd ?l _)) with l.
      unfold cmd. rewrite nth_middle.
      rewrite <- (Nat.add_0_r (length (lil_cmd st))) at 1.
      rewrite insert_app_r. reflexivity. }
    split.
    + rewrite P.
      change (lil_cmdmap (update_func cmd _ st1))
        with (hm_put (lil_cmdmap st) prefix cmd).
      rewrite hm_get_put_same by apply streq_refl. reflexivity.
    + unfold deref_func at 1. rewrite E, Hc. apply nth_middle.
  - intros proc cmd Hf Hl st'.
    rewrite (F st' name i Hd eq_refl).
    subst st'. unfold lil_register, add_func. rewrite Hf.
    cbv iota beta. cbn [fst snd]. split.
    + rewrite P. unfold update_func.
      change (lil_cmdmap (set_lil_cmd _ (set_lil_cmd _ st)))
        with (lil_cmdmap st).
      rewrite <- P, Hf. reflexivity.
    + unfold update_func, deref_func. cbn [lil_cmd set_lil_cmd].
      rewrite !nth_lookup, !list_lookup_insert_eq
        by (rewrite ?length_insert; exact Hl).
      reflexivity.
  - intros proc Hf.
    rewrite (F _ name i Hd eq_refl). cbn [fst].
    assert (Hn : fst (lil_find_cmd st name) = None)
      by (rewrite (F st name i Hd eq_refl); exact Hf).
    unfold lil_register, add_func. rewrite Hn.
    cbv iota beta. cbn [fst snd]. rewrite P.
    change (lil_cmdmap (update_func _ _ (set_lil_cmdmap ?m _))) with m.
    rewrite hm_get_put_other.
    + rewrite <- P. exact Hf.
    + pose proof (strchr_spec name "." i Hd) as [S1 _].
      fold prefix in S1. rewrite <- S1, streq_cstr_r.
      apply (strchr_cut name "." i Hd).
Qed.

End Dotted.

(** [set.x] resolves to the command [set] of the standard commands, and,
    once the host has registered [net], [net.up] resolves to [net]. *)
Lemma lil_find_cmd_dotted_witness :
  strchr "set.x" "." = Some 3 /\
  lil_find_cmd test_lil "set.x" = (Some 10, "set.x") /\
  func_proc (deref_func test_lil 10) = Some proc_fnc_set /\
  strchr "net.up" "." = Some 3 /\
  fst (lil_find_cmd test_lil "net") = None /\
  lil_find_cmd (snd (lil_register "net" (proc_host 7) test_lil)) "net.up" =
    (Some 49, "net.up") /\
  deref_func (snd (lil_register "net" (proc_host 7) test_lil)) 49 =
    mk_func "net" None None (Some (proc_host 7)).
Proof.
  assert (H1 : strchr "set.x" "." = Some 3) by reflexivity.
  assert (H2 : strchr "net.up" "." = Some 3) by reflexivity.
  assert (H3 : fst (lil_find_cmd test_lil "net") = None)
    by (vm_compute; reflexivity).
  pose proof (lil_find_cmd_dotted test_lil "set.x" 3 H1) as T1.
  pose proof (lil_find_cmd_dotted test_lil "net.up" 3 H2) as T2.
  cbv zeta in T1, T2.
  destruct T1 as (A & _). destruct T2 as (_ & _ & B & _).
  destruct (B (proc_host 7) H3) as [B1 B2].
  split; [exact H1|].
  split; [rewrite A; vm_compute; reflexivity|].
  split; [vm_compute; reflexivity|].
  split; [exact H2|]. split; [exact H3|].
  split; [exact B1|exact B2].
Defined.

(** ** The error slot while it is set *)

Section ErrorSlotLoop.

Context {W : Type}.
Context {PB : print_buffer}.
Variable ctrlc : W -> bool * W.
Variable env_set : string -> string -> W -> Z * W.
Variable env_get : string -> W -> option string.
Variable FULL : bool.
Variable extern_proc :
  (string -> nat -> bool -> @M W (option lil_value)) ->
  lil_func_proc_t -> list lil_value -> @M W (option lil_value).
Variable parse_rec : string -> nat -> bool -> @M W (option lil_value).

Lemma skip_eols_head (n : nat) (st : @lil W) :
  exists h, skip_eols n st = set_lil_head h st.
Proof.
  revert st. induction n as [|n IH]; intros st; cbn [skip_eols].
  - exists (lil_head st). symmetry. apply set_lil_head_id.
  - destruct (ateol st).
    + destruct (IH (lil_adv 1 st)) as [h ->]. exists h. reflexivity.
    + exists (lil_head st). symmetry. apply set_lil_head_id.
Qed.

(** What the loop of [lil_parse] does between two commands moves the cursor
    only; with the error slot set, the test of the loop then fails. *)
Lemma lil_parse_loop_next_error (n : nat) (val : option lil_value)
    (st : @lil W) :
  is_error (lil_err st) = true ->
  exists h,
    (let st := lil_skip_spaces st in
     let st := skip_eols (String.length (lil_buf st) - lil_head st) st in
     let st := lil_skip_spaces st in
     lil_parse_loop ctrlc env_set env_get FULL extern_proc parse_rec n val
       st) = Some (val, set_lil_head h st).
Proof.
  intros H. cbv zeta.
  destruct (lil_skip_spaces_head st) as [h1 ->].
  destruct (skip_eols_head
              (String.length (lil_buf (set_lil_head h1 st)) -
               lil_head (set_lil_head h1 st)) (set_lil_head h1 st))
    as [h2 ->].
  destruct (lil_skip_spaces_head (set_lil_head h2 (set_lil_head h1 st)))
    as [h3 ->].
  exists h3. rewrite lil_parse_loop_error by exact H. reflexivity.
Qed.

(** C1 (amended).  While the error slot is set: every error-setting routine
    leaves the interpreter as it is (the first error wins); the loop of
    [lil_parse] executes nothing at its test; a loop that is running ends
    with the line that set the slot, be it in [substitute], in the command
    that [run_cmd] ran or in [unknown_cmd]: it returns the state that the
    line left, with at most the cursor moved, whatever text follows; a
    nested [lil_parse] (one that is not the outermost call, which resets
    the slot) executes no command and leaves the slot, the commands and the
    host alone, returning the empty value when it is not a function body;
    [lil_error] returns the message and position of the slot and resets its
    kind; and [try], entered without an error, clears the error that its
    body raises before it evaluates the handler. *)
Theorem error_slot_sticky (st : @lil W) :
  is_error (lil_err st) = true ->
  (forall msg pos expected text,
     lil_set_error msg st = st /\ lil_set_error_at pos msg st = st /\
     lil_set_errorf text st = st /\ lil_set_errorf_at pos text st = st /\
     lil_set_error_unbalanced expected st = st) /\
  (forall n val,
     lil_parse_loop ctrlc env_set env_get FULL extern_proc parse_rec n val
       st = Some (val, st)) /\
  (forall (n : nat) (val : option lil_value) (st0 : @lil W) (w : W),
     lil_head st0 < lil_clen st0 ->
     lil_err st0 = ERROR_NOERROR ->
     ctrlc (lil_host st0) = (false, w) ->
     (forall words,
        substitute parse_rec (set_lil_host w st0) = Some (words, st) ->
        lil_parse_loop ctrlc env_set env_get FULL extern_proc parse_rec
          (S n) val st0 = Some (None, st)) /\
     (forall (st1 : @lil W) (w0 : lil_value) (rest : lil_list) (cmd : nat)
             (v : option lil_value),
        substitute parse_rec (set_lil_host w st0) =
          Some (Some (w0 :: rest), st1) ->
        lil_err st1 = ERROR_NOERROR ->
        fst (lil_find_cmd st1 w0) = Some cmd ->
        run_cmd ctrlc env_set env_get FULL extern_proc parse_rec cmd
          (w0 :: rest) st1 = Some (v, st) ->
        exists h,
          lil_parse_loop ctrlc env_set env_get FULL extern_proc parse_rec
            (S n) val st0 = Some (v, set_lil_head h st)) /\
     (forall (st1 : @lil W) (w0 : lil_value) (rest : lil_list)
             (v : option lil_value),
        substitute parse_rec (set_lil_host w st0) =
          Some (Some (w0 :: rest), st1) ->
        lil_err st1 = ERROR_NOERROR ->
        fst (lil_find_cmd st1 w0) = None ->
        String.length w0 <> 0 ->
        unknown_cmd env_set FULL parse_rec (w0 :: rest) st1 = Some (v, st) ->
        exists h,
          lil_parse_loop ctrlc env_set env_get FULL extern_proc parse_rec
            (S n) val st0 = Some (v, set_lil_head h st))) /\
  (forall code codelen funclevel,
     lil_parse_depth st <> 0 ->
     exists v st',
       lil_parse_body ctrlc env_set env_get FULL extern_proc parse_rec code
         codelen funclevel st = Some (Some v, st') /\
       lil_err st' = lil_err st /\ lil_err_head st' = lil_err_head st /\
       lil_err_msg st' = lil_err_msg st /\ lil_cmd st' = lil_cmd st /\
       lil_host st' = lil_host st /\
       (funclevel = false -> v = EmptyString /\ lil_envs st' = lil_envs st)) /\
  lil_error st =
    (Some (lil_err_msg st, lil_err_head st), set_lil_err ERROR_NOERROR st) /\
  (forall (st0 : @lil W) body handler r,
     is_error (lil_err st0) = false ->
     lil_parse_value parse_rec (Some body) false st0 = Some (r, st) ->
     fnc_try parse_rec (body :: handler :: nil) st0 =
     lil_parse_value parse_rec (Some handler) false
       (set_lil_err ERROR_NOERROR st)).
Proof.
  intros H. split; [|split; [|split; [|split; [|split]]]].
  - intros msg pos expected text.
    unfold lil_set_errorf, lil_set_errorf_at, lil_set_error,
      lil_set_error_at, lil_set_error_unbalanced.
    rewrite H. auto.
  - intros n val. apply lil_parse_loop_error. exact H.
  - intros n val st0 w Hh He Hc.
    apply Nat.ltb_lt in Hh.
    split; [|split].
    + intros words Hs. cbn [lil_parse_loop].
      rewrite Hh, He. cbn [is_error negb andb]. rewrite Hc, Hs.
      destruct words; [rewrite H|]; reflexivity.
    + intros st1 w0 rest cmd v Hs He1 Hf Hr. cbn [lil_parse_loop].
      rewrite Hh, He. cbn [is_error negb andb]. rewrite Hc, Hs, He1.
      cbn [is_error].
      pose proof (lil_find_cmd_name st1 w0) as Hn.
      change (lil_to_string (Some w0)) with w0.
      destruct (lil_find_cmd st1 w0) as [c nm]. cbn [fst snd] in Hf, Hn.
      subst c nm. cbv beta iota zeta.
      change (run_cmd ctrlc env_set env_get FULL extern_proc parse_rec cmd
                _ st1)
        with (run_cmd ctrlc env_set env_get FULL extern_proc parse_rec cmd
                (w0 :: rest) st1).
      destruct (env_breakrun (cur_env st)) eqn:B.
      * exists (lil_head st). rewrite Hr, B, set_lil_head_id. reflexivity.
      * destruct (lil_parse_loop_next_error n v st H) as [h N].
        exists h. rewrite Hr, B. exact N.
    + intros st1 w0 rest v Hs He1 Hf Hl Hu. cbn [lil_parse_loop].
      rewrite Hh, He. cbn [is_error negb andb]. rewrite Hc, Hs, He1.
      cbn [is_error].
      pose proof (lil_find_cmd_name st1 w0) as Hn.
      change (lil_to_string (Some w0)) with w0.
      destruct (lil_find_cmd st1 w0) as [c nm]. cbn [fst snd] in Hf, Hn.
      subst c nm. cbv beta iota zeta.
      apply Nat.eqb_neq in Hl.
      change (unknown_cmd env_set FULL parse_rec _ st1)
        with (unknown_cmd env_set FULL parse_rec (w0 :: rest) st1).
      destruct v as [v|].
      * destruct (env_breakrun (cur_env st)) eqn:B.
        -- exists (lil_head st).
           rewrite Hl, Hu, B, set_lil_head_id. reflexivity.
        -- destruct (lil_parse_loop_next_error n (Some v) st H) as [h N].
           exists h. rewrite Hl, Hu, B. exact N.
      * exists (lil_head st). rewrite Hl, Hu, set_lil_head_id. reflexivity.
  - intros code codelen funclevel Hd. unfold lil_parse_body.
    pose proof (lil_parse_prologue_fields code codelen funclevel st) as HP.
    cbv zeta in HP.
    set (P := lil_parse_prologue code codelen funclevel st) in *.
    destruct HP as (P1 & P2 & P3 & P4 & P5 & P6 & P7 & P8).
    assert (Hd1 : (lil_parse_depth st + 1 =? 1) = false)
      by (apply Nat.eqb_neq; lia).
    rewrite Hd1 in P1.
    rewrite lil_parse_loop_error by (rewrite P1; exact H).
    pose proof (lil_parse_cleanup_fields (lil_code st) (lil_clen st)
                  (lil_head st) funclevel None P) as HC.
    cbv zeta in HC.
    destruct (lil_parse_cleanup _ _ _ _ _ _) as [r s'].
    cbn [fst snd] in HC.
    destruct HC as ((v & ->) & C1 & C2 & C3 & C4 & C5 & _ & _ & _ & _ & _ & C6).
    exists v, s'. split; [reflexivity|].
    repeat split; try congruence.
    + destruct (C6 H0) as [E _]. cbn in E. congruence.
    + destruct (C6 H0) as [_ E]. rewrite E. auto.
  - unfold lil_error. rewrite H. reflexivity.
  - intros st0 body handler r H0 Hp. unfold fnc_try, lil_arg.
    cbn [length nth_error Nat.ltb Nat.leb]. rewrite H0, Hp, H. reflexivity.
Qed.

End ErrorSlotLoop.

(** In [error boom; set a 2] the loop of [lil_parse] ends with the first
    line: it returns the state that [error] left, in which [a] is not
    set, and [lil_error] then reads the slot and resets it. *)
Lemma error_slot_sticky_witness :
  is_error (lil_err test_error_raised) = true /\
  lil_head test_error_line < lil_clen test_error_line /\
  lil_err test_error_line = ERROR_NOERROR /\
  test_ctrlc (lil_host test_error_line) = (false, nil) /\
  substitute (test_parse_rec 0) (set_lil_host nil test_error_line) =
    Some (Some ("error" :: "boom" :: nil), test_error_words) /\
  lil_err test_error_words = ERROR_NOERROR /\
  fst (lil_find_cmd test_error_words "error") = Some 23 /\
  run_cmd test_ctrlc test_env_set test_env_get true test_extern
    (test_parse_rec 0) 23 ("error" :: "boom" :: nil) test_error_words =
    Some (None, test_error_raised) /\
  (exists h,
     lil_parse_loop test_ctrlc test_env_set test_env_get true test_extern
       (test_parse_rec 0) (lil_clen test_error_line) None test_error_line =
     Some (None, set_lil_head h test_error_raised)) /\
  lil_find_var test_error_raised (lil_envp test_error_raised) "a" = None /\
  lil_error test_error_raised =
    (Some (Some "boom", lil_err_head test_error_raised),
     set_lil_err ERROR_NOERROR test_error_raised).
Proof.
  assert (H : is_error (lil_err test_error_raised) = true) by reflexivity.
  assert (H1 : lil_head test_error_line < lil_clen test_error_line)
    by (vm_compute; lia).
  assert (H2 : lil_err test_error_line = ERROR_NOERROR) by reflexivity.
  assert (H3 : test_ctrlc (lil_host test_error_line) = (false, nil))
    by reflexivity.
  assert (H4 : substitute (test_parse_rec 0)
                 (set_lil_host nil test_error_line) =
               Some (Some ("error" :: "boom" :: nil), test_error_words))
    by (vm_compute; reflexivity).
  assert (H5 : lil_err test_error_words = ERROR_NOERROR) by reflexivity.
  assert (H6 : fst (lil_find_cmd test_error_words "error") = Some 23)
    by (vm_compute; reflexivity).
  assert (H7 : run_cmd test_ctrlc test_env_set test_env_get true test_extern
                 (test_parse_rec 0) 23 ("error" :: "boom" :: nil)
                 test_error_words = Some (None, test_error_raised))
    by (vm_compute; reflexivity).
  repeat (split; [assumption|]).
  destruct (error_slot_sticky test_ctrlc test_env_set test_env_get true
              test_extern (test_parse_rec 0) test_error_raised H)
    as (_ & _ & L & _ & E & _).
  destruct (L 18 None test_error_line nil H1 H2 H3) as (_ & R & _).
  split; [exact (R test_error_words "error" ("boom" :: nil) 23 None
                   H4 H5 H6 H7)|].
  split; [vm_compute; reflexivity|].
  rewrite E. reflexivity.
Defined.

(** ** Unwinding with [return], through [lil_parse] *)

Section Unwinding.

Context {W : Type}.
Context {PB : print_buffer}.
Variable ctrlc : W -> bool * W.
Variable env_set : string -> string -> W -> Z * W.
Variable env_get : string -> W -> option string.
Variable FULL : bool.
Variable extern_proc :
  (string -> nat -> bool -> @M W (option lil_value)) ->
  lil_func_proc_t -> list lil_value -> @M W (option lil_value).
Variable parse_rec : string -> nat -> bool -> @M W (option lil_value).

(** The loop of [lil_parse] is the iteration of its turns. *)
Lemma lil_parse_loop_turn (n : nat) (val : option lil_value) (st : @lil W) :
  lil_parse_loop ctrlc env_set env_get FULL extern_proc parse_rec (S n) val
    st =
  match
    lil_parse_turn ctrlc env_set env_get FULL extern_proc parse_rec val st
  with
  | None => None
  | Some (Leave v s) => Some (v, s)
  | Some (Next v s) =>
      lil_parse_loop ctrlc env_set env_get FULL extern_proc parse_rec n v s
  end.
Proof.
  cbn [lil_parse_loop]. unfold lil_parse_turn.
  destruct (_ && _); [|reflexivity].
  destruct (ctrlc (lil_host st)) as [c w].
  destruct c; [reflexivity|].
  destruct (substitute parse_rec (set_lil_host w st)) as [[[words|] s]|];
    [|reflexivity|reflexivity].
  destruct (is_error (lil_err s)); [reflexivity|].
  destruct words as [|w0 rest]; [reflexivity|].
  destruct (lil_find_cmd s (lil_to_string (Some w0))) as [[cmd|] name].
  - destruct (run_cmd _ _ _ _ _ _ _ _ _) as [[v s']|]; [|reflexivity].
    destruct (env_breakrun (cur_env s')); reflexivity.
  - destruct (negb (String.length w0 =? 0)).
    + destruct (unknown_cmd _ _ _ _ _) as [[[v|] s']|]; try reflexivity.
      destruct (env_breakrun (cur_env s')); reflexivity.
    + destruct (env_breakrun (cur_env s)); reflexivity.
Qed.

Lemma lil_parse_loop_turns (k : nat) :
  forall (n : nat) (val v : option lil_value) (st s : @lil W),
    lil_parse_turns ctrlc env_set env_get FULL extern_proc parse_rec k val
      st = Some (v, s) ->
    lil_parse_loop ctrlc env_set env_get FULL extern_proc parse_rec (k + n)
      val st =
    lil_parse_loop ctrlc env_set env_get FULL extern_proc parse_rec n v s.
Proof.
  induction k as [|k IH]; intros n val v st s H.
  - injection H as -> ->. reflexivity.
  - cbn [lil_parse_turns] in H. cbn [Nat.add]. rewrite lil_parse_loop_turn.
    destruct (lil_parse_turn _ _ _ _ _ _ _ _) as [[v1 s1|v1 s1]|];
      try discriminate H.
    apply IH. exact H.
Qed.

(** A line whose command leaves [breakrun] set ends the loop. *)
Lemma lil_parse_loop_breakrun (n : nat) (val v : option lil_value)
    (st st1 st2 : @lil W) (w : W) (w0 : lil_value) (rest : lil_list)
    (cmd : nat) :
  lil_head st < lil_clen st ->
  lil_err st = ERROR_NOERROR ->
  ctrlc (lil_host st) = (false, w) ->
  substitute parse_rec (set_lil_host w st) = Some (Some (w0 :: rest), st1) ->
  lil_err st1 = ERROR_NOERROR ->
  fst (lil_find_cmd st1 w0) = Some cmd ->
  run_cmd ctrlc env_set env_get FULL extern_proc parse_rec cmd (w0 :: rest)
    st1 = Some (v, st2) ->
  env_breakrun (cur_env st2) = true ->
  lil_parse_loop ctrlc env_set env_get FULL extern_proc parse_rec (S n) val
    st = Some (v, st2).
Proof.
  intros Hh He Hc Hs He1 Hf Hr Hb.
  cbn [lil_parse_loop]. apply Nat.ltb_lt in Hh. rewrite Hh, He.
  cbn [is_error negb andb]. rewrite Hc, Hs, He1. cbn [is_error].
  pose proof (lil_find_cmd_name st1 w0) as Hn.
  change (lil_to_string (Some w0)) with w0.
  destruct (lil_find_cmd st1 w0) as [c nm]. cbn [fst snd] in Hf, Hn.
  subst c nm. cbv beta iota zeta.
  change (run_cmd ctrlc env_set env_get FULL extern_proc parse_rec cmd _ st1)
    with (run_cmd ctrlc env_set env_get FULL extern_proc parse_rec cmd
            (w0 :: rest) st1).
  rewrite Hr, Hb. reflexivity.
Qed.

(** What the code after the label [cleanup] does with a frame that
    [return] has marked: a function body takes the return value and clears
    the marks, any other text leaves them for the enclosing loop. *)
Lemma lil_parse_cleanup_return (sc : option string) (scl sh : nat)
    (funclevel : bool) (v : option lil_value) (V : lil_value)
    (s : @lil W) :
  env_breakrun (cur_env s) = true ->
  env_retval_set (cur_env s) = true ->
  env_retval (cur_env s) = Some V ->
  let r := lil_parse_cleanup sc scl sh funclevel v s in
  (funclevel = true ->
   fst r = Some V /\
   env_breakrun (cur_env (snd r)) = false /\
   env_retval_set (cur_env (snd r)) = false /\
   env_retval (cur_env (snd r)) = None) /\
  (funclevel = false ->
   fst r = Some (lil_to_string v) /\
   env_breakrun (cur_env (snd r)) = true /\
   env_retval_set (cur_env (snd r)) = true /\
   env_retval (cur_env (snd r)) = Some V) /\
  lil_code (snd r) = sc /\ lil_clen (snd r) = scl /\ lil_head (snd r) = sh /\
  lil_cmd (snd r) = lil_cmd s /\ lil_host (snd r) = lil_host s /\
  lil_err (snd r) = lil_err s /\ lil_envp (snd r) = lil_envp s /\
  lil_parse_depth (snd r) = lil_parse_depth s - 1.
Proof.
  intros B RS RV r. subst r. unfold lil_parse_cleanup.
  change (cur_env (set_lil_head sh (set_lil_clen scl (set_lil_code sc s))))
    with (cur_env s).
  rewrite RS, RV. destruct funclevel; cbn [andb fst snd].
  - split; [intros _|split; [discriminate|]].
    + split; [reflexivity|].
      match goal with
      | |- context [set_lil_parse_depth ?d (update_env ?a ?f ?x)] =>
          change (cur_env (set_lil_parse_depth d (update_env a f x)))
            with (cur_env (update_env (lil_envp x) f x));
          rewrite (cur_env_update f x)
      end.
      repeat split; reflexivity.
    + repeat split; reflexivity.
  - split; [discriminate|split; [intros _|]].
    + change (cur_env (set_lil_parse_depth _ (set_lil_head sh
                (set_lil_clen scl (set_lil_code sc s))))) with (cur_env s).
      destruct v; repeat split; assumption.
    + repeat split; reflexivity.
Qed.

End Unwinding.

Section ReturnClaim.

Context {W : Type}.
Context {PB : print_buffer}.
Variable ctrlc : W -> bool * W.
Variable env_set : string -> string -> W -> Z * W.
Variable env_get : string -> W -> option string.
Variable FULL : bool.
Variable extern_proc :
  (string -> nat -> bool -> @M W (option lil_value)) ->
  lil_func_proc_t -> list lil_value -> @M W (option lil_value).

(** C2.  [lil_parse] of a text in which, after [k] lines that fall through,
    a line runs a command that leaves the current frame marked by [return
    V] ([breakrun], [retval_set] and the value [V]): the loop ends with that
    line, so that the result and the state are those of the code after the
    label [cleanup] applied to what the command left, whatever text
    follows.  For a function body ([funclevel] true) the result is [V] and
    [retval_set], [breakrun] and the slot are cleared; for any other text
    the marks stay, so that the loop of the enclosing [lil_parse], up to
    the function body, ends in the same way.  The command [return V] marks
    the frame in this way; [eval] hands the marks that its text leaves on
    to the loop that runs it; and [run_cmd] of a script function whose body
    is such a text returns [V]. *)
Theorem return_unwinds (fuel k : nat) (code : string) (codelen : nat)
    (funclevel : bool) (st S0 st1 st2 : @lil W) (val v : option lil_value)
    (w : W) (w0 V : lil_value) (rest : lil_list) (cmd : nat) :
  let parse := lil_parse ctrlc env_set env_get FULL extern_proc fuel in
  let P := lil_parse_prologue code codelen funclevel st in
  let r :=
    lil_parse_cleanup (lil_code st) (lil_clen st) (lil_head st) funclevel v
      st2 in
  lil_parse_turns ctrlc env_set env_get FULL extern_proc parse k None P =
    Some (val, S0) ->
  k < lil_clen P - lil_head P ->
  lil_head S0 < lil_clen S0 ->
  lil_err S0 = ERROR_NOERROR ->
  ctrlc (lil_host S0) = (false, w) ->
  substitute parse (set_lil_host w S0) = Some (Some (w0 :: rest), st1) ->
  lil_err st1 = ERROR_NOERROR ->
  fst (lil_find_cmd st1 w0) = Some cmd ->
  run_cmd ctrlc env_set env_get FULL extern_proc parse cmd (w0 :: rest) st1 =
    Some (v, st2) ->
  env_breakrun (cur_env st2) = true ->
  env_retval_set (cur_env st2) = true ->
  env_retval (cur_env st2) = Some V ->
  lil_parse ctrlc env_set env_get FULL extern_proc (S fuel) code codelen
    funclevel st = Some r /\
  (funclevel = true ->
   fst r = Some V /\
   env_breakrun (cur_env (snd r)) = false /\
   env_retval_set (cur_env (snd r)) = false /\
   env_retval (cur_env (snd r)) = None) /\
  (funclevel = false ->
   fst r = Some (lil_to_string v) /\
   env_breakrun (cur_env (snd r)) = true /\
   env_retval_set (cur_env (snd r)) = true /\
   env_retval (cur_env (snd r)) = Some V) /\
  (lil_cmd (snd r) = lil_cmd st2 /\ lil_host (snd r) = lil_host st2 /\
   lil_err (snd r) = lil_err st2 /\ lil_envp (snd r) = lil_envp st2 /\
   lil_code (snd r) = lil_code st /\ lil_head (snd r) = lil_head st) /\
  (forall (c : nat) (V' : lil_value) (rest' : lil_list) (s : @lil W),
     func_proc (deref_func s c) = Some proc_fnc_return ->
     lil_err s = ERROR_NOERROR ->
     exists s',
       run_cmd ctrlc env_set env_get FULL extern_proc parse c
         (w0 :: V' :: rest') s = Some (Some V', s') /\
       env_breakrun (cur_env s') = true /\
       env_retval_set (cur_env s') = true /\
       env_retval (cur_env s') = Some V' /\
       lil_envp s' = lil_envp s /\ lil_cmd s' = lil_cmd s /\
       lil_host s' = lil_host s /\ lil_err s' = ERROR_NOERROR) /\
  (forall (c : nat) (name body : lil_value) (s s' : @lil W)
          (r' : option lil_value),
     func_proc (deref_func s c) = Some proc_fnc_eval ->
     String.length body <> 0 ->
     parse body (String.length body) false s = Some (r', s') ->
     exists s'',
       run_cmd ctrlc env_set env_get FULL extern_proc parse c
         (name :: body :: nil) s = Some (r', s'') /\
       cur_env s'' = cur_env s') /\
  (funclevel = true -> codelen = String.length code -> codelen <> 0 ->
   forall (c : nat) (words : lil_list) (stc : @lil W),
     func_proc (deref_func stc c) = None ->
     run_cmd_bind env_set
       (lil_parse ctrlc env_set env_get FULL extern_proc (S fuel)) c words
       (update_env (lil_envp (snd (lil_push_env stc)))
          (set_env_func (Some c)) (snd (lil_push_env stc))) =
       Some (tt, st) ->
     func_code (deref_func st c) = Some code ->
     run_cmd ctrlc env_set env_get FULL extern_proc
       (lil_parse ctrlc env_set env_get FULL extern_proc (S fuel)) c words
       stc = Some (Some V, lil_pop_env (snd r))).
Proof.
  intros parse P r HT Hk Hh He Hc Hs He1 Hf Hr B RS RV.
  assert (L : lil_parse ctrlc env_set env_get FULL extern_proc (S fuel) code
                codelen funclevel st = Some r).
  { cbn [lil_parse]. unfold lil_parse_body. fold parse. fold P.
    replace (lil_clen P - lil_head P)
      with (k + S (lil_clen P - lil_head P - S k)) by lia.
    rewrite (lil_parse_loop_turns ctrlc env_set env_get FULL extern_proc
               parse k _ None val P S0 HT).
    rewrite (lil_parse_loop_breakrun ctrlc env_set env_get FULL extern_proc
               parse _ val v S0 st1 st2 w w0 rest cmd Hh He Hc Hs He1 Hf Hr
               B).
    reflexivity. }
  pose proof (lil_parse_cleanup_return (lil_code st) (lil_clen st)
                (lil_head st) funclevel v V st2 B RS RV) as C.
  cbv zeta in C. fold r in C.
  destruct C as (C1 & C2 & C3 & C4 & C5 & C6 & C7 & C8 & C9 & C10).
  split; [exact L|]. split; [exact C1|]. split; [exact C2|].
  split; [repeat split; assumption|]. split; [|split].
  - intros c V' rest' s Hp Hes.
    destruct (fnc_return_spec V' rest' s)
      as (s' & R & B' & RS' & RV' & EP & ER & EH & CM & HO & HD & CO).
    exists s'. unfold run_cmd. rewrite Hp. cbn [tl call_proc].
    rewrite R, ER, Hes. repeat split; try assumption; congruence.
  - intros c name body s s' r' Hp Hnz Hb.
    unfold run_cmd. rewrite Hp. cbn [tl call_proc].
    unfold fnc_eval, lil_arg. cbn [length Nat.eqb nth_error].
    unfold lil_parse_value. apply Nat.eqb_neq in Hnz. rewrite Hnz, Hb.
    destruct (lil_err s'); eexists; split; reflexivity.
  - intros -> Hl Hnz c words stc Hp Hb Hcode.
    unfold run_cmd. rewrite Hp.
    destruct (lil_push_env stc) as [a sp] eqn:Epush. cbn [snd] in Hb.
    rewrite Hb, Hcode. unfold lil_parse_value.
    apply Nat.eqb_neq in Hnz. rewrite <- Hl, Hnz, L.
    destruct (C1 eq_refl) as (E & _).
    rewrite (surjective_pairing r), E. reflexivity.
Qed.

End ReturnClaim.

(** The body [set a 1; return 5; set a 2], evaluated in a frame: the result
    is 5, the marks of [return] are cleared, and [a] is still 1. *)
Lemma return_unwinds_witness :
  lil_parse_turns test_ctrlc test_env_set test_env_get true test_extern
    (test_parse_rec 3) 1 None
    (lil_parse_prologue test_return_body 0 true test_frame) =
    Some (Some "1", test_return_turn) /\
  1 < lil_clen (lil_parse_prologue test_return_body 0 true test_frame) -
      lil_head (lil_parse_prologue test_return_body 0 true test_frame) /\
  lil_head test_return_turn < lil_clen test_return_turn /\
  lil_err test_return_turn = ERROR_NOERROR /\
  test_ctrlc (lil_host test_return_turn) = (false, nil) /\
  substitute (test_parse_rec 3) (set_lil_host nil test_return_turn) =
    Some (Some ("return" :: "5" :: nil), test_return_words) /\
  lil_err test_return_words = ERROR_NOERROR /\
  fst (lil_find_cmd test_return_words "return") = Some 9 /\
  run_cmd test_ctrlc test_env_set test_env_get true test_extern
    (test_parse_rec 3) 9 ("return" :: "5" :: nil) test_return_words =
    Some (Some "5", test_return_done) /\
  env_breakrun (cur_env test_return_done) = true /\
  env_retval_set (cur_env test_return_done) = true /\
  env_retval (cur_env test_return_done) = Some "5" /\
  let r :=
    lil_parse_cleanup (lil_code test_frame) (lil_clen test_frame)
      (lil_head test_frame) true (Some "5") test_return_done in
  test_parse_rec 4 test_return_body 0 true test_frame = Some r /\
  fst r = Some "5" /\
  env_breakrun (cur_env (snd r)) = false /\
  env_retval_set (cur_env (snd r)) = false /\
  env_retval (cur_env (snd r)) = None /\
  lil_get_var_or test_env_get (snd r) "a" None = Some "1".
Proof.
  assert (H1 : lil_parse_turns test_ctrlc test_env_set test_env_get true
                 test_extern (test_parse_rec 3) 1 None
                 (lil_parse_prologue test_return_body 0 true test_frame) =
               Some (Some "1", test_return_turn))
    by (vm_compute; reflexivity).
  assert (H2 : 1 < lil_clen (lil_parse_prologue test_return_body 0 true
                               test_frame) -
                   lil_head (lil_parse_prologue test_return_body 0 true
                               test_frame))
    by (vm_compute; lia).
  assert (H3 : lil_head test_return_turn < lil_clen test_return_turn)
    by (vm_compute; lia).
  assert (H4 : lil_err test_return_turn = ERROR_NOERROR) by reflexivity.
  assert (H5 : test_ctrlc (lil_host test_return_turn) = (false, nil))
    by reflexivity.
  assert (H6 : substitute (test_parse_rec 3)
                 (set_lil_host nil test_return_turn) =
               Some (Some ("return" :: "5" :: nil), test_return_words))
    by (vm_compute; reflexivity).
  assert (H7 : lil_err test_return_words = ERROR_NOERROR) by reflexivity.
  assert (H8 : fst (lil_find_cmd test_return_words "return") = Some 9)
    by (vm_compute; reflexivity).
  assert (H9 : run_cmd test_ctrlc test_env_set test_env_get true test_extern
                 (test_parse_rec 3) 9 ("return" :: "5" :: nil)
                 test_return_words = Some (Some "5", test_return_done))
    by (vm_compute; reflexivity).
  assert (H10 : env_breakrun (cur_env test_return_done) = true)
    by (vm_compute; reflexivity).
  assert (H11 : env_retval_set (cur_env test_return_done) = true)
    by (vm_compute; reflexivity).
  assert (H12 : env_retval (cur_env test_return_done) = Some "5")
    by (vm_compute; reflexivity).
  split; [exact H1|]. split; [exact H2|]. split; [exact H3|].
  split; [exact H4|]. split; [exact H5|]. split; [exact H6|].
  split; [exact H7|]. split; [exact H8|]. split; [exact H9|].
  split; [exact H10|]. split; [exact H11|]. split; [exact H12|].
  pose proof (return_unwinds test_ctrlc test_env_set test_env_get true
                test_extern 3 1 test_return_body 0 true test_frame
                test_return_turn test_return_words test_return_done
                (Some "1") (Some "5") nil "return" "5" ("5" :: nil) 9
                H1 H2 H3 H4 H5 H6 H7 H8 H9 H10 H11 H12) as T.
  cbv zeta in T. destruct T as (L & F & _).
  destruct (F eq_refl) as (F1 & F2 & F3 & F4).
  cbv zeta.
  split; [exact L|]. split; [exact F1|]. split; [exact F2|].
  split; [exact F3|]. split; [exact F4|].
  vm_compute. reflexivity.
Defined.

(** A [return] inside [if], [eval] or [while] ends every loop up to the
    body of its function, whose commands after the nested one do not run;
    at the top of a script, which is not a function body, the marks stay
    on the root frame. *)
Example return_from_nested_body :
  (exists st',
     test_parse 10
       "set global a 1; func f {} {if 1 {return 5}; set global a 2}; set r [f]; quote $r $a"
       false test_lil = Some (Some "5 1", st')) /\
  (exists st',
     test_parse 10
       "set global a 1; func f {} {eval {if 1 {return 5}; set global a 3}; set global a 2}; set r [f]; quote $r $a"
       false test_lil = Some (Some "5 1", st')) /\
  (exists st',
     test_parse_ext 10
       "set global a 1; func f {} {while 1 {return 5; set global a 3}; set global a 2}; set r [f]; quote $r $a"
       0 false test_lil = Some (Some "5 1", st')) /\
  (exists st',
     test_parse 10 "set a 1; eval {return 5}; set a 2" false test_lil =
       Some (Some "5", st') /\
     env_breakrun (cur_env st') = true /\
     env_retval_set (cur_env st') = true /\
     lil_get_var_or test_env_get st' "a" None = Some "1").
Proof.
  repeat split; eexists; try (vm_compute; reflexivity).
  split; [vm_compute; reflexivity|].
  repeat split; vm_compute; reflexivity.
Qed.

(** ** Division by zero, from the operator to the error slot *)

Section LevelShape.

Variable rec : expreval -> option expreval.
Variable n : nat.









End LevelShape.



Section DivisionClaim.

Context {W : Type}.
Context {PB : print_buffer}.
Variable ctrlc : W -> bool * W.
Variable parse_rec : string -> nat -> bool -> @M W (option lil_value).


End DivisionClaim.



(** Without [CONFIG_LIL_FULL] the evaluator reads no [/]: the evaluation of
    [8/0] stops in front of it, with the value 8 and no error. *)
Example division_needs_full :
  lil_eval_expr test_ctrlc false (test_parse_rec 0) (Some "8/0") test_lil =
  Some (Some "8", test_lil).
Proof. vm_compute. reflexivity. Qed.

(** Shift counts are taken modulo 64, and the right shift of a negative
    number is arithmetic. *)
Example shift_counts :
  lil_eval_expr test_ctrlc true (test_parse_rec 0) (Some "1 << 64") test_lil =
    Some (Some "1", test_lil) /\
  lil_eval_expr test_ctrlc true (test_parse_rec 0) (Some "8 << -1") test_lil =
    Some (Some "0", test_lil) /\
  lil_eval_expr test_ctrlc true (test_parse_rec 0) (Some "-8 >> 1") test_lil =
    Some (Some "-4", test_lil).
Proof. repeat split; vm_compute; reflexivity. Qed.
